(** * InfiniCity: procedural city generator and sliding-window recycler

    Shallow embedding of [samples/infinicity.c].

    Numbers.  The C program computes with [float] and [double].  The
    embedding uses exact rationals ([Q]) for every real-valued quantity, so
    rounding error is not modelled; integer quantities ([int], [long]) are
    [Z].  Module [Binary32] below gives a bit-exact IEEE-754 model of
    [getSeed] (built on the standard library's [SpecFloat]) and checks that
    the exact model and the binary32 model produce the same seeds around the
    initial working window.

    Effects.  The program keeps its pseudo-random stream (libc's rand48
    family), its OpenGL objects and its grid in global variables.  They are
    threaded explicitly: [env] holds the random stream, the live OpenGL
    objects and an execution trace; [World] adds the five parallel 10x10
    arrays, [shift] and [shiftBreak].  Stores into the stack buffers of
    [init_geometryBuilding] are bounds-checked and a failed check is the
    fault [OutOfBounds]; loops driven by a real-valued counter run on fuel
    and report [OutOfFuel] when it runs out. *)

From stdpp Require Import base option list gmap.
From Stdlib Require Import ZArith QArith Qround Qabs Qpower Lia Lqa.
From Stdlib Require Import Floats.SpecFloat.

Local Open Scope Z_scope.

(** ** Faults and the result type *)

Inductive fault := OutOfBounds | OutOfFuel.

Inductive res (A : Type) : Type :=
| Ok (a : A)
| Err (f : fault).
Arguments Ok {A} a.
Arguments Err {A} f.

Definition res_bind {A B} (r : res A) (k : A -> res B) : res B :=
  match r with
  | Ok a => k a
  | Err f => Err f
  end.

(** ** The rand48 stream (libc, POSIX)

    [srand48] sets the high 32 bits of the 48-bit state to the low 32 bits of
    its argument and the low 16 bits to [0x330E]; [drand48] advances the
    state by the linear congruence [X' = (0x5DEECE66D * X + 0xB) mod 2^48]
    and returns [X' / 2^48]. *)

Definition rand48_a : Z := 0x5DEECE66D.
Definition rand48_c : Z := 0xB.
Definition rand48_m : Z := 2 ^ 48.

Definition srand48_state (seedval : Z) : Z :=
  (seedval mod 2 ^ 32) * 2 ^ 16 + 0x330E.

Definition rand48_next (X : Z) : Z := (rand48_a * X + rand48_c) mod rand48_m.

Definition rand48_value (X : Z) : Q := Qmake X (Z.to_pos rand48_m).

(** ** Environment: random stream, OpenGL objects, trace *)

Inductive event :=
| EvNew (h : Z)                 (* kuhl_geometry_new produced object h *)
| EvDelete (h : Z)              (* kuhl_geometry_delete released object h *)
| EvAssign (i jdst jsrc : Z)    (* the five arrays' [i][jdst] = [i][jsrc] *)
| EvRowFar                      (* addRowFar was entered *)
| EvRowNear.                    (* addRowNear was entered *)

Record env := mkEnv {
  rng : Z;              (* rand48 state X *)
  gl_next : Z;          (* next unused OpenGL object name *)
  gl_live : gset Z;     (* names of the objects that exist *)
  trace : list event
}.

(** Computations over the environment that may fault. *)
Definition M (A : Type) : Type := env -> res (A * env).

Definition raise {A} (f : fault) : M A := fun _ => Err f.
Definition lift_res {A} (r : res A) : M A :=
  fun e => match r with Ok a => Ok (a, e) | Err f => Err f end.

#[global] Instance M_ret : MRet M := fun A a e => Ok (a, e).
#[global] Instance M_bind : MBind M := fun A B k c e =>
  match c e with
  | Ok (a, e') => k a e'
  | Err f => Err f
  end.

Definition emit (ev : event) : M unit :=
  fun e => Ok (tt, mkEnv (rng e) (gl_next e) (gl_live e) (trace e ++ [ev])).

Definition srand48 (seedval : Z) : M unit :=
  fun e => Ok (tt, mkEnv (srand48_state seedval) (gl_next e) (gl_live e) (trace e)).

Definition drand48 : M Q :=
  fun e => let X := rand48_next (rng e) in
           Ok (rand48_value X, mkEnv X (gl_next e) (gl_live e) (trace e)).

(** [randomRange], lines 146-151. *)
Definition randomRange (start end_ : Q) : M Q :=
  n ← drand48;
  let n := (n * (end_ - start))%Q in
  let n := (n + start)%Q in
  mret n.

(** ** C arrays with checked stores

    A stack or literal array is a capacity and the cells written so far; a
    cell never written is absent (uninitialised).  A store outside
    [0, capacity) is the fault [OutOfBounds]. *)

Record carray (T : Type) := mkArray {
  capacity : Z;
  cells : gmap Z T
}.
Arguments mkArray {T} _ _.
Arguments capacity {T} _.
Arguments cells {T} _.

Definition array_new {T} (n : Z) : carray T := mkArray n ∅.

Definition store {T} (a : carray T) (k : Z) (v : T) : res (carray T) :=
  if bool_decide (0 ≤ k < capacity a)
  then Ok (mkArray (capacity a) (<[k := v]> (cells a)))
  else Err OutOfBounds.

(** [a[base+0] = v0; a[base+1] = v1; ...] *)
Fixpoint store_list {T} (a : carray T) (base : Z) (vs : list T) : res (carray T) :=
  match vs with
  | [] => Ok a
  | v :: vs' => res_bind (store a base v) (fun a' => store_list a' (base + 1) vs')
  end.

Definition array_lit {T} (vs : list T) : carray T :=
  match store_list (array_new (Z.of_nat (length vs))) 0 vs with
  | Ok a => a
  | Err _ => array_new 0
  end.

(** The first [n] cells, as they are copied to a buffer object. *)
Definition read_prefix {T} (a : carray T) (n : Z) : res (list (option T)) :=
  if bool_decide (n ≤ capacity a)
  then Ok ((fun k => cells a !! k) <$> seqZ 0 n)
  else Err OutOfBounds.

(** ** libkuhl geometry objects *)

Inductive attrib_name := in_Position | in_Color | in_Normal.

Record kuhl_geometry := mkGeom {
  vao : Z;                          (* OpenGL object name, 0 when never created *)
  geom_program : Z;
  vertex_count : Z;
  positions : list (option Q);
  colors : list (option Q);
  normals : list (option Q);
  indices : list (option Z)
}.

(** A zero-initialised [static kuhl_geometry]. *)
Definition kuhl_geometry_zero : kuhl_geometry := mkGeom 0 0 0 [] [] [] [].

(** Modelled from the spec: libkuhl's [kuhl_geometry_new] is not part of the
    sources.  It initialises [*geom] for [vertexCount] vertices and creates
    the OpenGL object that backs it (the Renderer "owns GPU resource
    upload/teardown primitives"); object names are handed out in increasing
    order starting from 1. *)
Definition kuhl_geometry_new (prog vertexCount : Z) : M kuhl_geometry :=
  fun e =>
    let h := gl_next e in
    Ok (mkGeom h prog vertexCount [] [] [] [],
        mkEnv (rng e) (h + 1) ({[h]} ∪ gl_live e) (trace e ++ [EvNew h])).

Definition set_attrib (geom : kuhl_geometry) (name : attrib_name)
    (l : list (option Q)) : kuhl_geometry :=
  match name with
  | in_Position => mkGeom (vao geom) (geom_program geom) (vertex_count geom)
                     l (colors geom) (normals geom) (indices geom)
  | in_Color => mkGeom (vao geom) (geom_program geom) (vertex_count geom)
                     (positions geom) l (normals geom) (indices geom)
  | in_Normal => mkGeom (vao geom) (geom_program geom) (vertex_count geom)
                     (positions geom) (colors geom) l (indices geom)
  end.

Definition set_indices (geom : kuhl_geometry) (l : list (option Z)) : kuhl_geometry :=
  mkGeom (vao geom) (geom_program geom) (vertex_count geom)
    (positions geom) (colors geom) (normals geom) l.

(** Modelled from the spec: libkuhl's [kuhl_geometry_attrib] is not part of
    the sources.  It copies [vertex_count * components] values of [data]
    into the named vertex attribute ("ordered vertex attribute buffers"). *)
Definition kuhl_geometry_attrib (geom : kuhl_geometry) (data : carray Q)
    (components : Z) (name : attrib_name) : M kuhl_geometry :=
  l ← lift_res (read_prefix data (vertex_count geom * components));
  mret (set_attrib geom name l).

(** Modelled from the spec: libkuhl's [kuhl_geometry_indices] is not part of
    the sources.  It copies [indexCount] indices ("a triangle index
    buffer"). *)
Definition kuhl_geometry_indices (geom : kuhl_geometry) (data : carray Z)
    (indexCount : Z) : M kuhl_geometry :=
  l ← lift_res (read_prefix data indexCount);
  mret (set_indices geom l).

(** Modelled from the spec: libkuhl's [kuhl_geometry_delete] is not part of
    the sources.  It releases the OpenGL object of [*geom] ("destroyed
    explicitly on retirement"). *)
Definition kuhl_geometry_delete (geom : kuhl_geometry) : M unit :=
  fun e =>
    Ok (tt, mkEnv (rng e) (gl_next e) (gl_live e ∖ {[vao geom]})
              (trace e ++ [EvDelete (vao geom)])).

(** ** Loops over a real-valued counter

    [for (float x = x0; x < bound; x += step) body(x)].  The fuel is the
    number of counter values below [bound]; [for_float_fuel] reports
    [OutOfFuel] if the guard still holds when it is used up. *)

Fixpoint for_float_fuel {S} (fuel : nat) (bound step : Q)
    (body : Q -> S -> M S) (x : Q) (s : S) : M S :=
  if Qlt_le_dec x bound then
    match fuel with
    | O => raise OutOfFuel
    | Datatypes.S fuel' =>
        s' ← body x s;
        for_float_fuel fuel' bound step body (x + step)%Q s'
    end
  else mret s.

Definition loop_fuel (x0 bound step : Q) : nat :=
  Z.to_nat (Qceiling ((bound - x0) / step)).

Definition for_float {S} (x0 bound step : Q) (body : Q -> S -> M S) (s : S) : M S :=
  for_float_fuel (loop_fuel x0 bound step) bound step body x0 s.

(** ** Building generation: [init_geometryBuilding], lines 167-818 *)

Section Generator.
Local Open Scope Q_scope.

(** The stack buffers of the window pass and its three cursors. *)
Record wbufs := mkW {
  wVertexPositions : carray Q;
  wNormalData : carray Q;
  wColorData : carray Q;
  wIndexData : carray Z;
  n1 : Z;
  n2 : Z;
  n3 : Z
}.

(** [GLfloat wVertexPositions[tw*4*3*3]; ... GLuint wIndexData[tw*4*3*3/2];
    int n1 = 0; int n2 = 0; int n3 = 0;] *)
Definition wbufs_new (tw : Z) : wbufs :=
  mkW (array_new (tw * 4 * 3 * 3)) (array_new (tw * 4 * 3 * 3))
      (array_new (tw * 4 * 3 * 3)) (array_new (Z.quot (tw * 4 * 3 * 3) 2))
      0 0 0.

(** The body shared by the six window loops: twelve vertex coordinates,
    twelve normal coordinates, one random draw for the colour, twelve colour
    values, six indices. *)
Definition window_quad (verts norms : list Q) (b : wbufs) : M wbufs :=
  vp ← lift_res (store_list (wVertexPositions b) (n1 b) verts);
  nd ← lift_res (store_list (wNormalData b) (n1 b) norms);
  lit ← randomRange 0 1;
  let cv := if Qlt_le_dec 0.5 lit then (0.5, 0.5, 0) else (0, 0, 0) in
  let '(cv0, cv1, cv2) := cv in
  cd ← lift_res (store_list (wColorData b) (n1 b)
                   [cv0; cv1; cv2; cv0; cv1; cv2; cv0; cv1; cv2; cv0; cv1; cv2]);
  let n1' := (n1 b + 12)%Z in
  ix ← lift_res (store_list (wIndexData b) (n2 b)
                   [n3 b + 0; n3 b + 1; n3 b + 2; n3 b + 1; n3 b + 2; n3 b + 3]%Z);
  mret (mkW vp nd cd ix n1' (n2 b + 6)%Z (n3 b + 4)%Z).

(** [for (float i = (w/2)-(hw*(ws+wp)/2)+(wp/2); i < w-ws; i += ws+wp)
      for (float j = wp; j < h-ws; j += ws+wp) { ... }] *)
Definition window_face (ws wp w h : Q) (hw : Z)
    (verts : Q -> Q -> list Q) (norms : list Q) (b : wbufs) : M wbufs :=
  for_float ((w / 2) - (inject_Z hw * (ws + wp) / 2) + (wp / 2)) (w - ws) (ws + wp)
    (fun i b =>
       for_float wp (h - ws) (ws + wp)
         (fun j b => window_quad (verts i j) norms b) b)
    b.

Definition norms_front : list Q := [0; 0; 1; 0; 0; 1; 0; 0; 1; 0; 0; 1].
Definition norms_side : list Q := [1; 0; 0; 1; 0; 0; 1; 0; 0; 1; 0; 0].

(** Lines 284-295, 353-364 and 422-433: the base tier's window corners. *)
Definition verts_front (ws wo sh : Q) (i j : Q) : list Q :=
  [i; sh + j; wo;  i + ws; sh + j; wo;  i; sh + j + ws; wo;  i + ws; sh + j + ws; wo].
Definition verts_left (ws wo sh : Q) (i j : Q) : list Q :=
  [- wo; sh + j; - i;  - wo; sh + j; - i - ws;
   - wo; sh + j + ws; - i;  - wo; sh + j + ws; - i - ws].
Definition verts_right (ws wo sh w : Q) (i j : Q) : list Q :=
  [w + wo; sh + j; - i;  w + wo; sh + j; - i - ws;
   w + wo; sh + j + ws; - i;  w + wo; sh + j + ws; - i - ws].

(** Lines 608-619, 677-688 and 746-757: the second tier's window corners. *)
Definition verts_front_top (ws wo sh fud : Q) (i j : Q) : list Q :=
  [fud + i; sh + j; - fud + wo;  fud + i + ws; sh + j; - fud + wo;
   fud + i; sh + j + ws; - fud + wo;  fud + i + ws; sh + j + ws; - fud + wo].
Definition verts_left_top (ws wo sh fud : Q) (i j : Q) : list Q :=
  [fud - wo; sh + j; - fud - i;  fud - wo; sh + j; - fud - i - ws;
   fud - wo; sh + j + ws; - fud - i;  fud - wo; sh + j + ws; - fud - i - ws].
Definition verts_right_top (ws wo sh fud w : Q) (i j : Q) : list Q :=
  [fud + w + wo; sh + j; - fud - i;  fud + w + wo; sh + j; - fud - i - ws;
   fud + w + wo; sh + j + ws; - fud - i;  fud + w + wo; sh + j + ws; - fud - i - ws].

(** Lines 186-203: the open box (front, left, right, roof). *)
Definition shell_vertexPositions (sh w h : Q) : list Q :=
  [0; sh + 0; 0;   w; sh + 0; 0;   0; sh + h; 0;   w; sh + h; 0;
   0; sh + 0; 0;   0; sh + 0; - w;   0; sh + h; 0;   0; sh + h; - w;
   w; sh + 0; 0;   w; sh + 0; - w;   w; sh + h; 0;   w; sh + h; - w;
   0; sh + h; 0;   w; sh + h; 0;   0; sh + h; - w;   w; sh + h; - w].

(** Lines 510-527: the second tier's box, inset by [fud]. *)
Definition top_vertexPositions (fud sh w h : Q) : list Q :=
  [fud + 0; sh + 0; - fud + 0;   fud + w; sh + 0; - fud + 0;
   fud + 0; sh + h; - fud + 0;   fud + w; sh + h; - fud + 0;
   fud + 0; sh + 0; - fud + 0;   fud + 0; sh + 0; - fud + - w;
   fud + 0; sh + h; - fud + 0;   fud + 0; sh + h; - fud + - w;
   fud + w; sh + 0; - fud + 0;   fud + w; sh + 0; - fud + - w;
   fud + w; sh + h; - fud + 0;   fud + w; sh + h; - fud + - w;
   fud + 0; sh + h; - fud + 0;   fud + w; sh + h; - fud + 0;
   fud + 0; sh + h; - fud + - w;   fud + w; sh + h; - fud + - w].

Definition shell_colorData (bc : Q) : list Q := replicate 48 bc.

Definition shell_normalData : list Q :=
  [0; 0; 1;  0; 0; 1;  0; 0; 1;  0; 0; 1;
   1; 0; 0;  1; 0; 0;  1; 0; 0;  1; 0; 0;
   1; 0; 0;  1; 0; 0;  1; 0; 0;  1; 0; 0;
   0; 1; 0;  0; 1; 0;  0; 1; 0;  0; 1; 0].

Definition shell_indexData : list Z :=
  [0; 1; 2;  1; 2; 3;  4; 5; 6;  5; 6; 7;
   8; 9; 10;  9; 10; 11;  12; 13; 14;  13; 14; 15]%Z.

(** The four [kuhl_geometry_attrib]/[kuhl_geometry_indices] calls that end a
    window pass (lines 487-490 and 811-814). *)
Definition windows_upload (windows : kuhl_geometry) (tw : Z) (b : wbufs) : M kuhl_geometry :=
  windows ← kuhl_geometry_attrib windows (wVertexPositions b) 3 in_Position;
  windows ← kuhl_geometry_attrib windows (wNormalData b) 3 in_Normal;
  windows ← kuhl_geometry_attrib windows (wColorData b) 3 in_Color;
  kuhl_geometry_indices windows (wIndexData b) (Z.quot (tw * 4 * 3 * 3) 2).

(** The three window loops of one tier, in the order of the source: the
    front wall, the left wall, the right wall. *)
Definition window_faces (ws wp w h : Q) (hw : Z)
    (vfront vleft vright : Q -> Q -> list Q) (b : wbufs) : M wbufs :=
  b ← window_face ws wp w h hw vfront norms_front b;
  b ← window_face ws wp w h hw vleft norms_side b;
  window_face ws wp w h hw vright norms_side b.

(** "Draw windows" (lines 265-490 and 589-814): the window counts, the
    buffers sized by them, the three loops and the upload. *)
Definition draw_windows (prog : Z) (ws wp w h : Q)
    (vfront vleft vright : Q -> Q -> list Q) : M kuhl_geometry :=
  let hw := Qfloor (w / (ws + wp)) in   (* horizontal windows *)
  let vw := Qfloor (h / (ws + wp)) in   (* vertical windows *)
  let tw := (hw * vw)%Z in              (* total windows *)
  windows ← kuhl_geometry_new prog (tw * 4 * 3);
  b ← window_faces ws wp w h hw vfront vleft vright (wbufs_new tw);
  windows_upload windows tw b.

(** The shell of one tier (lines 183-259 and 507-583). *)
Definition shell_upload (prog : Z) (vertexPositions : list Q) (bc : Q) : M kuhl_geometry :=
  building ← kuhl_geometry_new prog 16;
  building ← kuhl_geometry_attrib building (array_lit vertexPositions) 3 in_Position;
  building ← kuhl_geometry_attrib building (array_lit (shell_colorData bc)) 3 in_Color;
  building ← kuhl_geometry_attrib building (array_lit shell_normalData) 3 in_Normal;
  kuhl_geometry_indices building (array_lit shell_indexData) 24.

(** Lines 499-504: the second tier's width, height and inset. *)
Definition top_dimensions (ws wp oldW : Q) : M (Q * Q * Q) :=
  w ← randomRange (ws + wp) oldW;
  let w := if Qlt_le_dec (w + 0.15) oldW then w + 0.15 else w in
  h ← randomRange 0.5 1.5;
  fud ← randomRange 0 ((oldW - w) / 2);
  mret (w, h, fud).

(** The four objects are passed by pointer; the function returns their new
    contents together with the C return value.  [buildingTop] and
    [windowsTop] come back untouched when the building has one tier. *)
Definition init_geometryBuilding
    (building windows buildingTop windowsTop : kuhl_geometry)
    (prog : Z) (seed : Z)
  : M (kuhl_geometry * kuhl_geometry * kuhl_geometry * kuhl_geometry * Z) :=
  (* seed random *)
  srand48 seed;;
  (* get dimensions *)
  w ← randomRange 0.4 0.8;
  h ← randomRange 0.8 2.2;
  let bc := 0.6 in
  let sh := 0 in
  let ws := 0.13 in
  let wp := 0.02 in
  let wo := 0.001 in
  (* main building *)
  building ← shell_upload prog (shell_vertexPositions sh w h) bc;
  (* windows *)
  windows ← draw_windows prog ws wp w h
              (verts_front ws wo sh) (verts_left ws wo sh) (verts_right ws wo sh w);
  r ← randomRange 0 1;
  if Qlt_le_dec 0.5 r then
    let isComplex := 1%Z in
    (* get dimensions *)
    let sh := h in
    let oldW := w in
    '(w, h, fud) ← top_dimensions ws wp oldW;
    buildingTop ← shell_upload prog (top_vertexPositions fud sh w h) bc;
    windowsTop ← draw_windows prog ws wp w h
                   (verts_front_top ws wo sh fud) (verts_left_top ws wo sh fud)
                   (verts_right_top ws wo sh fud w);
    mret (building, windows, buildingTop, windowsTop, isComplex)
  else
    mret (building, windows, buildingTop, windowsTop, 0%Z).

End Generator.

(** ** Seeds: [getSeed], lines 864-869 *)

Definition hardSeed : list Q := [69.83; 11.17]%Q.

(** Truncation toward zero, the C conversion from a real type to [long]. *)
Definition Qtrunc (q : Q) : Z := Z.quot (Qnum q) (Zpos (Qden q)).

(** Modelled from the spec: libkuhl's [vecNf_dot] is not part of the
    sources; the spec says that the seed function "takes its dot product
    with the fixed HardSeedVector".  The sum of [A[i] * B[i]] over
    [i = 0 .. n-1]. *)
Definition vecNf_dot (A B : list Q) (n : Z) : Q :=
  foldl (fun sum i => (sum + nth i A 0 * nth i B 0)%Q) 0%Q (seq 0 (Z.to_nat n)).

Definition getSeed (cP rP : Z) : Z :=
  let temp := [inject_Z cP + 0.525; inject_Z rP + 0.164]%Q in
  let outP := Qtrunc (vecNf_dot temp hardSeed 2 * 1000) in
  outP.

(** [getSeed] in IEEE-754 arithmetic, as the C compiler evaluates it:
    [float] is binary32, [double] is binary64, a decimal literal is the
    nearest [double], mixed operands are promoted to [double], every
    operation rounds to nearest-even. *)
Module Binary32.

Definition f32_of_Z (n : Z) : spec_float := binary_normalize 24 128 n 0 false.
Definition f64_of_Z (n : Z) : spec_float := binary_normalize 53 1024 n 0 false.

(** The [double] nearest to [num / den]. *)
Definition f64_lit (num den : Z) : spec_float :=
  SFdiv 53 1024 (f64_of_Z num) (f64_of_Z den).

(** [(float) x] for a [double] [x]. *)
Definition f32_of_f64 (x : spec_float) : spec_float :=
  match x with
  | S754_finite s m e => binary_normalize 24 128 (cond_Zopp s (Zpos m)) e s
  | _ => x
  end.

Definition f32_add : spec_float -> spec_float -> spec_float := SFadd 24 128.
Definition f32_mul : spec_float -> spec_float -> spec_float := SFmul 24 128.
Definition f64_add : spec_float -> spec_float -> spec_float := SFadd 53 1024.

(** [(long) x]: the integer part, toward zero. *)
Definition long_of_float (x : spec_float) : Z :=
  match x with
  | S754_finite s m e =>
      cond_Zopp s (if 0 <=? e then Zpos m * 2 ^ e else Zpos m / 2 ^ (- e))
  | _ => 0
  end.

(** [static float hardSeed[2] = {69.83, 11.17};] *)
Definition hardSeed : list spec_float :=
  [f32_of_f64 (f64_lit 6983 100); f32_of_f64 (f64_lit 1117 100)].

(** Modelled from the spec: libkuhl's [vecNf_dot] is not part of the
    sources ("takes its dot product with the fixed HardSeedVector"); a
    [float] accumulator that starts at zero. *)
Definition vecNf_dot (A B : list spec_float) (n : Z) : spec_float :=
  foldl (fun sum i => f32_add sum (f32_mul (nth i A (S754_zero false)) (nth i B (S754_zero false))))
        (f32_of_Z 0) (seq 0 (Z.to_nat n)).

Definition getSeed (cP rP : Z) : Z :=
  let temp := [f32_of_f64 (f64_add (f32_of_Z cP) (f64_lit 525 1000));
               f32_of_f64 (f64_add (f32_of_Z rP) (f64_lit 164 1000))] in
  let outP := long_of_float (f32_mul (vecNf_dot temp hardSeed 2) (f32_of_Z 1000)) in
  outP.

End Binary32.

(** ** The world: the global variables of the program *)

(** A [T name[10][10]] array.  Every index the program uses is produced by a
    loop with constant bounds inside [0, 10). *)
Definition grid (T : Type) : Type := Z -> Z -> T.

Definition grid_set {T} (g : grid T) (i j : Z) (v : T) : grid T :=
  fun i' j' => if bool_decide (i' = i ∧ j' = j) then v else g i' j'.

Record World := mkWorld {
  building : grid kuhl_geometry;
  windows : grid kuhl_geometry;
  buildingTop : grid kuhl_geometry;
  windowsTop : grid kuhl_geometry;
  isComplex : grid Q;
  shift : Q;
  shiftBreak : Z;
  program : Z;
  genv : env
}.

(** The state at program start: zero-initialised statics, no OpenGL object
    yet, and the rand48 state that libc starts with. *)
Definition env_start : env := mkEnv 0x1234ABCD330E 1 ∅ [].

Definition world_start (prog : Z) : World :=
  mkWorld (fun _ _ => kuhl_geometry_zero) (fun _ _ => kuhl_geometry_zero)
          (fun _ _ => kuhl_geometry_zero) (fun _ _ => kuhl_geometry_zero)
          (fun _ _ => 0%Q) 0%Q 0 prog env_start.

Definition with_env (W : World) (e : env) : World :=
  mkWorld (building W) (windows W) (buildingTop W) (windowsTop W) (isComplex W)
          (shift W) (shiftBreak W) (program W) e.

Definition with_shift (W : World) (x : Q) : World :=
  mkWorld (building W) (windows W) (buildingTop W) (windowsTop W) (isComplex W)
          x (shiftBreak W) (program W) (genv W).

Definition with_shiftBreak (W : World) (b : Z) : World :=
  mkWorld (building W) (windows W) (buildingTop W) (windowsTop W) (isComplex W)
          (shift W) b (program W) (genv W).

(** [for] loops over an [int] with constant bounds. *)
Fixpoint iterate {S} (body : Z -> S -> res S) (l : list Z) (s : S) : res S :=
  match l with
  | [] => Ok s
  | i :: l' => res_bind (body i s) (iterate body l')
  end.

(** [for (int i = lo; i < hi; i++)] *)
Definition for_up {S} (lo hi : Z) (body : Z -> S -> res S) : S -> res S :=
  iterate body (seqZ lo (hi - lo)).

(** [for (int i = hi; i >= lo; i--)] and [for (int i = hi; i > lo - 1; i--)] *)
Definition for_down {S} (hi lo : Z) (body : Z -> S -> res S) : S -> res S :=
  iterate body (reverse (seqZ lo (hi - lo + 1))).

(** [isComplex[i][j] = init_geometryBuilding(&building[i][j], &windows[i][j],
       &buildingTop[i][j], &windowsTop[i][j], program, seedNum);] *)
Definition generate_cell (i j : Z) (seedNum : Z) (W : World) : res World :=
  match init_geometryBuilding (building W i j) (windows W i j)
          (buildingTop W i j) (windowsTop W i j) (program W) seedNum (genv W) with
  | Ok ((b, w, bt, wt, c), e) =>
      Ok (mkWorld (grid_set (building W) i j b) (grid_set (windows W) i j w)
            (grid_set (buildingTop W) i j bt) (grid_set (windowsTop W) i j wt)
            (grid_set (isComplex W) i j (inject_Z c))
            (shift W) (shiftBreak W) (program W) e)
  | Err f => Err f
  end.

(** [init_buildings], lines 875-882. *)
Definition init_buildings : World -> res World :=
  for_up 0 10 (fun i =>
    for_up 0 10 (fun j W =>
      let seedNum := getSeed i j in
      generate_cell i j seedNum W)).

(** The body of the two "delete current row" loops (lines 891-896 and
    922-927). *)
Definition delete_cell (n j : Z) (W : World) : res World :=
  match
    (kuhl_geometry_delete (building W n j);;
     kuhl_geometry_delete (windows W n j);;
     if Qeq_bool (isComplex W n j) 1 then
       kuhl_geometry_delete (buildingTop W n j);;
       kuhl_geometry_delete (windowsTop W n j)
     else mret tt) (genv W)
  with
  | Ok (_, e) => Ok (with_env W e)
  | Err f => Err f
  end.

(** The body of the two "move rows" loops (lines 901-905 and 932-936): the
    five struct and scalar assignments [x[i][jdst] = x[i][jsrc]]. *)
Definition move_cell (i jdst jsrc : Z) (W : World) : res World :=
  match emit (EvAssign i jdst jsrc) (genv W) with
  | Ok (_, e) =>
      Ok (mkWorld (grid_set (building W) i jdst (building W i jsrc))
            (grid_set (windows W) i jdst (windows W i jsrc))
            (grid_set (buildingTop W) i jdst (buildingTop W i jsrc))
            (grid_set (windowsTop W) i jdst (windowsTop W i jsrc))
            (grid_set (isComplex W) i jdst (isComplex W i jsrc))
            (shift W) (shiftBreak W) (program W) e)
  | Err f => Err f
  end.

Definition enter (ev : event) (W : World) : res World :=
  match emit ev (genv W) with
  | Ok (_, e) => Ok (with_env W e)
  | Err f => Err f
  end.

(** [addRowFar], lines 888-913. *)
Definition addRowFar (W : World) : res World :=
  res_bind (enter EvRowFar W) (fun W =>
  (* delete current close row *)
  res_bind (for_up 0 10 (fun n => delete_cell n 0) W) (fun W =>
  (* move rows back *)
  res_bind (for_up 0 10 (fun i => for_up 0 9 (fun j => move_cell i j (j + 1))) W) (fun W =>
  (* add new far row *)
  for_up 0 10 (fun n W =>
    let seedNum := getSeed n (9 - shiftBreak W) in
    generate_cell n 9 seedNum W) W))).

(** [addRowNear], lines 919-944. *)
Definition addRowNear (W : World) : res World :=
  res_bind (enter EvRowNear W) (fun W =>
  (* delete current near row *)
  res_bind (for_up 0 10 (fun n => delete_cell n 9) W) (fun W =>
  (* move rows forward *)
  res_bind (for_down 9 0 (fun i => for_down 9 1 (fun j => move_cell i j (j - 1))) W) (fun W =>
  (* add new back row *)
  for_up 0 10 (fun n W =>
    let seedNum := getSeed n (- shiftBreak W) in
    generate_cell n 0 seedNum W) W))).

(** ** Input and frames *)

Inductive key := KEY_SPACE | KEY_B | KEY_OTHER.

(** [keyboard], lines 949-996; the other keys move the camera only. *)
Definition keyboard (k : key) (W : World) : World :=
  match k with
  | KEY_SPACE => with_shift W (shift W - 0.1)%Q
  | KEY_B => with_shift W (shift W + 0.1)%Q
  | KEY_OTHER => W
  end.

(** Lines 1028-1037 of [display]: "when a new city row needs to be
    loaded". *)
Definition load_row (W : World) : res World :=
  if bool_decide (Qfloor (shift W) < shiftBreak W) then
    (* we have moved forward one row *)
    let W := with_shiftBreak W (Qfloor (shift W)) in
    addRowFar W
  else if bool_decide (Qfloor (shift W) > shiftBreak W) then
    (* we have moved back one row *)
    let W := with_shiftBreak W (Qfloor (shift W)) in
    addRowNear W
  else Ok W.

(** [display], lines 1001-1094: the viewport loop; everything else in its
    body only reads the world. *)
Definition display (num_viewports : Z) : World -> res World :=
  for_up 0 num_viewports (fun viewportID => load_row).

(** One turn of the main loop (lines 1124-1131): [display()], then
    [glfwPollEvents()] delivers the key events that are pending. *)
Definition frame (num_viewports : Z) (keys : list key) (W : World) : res World :=
  res_bind (display num_viewports W) (fun W => Ok (foldl (fun W k => keyboard k W) W keys)).

(** [main] from [init_buildings()] on, for the given pending keys of each
    turn. *)
Fixpoint main_loop (num_viewports : Z) (turns : list (list key)) (W : World) : res World :=
  match turns with
  | [] => Ok W
  | keys :: turns' => res_bind (frame num_viewports keys W) (main_loop num_viewports turns')
  end.

(** ** Vector helpers, lines 41-140

    The helpers take pointers to [float[3]] arrays, and the arrays of one
    call may overlap.  Memory is a finite map from addresses to floats, a
    pointer is an address, [vec[k]] is the cell at address [vec + k]; an
    access outside the map is the fault [OutOfBounds].  Statements run in
    the order of the source, so that a store is seen by the loads after it.
    [vecNormalize] and [triNormal] take a square root and are not
    embedded. *)

Abbreviation fmem := (gmap Z Q).

Definition F (A : Type) : Type := fmem -> res (A * fmem).

#[global] Instance F_ret : MRet F := fun A a m => Ok (a, m).
#[global] Instance F_bind : MBind F := fun A B k c m =>
  match c m with
  | Ok (a, m') => k a m'
  | Err f => Err f
  end.

(** [vec[k]] as an rvalue. *)
Definition rd (vec k : Z) : F Q :=
  fun m => match m !! (vec + k) with
           | Some x => Ok (x, m)
           | None => Err OutOfBounds
           end.

(** [vec[k] = x;] *)
Definition wr (vec k : Z) (x : Q) : F unit :=
  fun m => match m !! (vec + k) with
           | Some _ => Ok (tt, <[vec + k := x]> m)
           | None => Err OutOfBounds
           end.

(** [vecCpy], lines 41-46. *)
Definition vecCpy (vec2 vec1 : Z) : F Z :=
  x ← rd vec1 0; wr vec2 0 x;;
  x ← rd vec1 1; wr vec2 1 x;;
  x ← rd vec1 2; wr vec2 2 x;;
  mret vec2.

(** [vecSub], lines 56-61. *)
Definition vecSub (vec3 vec1 vec2 : Z) : F Z :=
  a ← rd vec1 0; b ← rd vec2 0; wr vec3 0 (a - b)%Q;;
  a ← rd vec1 1; b ← rd vec2 1; wr vec3 1 (a - b)%Q;;
  a ← rd vec1 2; b ← rd vec2 2; wr vec3 2 (a - b)%Q;;
  mret vec3.

(** [vecAdd], lines 71-76. *)
Definition vecAdd (vec3 vec1 vec2 : Z) : F Z :=
  a ← rd vec1 0; b ← rd vec2 0; wr vec3 0 (a + b)%Q;;
  a ← rd vec1 1; b ← rd vec2 1; wr vec3 1 (a + b)%Q;;
  a ← rd vec1 2; b ← rd vec2 2; wr vec3 2 (a + b)%Q;;
  mret vec3.

(** [vecCrossProd], lines 100-108. *)
Definition vecCrossProd (vec3 vec1 vec2 : Z) : F Z :=
  b ← rd vec1 1; f ← rd vec2 2; c ← rd vec1 2; e ← rd vec2 1;
  wr vec3 0 (b * f - c * e)%Q;;
  c ← rd vec1 2; d ← rd vec2 0; a ← rd vec1 0; f ← rd vec2 2;
  wr vec3 1 (c * d - a * f)%Q;;
  a ← rd vec1 0; e ← rd vec2 1; b ← rd vec1 1; d ← rd vec2 0;
  wr vec3 2 (a * e - b * d)%Q;;
  mret vec3.

(** [vecDotProd], lines 117-119. *)
Definition vecDotProd (vec1 vec2 : Z) : F Q :=
  a ← rd vec1 0; d ← rd vec2 0;
  b ← rd vec1 1; e ← rd vec2 1;
  c ← rd vec1 2; f ← rd vec2 2;
  mret (a * d + b * e + c * f)%Q.

(** ** The ground: [init_geometryRoads], lines 824-849 *)

(** [roads] is the one object with texture coordinates and a texture. *)
Record textured_geometry := mkTextured {
  tg_geom : kuhl_geometry;
  tg_texcoord : list (option Q);
  tg_texture : Z
}.

Definition roads_vertexPositions : list Q :=
  [0; 0; 0;  10; 0; 0;  10; 0; 10;  0; 0; 10]%Q.
Definition roads_indexData : list Z := [0; 1; 2;  0; 2; 3].
Definition roads_colorData : list Q := [1; 1; 1;  1; 1; 1;  1; 1; 1;  1; 1; 1]%Q.
Definition roads_texcoordData : list Q := [0; 0;  10; 0;  10; 10;  0; 10]%Q.

(** Modelled from the spec: the texture functions of libkuhl are not part of
    the sources ("ground-plane texture ... loaded by collaborators").
    [texId] stands for the texture name that [kuhl_read_texture_file_wrap]
    stores for [road.png]; the [in_TexCoord] attribute is copied like the
    other attributes, two components per vertex. *)
Definition init_geometryRoads (prog : Z) (texId : Z) : M textured_geometry :=
  roads ← kuhl_geometry_new prog 4;
  roads ← kuhl_geometry_attrib roads (array_lit roads_vertexPositions) 3 in_Position;
  roads ← kuhl_geometry_indices roads (array_lit roads_indexData) 6;
  roads ← kuhl_geometry_attrib roads (array_lit roads_colorData) 3 in_Color;
  texcoord ← lift_res (read_prefix (array_lit roads_texcoordData) (vertex_count roads * 2));
  mret (mkTextured roads texcoord texId).

(** ** The key callback with the debug keys, lines 949-996 *)

Inductive glfw_key :=
| GLFW_KEY_SPACE | GLFW_KEY_B
| GLFW_KEY_S | GLFW_KEY_W | GLFW_KEY_A | GLFW_KEY_D
| GLFW_KEY_Q | GLFW_KEY_E | GLFW_KEY_R | GLFW_KEY_F
| GLFW_KEY_UNKNOWN.

Inductive glfw_action := GLFW_RELEASE | GLFW_PRESS | GLFW_REPEAT.

#[global] Instance glfw_key_eq_dec : EqDecision glfw_key.
Proof. solve_decision. Defined.

#[global] Instance glfw_action_eq_dec : EqDecision glfw_action.
Proof. solve_decision. Defined.

(** [static float camHeight = 3, camDist = -0.5, camAngle = -7, camSlide = 0;] *)
Record camera := mkCamera {
  camHeight : Q;
  camDist : Q;
  camAngle : Q;
  camSlide : Q
}.

Definition camera_start : camera := mkCamera 3 (-0.5) (-7) 0.

(** [keyboard] with all its keys.  [handled] is the result of libkuhl's
    [kuhl_keyboard_handler], which is not part of the sources. *)
Definition keyboard_callback (handled : bool) (k : glfw_key) (action : glfw_action)
    (s : World * camera) : World * camera :=
  if handled then s
  else if bool_decide (action = GLFW_PRESS ∨ action = GLFW_REPEAT) then
    let '(W, c) := s in
    let W := if decide (k = GLFW_KEY_SPACE) then with_shift W (shift W - 0.1)%Q else W in
    let W := if decide (k = GLFW_KEY_B) then with_shift W (shift W + 0.1)%Q else W in
    (* debug keys *)
    let c := if decide (k = GLFW_KEY_S)
             then mkCamera (camHeight c) (camDist c - 0.1)%Q (camAngle c) (camSlide c) else c in
    let c := if decide (k = GLFW_KEY_W)
             then mkCamera (camHeight c) (camDist c + 0.1)%Q (camAngle c) (camSlide c) else c in
    let c := if decide (k = GLFW_KEY_A)
             then mkCamera (camHeight c) (camDist c) (camAngle c) (camSlide c - 0.1)%Q else c in
    let c := if decide (k = GLFW_KEY_D)
             then mkCamera (camHeight c) (camDist c) (camAngle c) (camSlide c + 0.1)%Q else c in
    let c := if decide (k = GLFW_KEY_Q)
             then mkCamera (camHeight c - 0.1)%Q (camDist c) (camAngle c) (camSlide c) else c in
    let c := if decide (k = GLFW_KEY_E)
             then mkCamera (camHeight c + 0.1)%Q (camDist c) (camAngle c) (camSlide c) else c in
    let c := if decide (k = GLFW_KEY_R)
             then mkCamera (camHeight c) (camDist c) (camAngle c - 0.1)%Q (camSlide c) else c in
    let c := if decide (k = GLFW_KEY_F)
             then mkCamera (camHeight c) (camDist c) (camAngle c + 0.1)%Q (camSlide c) else c in
    (W, c)
  else s.

(** The key of the travel model that a callback stands for. *)
Definition travel_key (ev : bool * glfw_key * glfw_action) : key :=
  let '(handled, k, action) := ev in
  if handled then KEY_OTHER
  else match action, k with
       | GLFW_RELEASE, _ => KEY_OTHER
       | _, GLFW_KEY_SPACE => KEY_SPACE
       | _, GLFW_KEY_B => KEY_B
       | _, _ => KEY_OTHER
       end.

(** ** Drawing: lines 1026 and 1049-1083 of [display] *)

(** [mat4f_lookat_new(viewMat, camSlide, camHeight, shift+camDist, 0, 0,
    camAngle+shift, 0, 1, 0)]: the eye and the point it looks at. *)
Definition lookat_eye (W : World) (c : camera) : Q * Q * Q :=
  (camSlide c, camHeight c, shift W + camDist c)%Q.
Definition lookat_center (W : World) (c : camera) : Q * Q * Q :=
  (0, 0, camAngle c + shift W)%Q.

(** One [kuhl_geometry_draw] call, with the translation that
    [mat4f_translate_new] put into the model matrix before it. *)
Inductive draw_call := Draw (translate : Q * Q * Q) (geom : kuhl_geometry).

Definition drawn_geom (d : draw_call) : kuhl_geometry :=
  match d with Draw _ g => g end.

(** [mat4f_translate_new(transMat, i-4.8, 0, -j+shiftBreak)] *)
Definition cell_translate (W : World) (i j : Z) : Q * Q * Q :=
  (inject_Z i - 4.8, 0, - inject_Z j + inject_Z (shiftBreak W))%Q.

(** [mat4f_translate_new(transMat, -5, 0, -9.8+shiftBreak)] *)
Definition roads_translate (W : World) : Q * Q * Q :=
  (-5, 0, -9.8 + inject_Z (shiftBreak W))%Q.

(** The body of the two drawing loops, lines 1063-1080. *)
Definition draw_cell (W : World) (i j : Z) : list draw_call :=
  [Draw (cell_translate W i j) (building W i j);
   Draw (cell_translate W i j) (windows W i j)] ++
  (if Qeq_bool (isComplex W i j) 1
   then [Draw (cell_translate W i j) (buildingTop W i j);
         Draw (cell_translate W i j) (windowsTop W i j)]
   else []).

(** "draw geometry": the ground, then the hundred cells. *)
Definition draw_geometry (roads : textured_geometry) (W : World) : list draw_call :=
  Draw (roads_translate W) (tg_geom roads) ::
  concat ((fun i => concat ((fun j => draw_cell W i j) <$> seqZ 0 10)) <$> seqZ 0 10).

(** [display] with its draw calls: every viewport checks the rows and then
    draws. *)
Definition display_draws (num_viewports : Z) (roads : textured_geometry)
    (W : World) : res (World * list draw_call) :=
  for_up 0 num_viewports
    (fun viewportID '(W, calls) =>
       res_bind (load_row W) (fun W => Ok (W, calls ++ draw_geometry roads W)))
    (W, []).

(** [main] from [init_buildings()] to the main loop (lines 1119-1122):
    the buildings, then the ground. *)
Definition main_init (prog texId : Z) : res (World * textured_geometry) :=
  res_bind (init_buildings (world_start prog)) (fun W =>
  match init_geometryRoads (program W) texId (genv W) with
  | Ok (roads, e) => Ok (with_env W e, roads)
  | Err f => Err f
  end).


(** ** The program in binary floating point

    The definitions above compute with exact rationals.  [Rounded] has the
    arithmetic of the compiled program: a [float] is an IEEE-754 binary32
    value and a [double] a binary64 value, each modelled by the rational it
    denotes; an operation on two [float]s is the exact operation followed by
    rounding to binary32; a decimal literal is the nearest [double]; an
    operation with one [double] operand is carried out in binary64; storing
    into a [float] rounds to binary32 (round to nearest, ties to even;
    [FLT_EVAL_METHOD] 0, no fused operations).  Infinities and NaN are not
    modelled: no quantity of the program comes near the largest finite
    value.  The stores, the buffers, the OpenGL objects and the random
    stream are those of the definitions above. *)

Module Rounded.
Local Open Scope Q_scope.

(** The exponent of the binade of [x]: [2 ^ Qlog2 x <= |x| < 2 ^ (Qlog2 x + 1)]
    for [x] other than zero. *)
Definition Qlog2 (x : Q) : Z :=
  let k := (Z.log2 (Z.abs (Qnum x)) - Z.log2 (Zpos (Qden x)))%Z in
  if Qle_bool (2 ^ k) (Qabs x) then k else (k - 1)%Z.

(** The nearest integer, a tie going to the even one. *)
Definition Qrne (y : Q) : Z :=
  let f := Qfloor y in
  match Qcompare (y - inject_Z f) (1 # 2) with
  | Lt => f
  | Gt => (f + 1)%Z
  | Eq => if Z.even f then f else (f + 1)%Z
  end.

(** The exponent of the last place of [x] in a format of [prec] significant
    bits whose least exponent is [emin]. *)
Definition ulp_exp (prec emin : Z) (x : Q) : Z := Z.max (Qlog2 x - prec + 1) emin.

(** Rounding to the nearest value with [prec] significant bits and an
    exponent of at least [emin], ties to even. *)
Definition round (prec emin : Z) (x : Q) : Q :=
  let e := ulp_exp prec emin x in
  Qred (inject_Z (Qrne (x / 2 ^ e)) * 2 ^ e).

(** [(float) x] and [(double) x]. *)
Definition f32 : Q -> Q := round 24 (-149).
Definition f64 : Q -> Q := round 53 (-1074).

(** A decimal literal of the source. *)
Definition lit (q : Q) : Q := f64 q.

(** [(float) n] for an [int] [n]. *)
Definition of_int (n : Z) : Q := f32 (inject_Z n).

(** The four operations on two [float]s, and addition and subtraction on
    two [double]s. *)
Definition fadd (a b : Q) : Q := f32 (a + b).
Definition fsub (a b : Q) : Q := f32 (a - b).
Definition fmul (a b : Q) : Q := f32 (a * b).
Definition fdiv (a b : Q) : Q := f32 (a / b).
Definition dadd (a b : Q) : Q := f64 (a + b).
Definition dsub (a b : Q) : Q := f64 (a - b).

#[local] Infix "+f" := fadd (at level 50, left associativity).
#[local] Infix "-f" := fsub (at level 50, left associativity).
#[local] Infix "*f" := fmul (at level 40, left associativity).
#[local] Infix "/f" := fdiv (at level 40, left associativity).

(** [randomRange], lines 146-151: [drand48()] returns a [double] and is
    stored in a [float]. *)
Definition randomRange (start end_ : Q) : M Q :=
  n ← drand48;
  let n := f32 n in
  let n := n *f (end_ -f start) in
  let n := n +f start in
  mret n.

(** [for (float x = x0; x < bound; x += step) body(x)].  A counter that
    gains less than half its step in one round has stopped moving, and the
    loop would not end; the fuel is twice the number of rounds that exact
    steps would take, and [OutOfFuel] stands for the loop that does not
    end. *)
Fixpoint for_float_fuel {S} (fuel : nat) (bound step : Q)
    (body : Q -> S -> M S) (x : Q) (s : S) : M S :=
  if Qlt_le_dec x bound then
    match fuel with
    | O => raise OutOfFuel
    | Datatypes.S fuel' =>
        s' ← body x s;
        for_float_fuel fuel' bound step body (x +f step) s'
    end
  else mret s.

Definition loop_fuel (x0 bound step : Q) : nat :=
  Z.to_nat (2 * Qceiling ((bound - x0) / step) + 2).

Definition for_float {S} (x0 bound step : Q) (body : Q -> S -> M S) (s : S) : M S :=
  for_float_fuel (loop_fuel x0 bound step) bound step body x0 s.

(** The body shared by the six window loops. *)
Definition window_quad (verts norms : list Q) (b : wbufs) : M wbufs :=
  vp ← lift_res (store_list (wVertexPositions b) (n1 b) verts);
  nd ← lift_res (store_list (wNormalData b) (n1 b) norms);
  lit ← randomRange 0 1;
  let cv := if Qlt_le_dec 0.5 lit then (0.5, 0.5, 0) else (0, 0, 0) in
  let '(cv0, cv1, cv2) := cv in
  cd ← lift_res (store_list (wColorData b) (n1 b)
                   [cv0; cv1; cv2; cv0; cv1; cv2; cv0; cv1; cv2; cv0; cv1; cv2]);
  let n1' := (n1 b + 12)%Z in
  ix ← lift_res (store_list (wIndexData b) (n2 b)
                   [n3 b + 0; n3 b + 1; n3 b + 2; n3 b + 1; n3 b + 2; n3 b + 3]%Z);
  mret (mkW vp nd cd ix n1' (n2 b + 6)%Z (n3 b + 4)%Z).

(** [for (float i = (w/2)-(hw*(ws+wp)/2)+(wp/2); i < w-ws; i += ws+wp)
      for (float j = wp; j < h-ws; j += ws+wp) { ... }] *)
Definition window_face (ws wp w h : Q) (hw : Z)
    (verts : Q -> Q -> list Q) (norms : list Q) (b : wbufs) : M wbufs :=
  for_float (w /f 2 -f of_int hw *f (ws +f wp) /f 2 +f wp /f 2) (w -f ws) (ws +f wp)
    (fun i b =>
       for_float wp (h -f ws) (ws +f wp)
         (fun j b => window_quad (verts i j) norms b) b)
    b.

(** Lines 284-295, 353-364 and 422-433: the base tier's window corners. *)
Definition verts_front (ws wo sh : Q) (i j : Q) : list Q :=
  [i; sh +f j; wo;  i +f ws; sh +f j; wo;  i; sh +f j +f ws; wo;  i +f ws; sh +f j +f ws; wo].
Definition verts_left (ws wo sh : Q) (i j : Q) : list Q :=
  [- wo; sh +f j; - i;  - wo; sh +f j; - i -f ws;
   - wo; sh +f j +f ws; - i;  - wo; sh +f j +f ws; - i -f ws].
Definition verts_right (ws wo sh w : Q) (i j : Q) : list Q :=
  [w +f wo; sh +f j; - i;  w +f wo; sh +f j; - i -f ws;
   w +f wo; sh +f j +f ws; - i;  w +f wo; sh +f j +f ws; - i -f ws].

(** Lines 608-619, 677-688 and 746-757: the second tier's window corners. *)
Definition verts_front_top (ws wo sh fud : Q) (i j : Q) : list Q :=
  [fud +f i; sh +f j; - fud +f wo;  fud +f i +f ws; sh +f j; - fud +f wo;
   fud +f i; sh +f j +f ws; - fud +f wo;  fud +f i +f ws; sh +f j +f ws; - fud +f wo].
Definition verts_left_top (ws wo sh fud : Q) (i j : Q) : list Q :=
  [fud -f wo; sh +f j; - fud -f i;  fud -f wo; sh +f j; - fud -f i -f ws;
   fud -f wo; sh +f j +f ws; - fud -f i;  fud -f wo; sh +f j +f ws; - fud -f i -f ws].
Definition verts_right_top (ws wo sh fud w : Q) (i j : Q) : list Q :=
  [fud +f w +f wo; sh +f j; - fud -f i;  fud +f w +f wo; sh +f j; - fud -f i -f ws;
   fud +f w +f wo; sh +f j +f ws; - fud -f i;  fud +f w +f wo; sh +f j +f ws; - fud -f i -f ws].

(** Lines 186-203: the open box (front, left, right, roof). *)
Definition shell_vertexPositions (sh w h : Q) : list Q :=
  [0; sh +f 0; 0;   w; sh +f 0; 0;   0; sh +f h; 0;   w; sh +f h; 0;
   0; sh +f 0; 0;   0; sh +f 0; - w;   0; sh +f h; 0;   0; sh +f h; - w;
   w; sh +f 0; 0;   w; sh +f 0; - w;   w; sh +f h; 0;   w; sh +f h; - w;
   0; sh +f h; 0;   w; sh +f h; 0;   0; sh +f h; - w;   w; sh +f h; - w].

(** Lines 510-527: the second tier's box, inset by [fud]. *)
Definition top_vertexPositions (fud sh w h : Q) : list Q :=
  [fud +f 0; sh +f 0; - fud +f 0;   fud +f w; sh +f 0; - fud +f 0;
   fud +f 0; sh +f h; - fud +f 0;   fud +f w; sh +f h; - fud +f 0;
   fud +f 0; sh +f 0; - fud +f 0;   fud +f 0; sh +f 0; - fud +f - w;
   fud +f 0; sh +f h; - fud +f 0;   fud +f 0; sh +f h; - fud +f - w;
   fud +f w; sh +f 0; - fud +f 0;   fud +f w; sh +f 0; - fud +f - w;
   fud +f w; sh +f h; - fud +f 0;   fud +f w; sh +f h; - fud +f - w;
   fud +f 0; sh +f h; - fud +f 0;   fud +f w; sh +f h; - fud +f 0;
   fud +f 0; sh +f h; - fud +f - w;   fud +f w; sh +f h; - fud +f - w].

(** The three window loops of one tier: the front wall, the left wall, the
    right wall. *)
Definition window_faces (ws wp w h : Q) (hw : Z)
    (vfront vleft vright : Q -> Q -> list Q) (b : wbufs) : M wbufs :=
  b ← window_face ws wp w h hw vfront norms_front b;
  b ← window_face ws wp w h hw vleft norms_side b;
  window_face ws wp w h hw vright norms_side b.

(** "Draw windows" (lines 265-490 and 589-814): [floor] takes the [float]
    quotient as a [double]. *)
Definition draw_windows (prog : Z) (ws wp w h : Q)
    (vfront vleft vright : Q -> Q -> list Q) : M kuhl_geometry :=
  let hw := Qfloor (w /f (ws +f wp)) in   (* horizontal windows *)
  let vw := Qfloor (h /f (ws +f wp)) in   (* vertical windows *)
  let tw := (hw * vw)%Z in                (* total windows *)
  windows ← kuhl_geometry_new prog (tw * 4 * 3);
  b ← window_faces ws wp w h hw vfront vleft vright (wbufs_new tw);
  windows_upload windows tw b.

(** Lines 499-504: [w+0.15] is a [double] sum, compared as a [double] and
    rounded when it is stored in [w]. *)
Definition top_dimensions (ws wp oldW : Q) : M (Q * Q * Q) :=
  w ← randomRange (ws +f wp) oldW;
  let w := if Qlt_le_dec (dadd w (lit 0.15)) oldW then f32 (dadd w (lit 0.15)) else w in
  h ← randomRange (f32 (lit 0.5)) (f32 (lit 1.5));
  fud ← randomRange 0 ((oldW -f w) /f 2);
  mret (w, h, fud).

(** [init_geometryBuilding], lines 167-818. *)
Definition init_geometryBuilding
    (building windows buildingTop windowsTop : kuhl_geometry)
    (prog : Z) (seed : Z)
  : M (kuhl_geometry * kuhl_geometry * kuhl_geometry * kuhl_geometry * Z) :=
  (* seed random *)
  srand48 seed;;
  (* get dimensions *)
  w ← randomRange (f32 (lit 0.4)) (f32 (lit 0.8));
  h ← randomRange (f32 (lit 0.8)) (f32 (lit 2.2));
  let bc := f32 (lit 0.6) in
  let sh := 0 in
  let ws := f32 (lit 0.13) in
  let wp := f32 (lit 0.02) in
  let wo := f32 (lit 0.001) in
  (* main building *)
  building ← shell_upload prog (shell_vertexPositions sh w h) bc;
  (* windows *)
  windows ← draw_windows prog ws wp w h
              (verts_front ws wo sh) (verts_left ws wo sh) (verts_right ws wo sh w);
  r ← randomRange 0 1;
  if Qlt_le_dec 0.5 r then
    let isComplex := 1%Z in
    (* get dimensions *)
    let sh := h in
    let oldW := w in
    '(w, h, fud) ← top_dimensions ws wp oldW;
    buildingTop ← shell_upload prog (top_vertexPositions fud sh w h) bc;
    windowsTop ← draw_windows prog ws wp w h
                   (verts_front_top ws wo sh fud) (verts_left_top ws wo sh fud)
                   (verts_right_top ws wo sh fud w);
    mret (building, windows, buildingTop, windowsTop, isComplex)
  else
    mret (building, windows, buildingTop, windowsTop, 0%Z).

(** [keyboard], lines 949-996: [shift -= 0.1] and [shift += 0.1] are
    [double] operations whose result is stored in the [float] [shift]. *)
Definition keyboard (k : key) (W : World) : World :=
  match k with
  | KEY_SPACE => with_shift W (f32 (dsub (shift W) (lit 0.1)))
  | KEY_B => with_shift W (f32 (dadd (shift W) (lit 0.1)))
  | KEY_OTHER => W
  end.

(** One turn of the main loop and the main loop, with these key
    callbacks. *)
Definition frame (num_viewports : Z) (keys : list key) (W : World) : res World :=
  res_bind (display num_viewports W) (fun W => Ok (foldl (fun W k => keyboard k W) W keys)).

Fixpoint main_loop (num_viewports : Z) (turns : list (list key)) (W : World) : res World :=
  match turns with
  | [] => Ok W
  | keys :: turns' => res_bind (frame num_viewports keys W) (main_loop num_viewports turns')
  end.

End Rounded.

(** * Verification *)

(** ** Total-correctness triples for [M] *)

Definition hoare {A} (P : env -> Prop) (c : M A) (R : A -> env -> Prop) : Prop :=
  forall e, P e -> exists a e', c e = Ok (a, e') /\ R a e'.

Lemma hoare_ret {A} (P : env -> Prop) (a : A) (R : A -> env -> Prop) :
  (forall e, P e -> R a e) -> hoare P (mret a) R.
Proof. intros H e HP. exists a, e. split; [reflexivity | auto]. Qed.

Lemma hoare_bind {A B} (P : env -> Prop) (c : M A) (Mid : A -> env -> Prop)
    (k : A -> M B) (R : B -> env -> Prop) :
  hoare P c Mid ->
  (forall a, hoare (Mid a) (k a) R) ->
  hoare P (c ≫= k) R.
Proof.
  intros Hc Hk e HP.
  destruct (Hc e HP) as (a & e1 & Hrun & Hmid).
  destruct (Hk a e1 Hmid) as (b & e2 & Hrun2 & HR).
  exists b, e2. split; [| exact HR].
  unfold mbind, M_bind. rewrite Hrun. exact Hrun2.
Qed.

Lemma hoare_conseq {A} (P P' : env -> Prop) (c : M A) (R R' : A -> env -> Prop) :
  hoare P' c R' ->
  (forall e, P e -> P' e) ->
  (forall a e, R' a e -> R a e) ->
  hoare P c R.
Proof.
  intros Hc HP HR e He.
  destruct (Hc e (HP e He)) as (a & e' & Hrun & Hpost).
  exists a, e'. auto.
Qed.

Lemma hoare_lift_res {A} (P : env -> Prop) (r : res A) (a : A) (R : A -> env -> Prop) :
  r = Ok a -> (forall e, P e -> R a e) -> hoare P (lift_res r) R.
Proof.
  intros -> H e HP. exists a, e. split; [reflexivity | auto].
Qed.

(** The part of the environment that the window loops leave alone. *)
Definition gl_part (e : env) : Z * gset Z * list event :=
  (gl_next e, gl_live e, trace e).

(** ** The random stream stays in [0, 1) *)

Lemma rand48_next_range X : 0 <= rand48_next X < rand48_m.
Proof. unfold rand48_next. apply Z.mod_pos_bound. reflexivity. Qed.

Lemma rand48_value_range X :
  0 <= X < rand48_m -> (0 <= rand48_value X)%Q /\ (rand48_value X < 1)%Q.
Proof.
  intros [H0 H1]. unfold rand48_value, Qle, Qlt. cbn [Qnum Qden].
  rewrite Z2Pos.id by reflexivity. lia.
Qed.

Lemma drand48_spec (e0 : env) :
  hoare (fun e => e = e0) drand48
    (fun n e' => (0 <= n)%Q /\ (n < 1)%Q /\ gl_part e' = gl_part e0).
Proof.
  intros e ->. unfold drand48. eexists _, _. split; [reflexivity |].
  pose proof (rand48_value_range _ (rand48_next_range (rng e0))) as [H0 H1].
  auto.
Qed.

Lemma randomRange_spec (start end_ : Q) (e0 : env) :
  (start <= end_)%Q ->
  hoare (fun e => e = e0) (randomRange start end_)
    (fun n e' => (start <= n)%Q /\ (n <= end_)%Q /\
                 ((start < end_)%Q -> (n < end_)%Q) /\ gl_part e' = gl_part e0).
Proof.
  intros Hle. unfold randomRange.
  eapply hoare_bind; [apply drand48_spec |].
  intros n. apply hoare_ret. intros e (H0 & H1 & Hgl).
  repeat split; try nra. exact Hgl.
Qed.

(** ** Checked stores *)

Lemma store_spec {T} (a : carray T) (k : Z) (v : T) :
  0 <= k < capacity a ->
  store a k v = Ok (mkArray (capacity a) (<[k := v]> (cells a))).
Proof. intros H. unfold store. rewrite bool_decide_eq_true_2; auto. Qed.

Lemma store_list_spec {T} (vs : list T) : forall (a : carray T) (base : Z),
  0 <= base ->
  base + Z.of_nat (length vs) <= capacity a ->
  exists a', store_list a base vs = Ok a' /\
             capacity a' = capacity a /\
             (forall k, k < base \/ base + Z.of_nat (length vs) <= k ->
                        cells a' !! k = cells a !! k) /\
             (forall c : nat, (c < length vs)%nat ->
                        cells a' !! (base + Z.of_nat c) = vs !! c).
Proof.
  induction vs as [| v vs IH]; intros a base H0 Hcap.
  - exists a. simpl. repeat split; auto. intros c Hc. simpl in Hc. lia.
  - simpl in Hcap. simpl. rewrite store_spec by lia. simpl.
    destruct (IH (mkArray (capacity a) (<[base := v]> (cells a))) (base + 1))
      as (a' & Hrun & Hc & Hout & Hin); [lia | simpl; lia |].
    exists a'. split; [exact Hrun |]. split; [exact Hc |]. split.
    + intros k Hk. rewrite Hout by lia. simpl.
      apply lookup_insert_ne. lia.
    + intros [| c] Hlt.
      * simpl. rewrite Hout by lia. simpl.
        replace (base + Z.of_nat 0) with base by lia. apply lookup_insert_eq.
      * simpl in Hlt. simpl (_ !! S c).
        replace (base + Z.of_nat (S c)) with (base + 1 + Z.of_nat c) by lia.
        apply Hin. lia.
Qed.

Lemma store_list_nil_any {T} (a : carray T) (base : Z) :
  store_list a base [] = Ok a.
Proof. reflexivity. Qed.

(** ** Loops over a real-valued counter terminate within their fuel *)

Lemma loop_fuel_enough (x0 bound step : Q) :
  (0 < step)%Q ->
  (bound <= x0 + inject_Z (Z.of_nat (loop_fuel x0 bound step)) * step)%Q.
Proof.
  intros Hstep. unfold loop_fuel.
  set (c := Qceiling ((bound - x0) / step)).
  assert (Hc : ((bound - x0) / step <= inject_Z c)%Q) by apply Qle_ceiling.
  assert (Hn : (inject_Z c <= inject_Z (Z.of_nat (Z.to_nat c)))%Q).
  { rewrite <- Zle_Qle. lia. }
  assert (Hm : ((bound - x0) / step * step == bound - x0)%Q).
  { field. intros Heq. rewrite Heq in Hstep. apply (Qlt_irrefl 0). exact Hstep. }
  assert (Hk : ((bound - x0) / step * step <=
                inject_Z (Z.of_nat (Z.to_nat c)) * step)%Q).
  { apply Qmult_le_compat_r; [| apply Qlt_le_weak; exact Hstep].
    eapply Qle_trans; eauto. }
  rewrite Hm in Hk. lra.
Qed.

Lemma hoare_for_float_fuel {S} (Inv : Q -> S -> env -> Prop)
    (bound step : Q) (body : Q -> S -> M S) :
  (forall x s, hoare (fun e => Inv x s e /\ (x < bound)%Q) (body x s)
                     (fun s' e' => Inv (x + step)%Q s' e')) ->
  forall (fuel : nat) (x : Q) (s : S),
    (bound <= x + inject_Z (Z.of_nat fuel) * step)%Q ->
    hoare (Inv x s) (for_float_fuel fuel bound step body x s)
          (fun s' e' => exists x', Inv x' s' e' /\ (bound <= x')%Q).
Proof.
  intros Hbody. induction fuel as [| fuel IH]; intros x s Hfuel e HInv.
  - simpl. destruct (Qlt_le_dec x bound) as [Hlt | Hge].
    + exfalso. change (inject_Z (Z.of_nat 0)) with 0%Q in Hfuel. lra.
    + exists s, e. split; [reflexivity |]. exists x. auto.
  - simpl. destruct (Qlt_le_dec x bound) as [Hlt | Hge].
    + destruct (Hbody x s e (conj HInv Hlt)) as (s1 & e1 & Hrun & HInv1).
      assert (Hfuel' : (bound <= x + step + inject_Z (Z.of_nat fuel) * step)%Q).
      { rewrite Nat2Z.inj_succ in Hfuel. unfold Z.succ in Hfuel.
        rewrite inject_Z_plus in Hfuel. change (inject_Z 1) with 1%Q in Hfuel.
        lra. }
      destruct (IH (x + step)%Q s1 Hfuel' e1 HInv1) as (s2 & e2 & Hrun2 & Hpost).
      exists s2, e2. split; [| exact Hpost].
      unfold mbind, M_bind. rewrite Hrun. exact Hrun2.
    + exists s, e. split; [reflexivity |]. exists x. auto.
Qed.

Lemma hoare_for_float {S} (Inv : Q -> S -> env -> Prop)
    (x0 bound step : Q) (body : Q -> S -> M S) (s : S) :
  (0 < step)%Q ->
  (forall x s, hoare (fun e => Inv x s e /\ (x < bound)%Q) (body x s)
                     (fun s' e' => Inv (x + step)%Q s' e')) ->
  hoare (Inv x0 s) (for_float x0 bound step body s)
        (fun s' e' => exists x', Inv x' s' e' /\ (bound <= x')%Q).
Proof.
  intros Hstep Hbody. unfold for_float.
  apply hoare_for_float_fuel; [exact Hbody |].
  apply loop_fuel_enough. exact Hstep.
Qed.

Lemma hoare_bind_res {A B} (P : env -> Prop) (r : res A) (a : A)
    (k : A -> M B) (R : B -> env -> Prop) :
  r = Ok a -> hoare P (k a) R -> hoare P (lift_res r ≫= k) R.
Proof.
  intros -> Hk e He. destruct (Hk e He) as (b & e' & Hrun & HR).
  exists b, e'. split; [exact Hrun | exact HR].
Qed.

(** A draw from the stream inside a computation that only watches the
    OpenGL part of the environment. *)
Lemma hoare_bind_random {B} (G : Z * gset Z * list event) (start end_ : Q)
    (k : Q -> M B) (R : B -> env -> Prop) :
  (start <= end_)%Q ->
  (forall n, (start <= n)%Q -> (n <= end_)%Q -> ((start < end_)%Q -> (n < end_)%Q) ->
             hoare (fun e => gl_part e = G) (k n) R) ->
  hoare (fun e => gl_part e = G) (randomRange start end_ ≫= k) R.
Proof.
  intros Hle Hk e He.
  destruct (randomRange_spec start end_ e Hle e eq_refl)
    as (n & e1 & Hrun & H0 & H1 & H2 & Hgl).
  destruct (Hk n H0 H1 H2 e1) as (b & e2 & Hrun2 & HR); [congruence |].
  exists b, e2. split; [| exact HR].
  unfold mbind, M_bind. rewrite Hrun. exact Hrun2.
Qed.

(** ** The window pass: cursors, capacities and written vertices *)

(** [q] windows have been written: the cursors stand behind them and the
    buffers have the sizes that [tw] gave them. *)
Definition wb_inv (tw q : Z) (b : wbufs) : Prop :=
  0 <= q /\
  n1 b = 12 * q /\ n2 b = 6 * q /\ n3 b = 4 * q /\
  capacity (wVertexPositions b) = tw * 4 * 3 * 3 /\
  capacity (wNormalData b) = tw * 4 * 3 * 3 /\
  capacity (wColorData b) = tw * 4 * 3 * 3 /\
  capacity (wIndexData b) = Z.quot (tw * 4 * 3 * 3) 2.

(** Vertex number [v] of a position buffer, if its three coordinates have
    been written. *)
Definition vertex_at (a : gmap Z Q) (v : Z) : option (Q * Q * Q) :=
  match a !! (3 * v), a !! (3 * v + 1), a !! (3 * v + 2) with
  | Some x, Some y, Some z => Some (x, y, z)
  | _, _, _ => None
  end.

(** The first [4 * q] vertices are written and satisfy [P]; nothing else is
    written. *)
Definition verts_inv (P : Q * Q * Q -> Prop) (q : Z) (b : wbufs) : Prop :=
  (forall v, 0 <= v < 4 * q ->
     exists p, vertex_at (cells (wVertexPositions b)) v = Some p /\ P p) /\
  (forall k, k < 0 \/ 12 * q <= k -> cells (wVertexPositions b) !! k = None).

Fixpoint triples (l : list Q) : list (Q * Q * Q) :=
  match l with
  | x :: y :: z :: l' => (x, y, z) :: triples l'
  | _ => []
  end.

Definition quad_ok (P : Q * Q * Q -> Prop) (vs : list Q) : Prop :=
  length vs = 12%nat /\ Forall P (triples vs).

Lemma quot_capacity (tw : Z) : Z.quot (tw * 4 * 3 * 3) 2 = 18 * tw.
Proof.
  replace (tw * 4 * 3 * 3) with (18 * tw * 2) by ring.
  apply Z.quot_mul. discriminate.
Qed.

Lemma wb_inv_new (tw : Z) : wb_inv tw 0 (wbufs_new tw).
Proof. unfold wb_inv, wbufs_new. simpl. repeat split; lia. Qed.

Lemma verts_inv_new (P : Q * Q * Q -> Prop) (tw : Z) : verts_inv P 0 (wbufs_new tw).
Proof.
  split.
  - intros v Hv. lia.
  - intros k _. reflexivity.
Qed.

Lemma quad_ok_vertex (P : Q * Q * Q -> Prop) (vs : list Q) (t : nat) :
  quad_ok P vs -> (t < 4)%nat ->
  exists x y z, vs !! (3 * t)%nat = Some x /\ vs !! (3 * t + 1)%nat = Some y /\
                vs !! (3 * t + 2)%nat = Some z /\ P (x, y, z).
Proof.
  intros [Hlen HP] Ht.
  do 13 (destruct vs as [| ? vs]; try discriminate Hlen).
  simpl in HP.
  repeat match goal with H : Forall _ (_ :: _) |- _ =>
    apply Forall_cons in H; destruct H end.
  destruct t as [| [| [| [| t]]]]; [| | | | lia]; simpl; eauto 10.
Qed.

Lemma window_quad_spec (P : Q * Q * Q -> Prop) (tw q : Z)
    (verts norms : list Q) (b : wbufs) (G : Z * gset Z * list event) :
  wb_inv tw q b -> verts_inv P q b -> q + 1 <= 3 * tw ->
  quad_ok P verts -> length norms = 12%nat ->
  hoare (fun e => gl_part e = G) (window_quad verts norms b)
        (fun b' e' => gl_part e' = G /\ wb_inv tw (q + 1) b' /\ verts_inv P (q + 1) b').
Proof.
  intros (Hq & Hn1 & Hn2 & Hn3 & Hc1 & Hc2 & Hc3 & Hc4) [Hv Hnone] Hroom Hquad Hnorms.
  pose proof Hquad as [Hlen _].
  unfold window_quad.
  destruct (store_list_spec verts (wVertexPositions b) (n1 b))
    as (vp & Hvp & Hvpc & Hvpout & Hvpin); [lia | rewrite Hlen; lia |].
  destruct (store_list_spec norms (wNormalData b) (n1 b))
    as (nd & Hnd & Hndc & _ & _); [lia | rewrite Hnorms; lia |].
  eapply hoare_bind_res; [exact Hvp |].
  eapply hoare_bind_res; [exact Hnd |].
  apply hoare_bind_random; [lra |]. intros lit _ _ _.
  set (cv := if Qlt_le_dec 0.5 lit then (0.5%Q, 0.5%Q, 0%Q) else (0%Q, 0%Q, 0%Q)).
  clearbody cv. destruct cv as [[cv0 cv1] cv2].
  set (cl := [cv0; cv1; cv2; cv0; cv1; cv2; cv0; cv1; cv2; cv0; cv1; cv2]).
  destruct (store_list_spec cl (wColorData b) (n1 b))
    as (cd & Hcd & Hcdc & _ & _); [lia | simpl; lia |].
  set (il := [n3 b + 0; n3 b + 1; n3 b + 2; n3 b + 1; n3 b + 2; n3 b + 3]).
  destruct (store_list_spec il (wIndexData b) (n2 b))
    as (ix & Hix & Hixc & _ & _); [lia | simpl; rewrite Hc4, quot_capacity; lia |].
  eapply hoare_bind_res; [exact Hcd |].
  eapply hoare_bind_res; [exact Hix |].
  apply hoare_ret. intros e He.
  split; [exact He |]. split.
  - unfold wb_inv. simpl. repeat split; try lia; congruence.
  - split; simpl.
    + intros v Hvr.
      destruct (Z_lt_le_dec v (4 * q)) as [Hold | Hnew].
      * destruct (Hv v) as (p & Hp & HPp); [lia |].
        exists p. split; [| exact HPp].
        unfold vertex_at in *. rewrite !Hvpout by lia. exact Hp.
      * set (t := Z.to_nat (v - 4 * q)).
        destruct (quad_ok_vertex P verts t Hquad) as (x & y & z & Hx & Hy & Hz & HP);
          [lia |].
        exists (x, y, z). split; [| exact HP].
        unfold vertex_at.
        replace (3 * v) with (n1 b + Z.of_nat (3 * t)) by lia.
        replace (n1 b + Z.of_nat (3 * t) + 1) with (n1 b + Z.of_nat (3 * t + 1)) by lia.
        replace (n1 b + Z.of_nat (3 * t) + 2) with (n1 b + Z.of_nat (3 * t + 2)) by lia.
        rewrite !Hvpin by lia. rewrite Hx, Hy, Hz. reflexivity.
    + intros k Hk. rewrite Hvpout by lia. apply Hnone. lia.
Qed.

(** ** Iteration counts of the window loops

    With [ws = 0.13] and [wp = 0.02] the vertical loop makes at most
    [vw = floor (h / (ws + wp))] steps and the horizontal loop at most
    [hw = floor (w / (ws + wp))]. *)

Lemma floor_step_bounds (x : Q) :
  let f := Qfloor (x / (0.13 + 0.02)) in
  (inject_Z f * (0.13 + 0.02) <= x)%Q /\ (x < (inject_Z f + 1) * (0.13 + 0.02))%Q.
Proof.
  intros f.
  pose proof (Qfloor_le (x / (0.13 + 0.02))) as Hlo.
  pose proof (Qlt_floor (x / (0.13 + 0.02))) as Hhi.
  fold f in Hlo, Hhi.
  rewrite inject_Z_plus in Hhi. change (inject_Z 1) with 1%Q in Hhi.
  assert (Hdiv : (x / (0.13 + 0.02) == x * (100 # 15))%Q) by (field; discriminate).
  set (y := (x / (0.13 + 0.02))%Q) in *. clearbody y. clearbody f.
  set (fq := inject_Z f) in *. clearbody fq. split; lra.
Qed.

(** [lra] does not know division: halving becomes a multiplication. *)
Ltac halves := unfold Qdiv in *; change (/ 2)%Q with (1 # 2)%Q in *.

Lemma inject_Z_nonneg (k : Z) : 0 <= k -> (0 <= inject_Z k)%Q.
Proof. intros H. change 0%Q with (inject_Z 0). rewrite <- Zle_Qle. exact H. Qed.

Lemma inject_Z_succ (k : Z) : (inject_Z (k + 1) == inject_Z k + 1)%Q.
Proof. rewrite inject_Z_plus. reflexivity. Qed.

Lemma vertical_steps (h y : Q) (l : Z) :
  (y == 0.02 + inject_Z l * (0.13 + 0.02))%Q ->
  (y < h - 0.13)%Q ->
  l + 1 <= Qfloor (h / (0.13 + 0.02)).
Proof.
  intros Hy Hlt.
  destruct (floor_step_bounds h) as [_ Hhi]. cbv zeta in Hhi.
  set (f := Qfloor (h / (0.13 + 0.02))) in *. clearbody f.
  assert (Hq : (inject_Z (l + 1) < inject_Z (f + 1))%Q).
  { rewrite !inject_Z_succ. lra. }
  rewrite <- Zlt_Qlt in Hq. lia.
Qed.

Lemma horizontal_steps (w x : Q) (k : Z) :
  let hw := Qfloor (w / (0.13 + 0.02)) in
  (x == w / 2 - inject_Z hw * (0.13 + 0.02) / 2 + 0.02 / 2 + inject_Z k * (0.13 + 0.02))%Q ->
  (x < w - 0.13)%Q ->
  k + 1 <= hw.
Proof.
  intros hw Hx Hlt.
  destruct (floor_step_bounds w) as [_ Hhi]. cbv zeta in Hhi. fold hw in Hhi.
  clearbody hw.
  assert (Hq : (inject_Z (k + 1) < inject_Z (hw + 1))%Q).
  { rewrite !inject_Z_succ. halves. lra. }
  rewrite <- Zlt_Qlt in Hq. lia.
Qed.

Lemma horizontal_start (w : Q) :
  let hw := Qfloor (w / (0.13 + 0.02)) in
  (0.01 <= w / 2 - inject_Z hw * (0.13 + 0.02) / 2 + 0.02 / 2)%Q.
Proof.
  intros hw.
  destruct (floor_step_bounds w) as [Hlo _]. cbv zeta in Hlo. fold hw in Hlo.
  clearbody hw. halves. lra.
Qed.

Section WindowFace.

Variable P : Q * Q * Q -> Prop.
Variable G : Z * gset Z * list event.
Variables (w h : Q) (tw : Z).
Variable norms : list Q.
Hypothesis norms_len : length norms = 12%nat.

Let hw := Qfloor (w / (0.13 + 0.02)).
Let vw := Qfloor (h / (0.13 + 0.02)).

(** One column of windows: the inner loop. *)
Lemma window_column_spec (verts : Q -> list Q) (q0 : Z) (b : wbufs) :
  wb_inv tw q0 b -> verts_inv P q0 b ->
  (0 < vw -> q0 + vw <= 3 * tw) ->
  (forall j, (0.02 <= j)%Q -> (j < h - 0.13)%Q -> quad_ok P (verts j)) ->
  hoare (fun e => gl_part e = G)
        (for_float 0.02 (h - 0.13) (0.13 + 0.02)
           (fun j b => window_quad (verts j) norms b) b)
        (fun b' e' => gl_part e' = G /\
           exists q', q0 <= q' <= q0 + Z.max 0 vw /\ wb_inv tw q' b' /\ verts_inv P q' b').
Proof.
  intros Hwb Hvi Hroom Hverts.
  set (Inv := fun (y : Q) (b : wbufs) (e : env) =>
    gl_part e = G /\
    exists l, 0 <= l <= Z.max 0 vw /\ (y == 0.02 + inject_Z l * (0.13 + 0.02))%Q /\
              wb_inv tw (q0 + l) b /\ verts_inv P (q0 + l) b).
  eapply hoare_conseq with (P' := Inv 0.02%Q b).
  - apply (hoare_for_float Inv); [reflexivity |].
    intros y s e [[Hgl (l & Hl & Hy & Hwb' & Hvi')] Hlt].
    pose proof (vertical_steps h y l Hy Hlt) as Hstep. fold vw in Hstep.
    destruct (window_quad_spec P tw (q0 + l) (verts y) norms s G Hwb' Hvi')
      with (e := e) as (s' & e' & Hrun & Hgl' & Hwb'' & Hvi''); auto.
    { lia. }
    { apply Hverts; [| exact Hlt]. rewrite Hy.
      pose proof (inject_Z_nonneg l ltac:(lia)). lra. }
    exists s', e'. split; [exact Hrun |]. split; [exact Hgl' |].
    exists (l + 1). split; [lia |]. split.
    { rewrite Hy, inject_Z_succ. ring. }
    replace (q0 + (l + 1)) with (q0 + l + 1) by ring. auto.
  - intros e He. split; [exact He |]. exists 0. split; [lia |]. split; [reflexivity |].
    replace (q0 + 0) with q0 by ring. auto.
  - intros b' e' (y & [Hgl (l & Hl & _ & Hwb' & Hvi')] & _).
    split; [exact Hgl |]. exists (q0 + l). split; [lia | auto].
Qed.

(** One wall: the outer loop around the inner one. *)
Lemma window_face_spec (verts : Q -> Q -> list Q) (q0 : Z) (b : wbufs) :
  wb_inv tw q0 b -> verts_inv P q0 b ->
  (0 < hw -> 0 < vw -> q0 + hw * vw <= 3 * tw) ->
  (forall i j, (0.01 <= i)%Q -> (i < w - 0.13)%Q -> (0.02 <= j)%Q -> (j < h - 0.13)%Q ->
               quad_ok P (verts i j)) ->
  hoare (fun e => gl_part e = G)
        (window_face 0.13 0.02 w h hw verts norms b)
        (fun b' e' => gl_part e' = G /\
           exists q', q0 <= q' <= q0 + Z.max 0 hw * Z.max 0 vw /\
                      wb_inv tw q' b' /\ verts_inv P q' b').
Proof.
  intros Hwb Hvi Hroom Hverts. unfold window_face.
  set (i0 := (w / 2 - inject_Z hw * (0.13 + 0.02) / 2 + 0.02 / 2)%Q).
  set (Inv := fun (x : Q) (b : wbufs) (e : env) =>
    gl_part e = G /\
    exists k q', 0 <= k <= Z.max 0 hw /\ (x == i0 + inject_Z k * (0.13 + 0.02))%Q /\
                 q0 <= q' <= q0 + k * Z.max 0 vw /\
                 wb_inv tw q' b /\ verts_inv P q' b).
  eapply hoare_conseq with (P' := Inv i0 b).
  - apply (hoare_for_float Inv); [reflexivity |].
    intros x s e [[Hgl (k & q' & Hk & Hx & Hq' & Hwb' & Hvi')] Hlt].
    pose proof (horizontal_steps w x k Hx Hlt) as Hstep. cbv zeta in Hstep. fold hw in Hstep.
    pose proof (horizontal_start w) as Hstart. cbv zeta in Hstart. fold hw i0 in Hstart.
    assert (Hx0 : (0.01 <= x)%Q).
    { rewrite Hx. pose proof (inject_Z_nonneg k ltac:(lia)). lra. }
    destruct (window_column_spec (verts x) q' s Hwb' Hvi') with (e := e)
      as (s' & e' & Hrun & Hgl' & q'' & Hq'' & Hwb'' & Hvi''); auto.
    { intros Hvw. specialize (Hroom ltac:(lia) Hvw). nia. }
    exists s', e'. split; [exact Hrun |]. split; [exact Hgl' |].
    exists (k + 1), q''. split; [lia |]. split.
    { rewrite Hx, inject_Z_succ. ring. }
    split; [nia | auto].
  - intros e He. split; [exact He |]. exists 0, q0. split; [lia |]. split.
    { change (inject_Z 0) with 0%Q. ring. }
    split; [lia | auto].
  - intros b' e' (x & [Hgl (k & q' & Hk & _ & Hq' & Hwb' & Hvi')] & _).
    split; [exact Hgl |]. exists q'. split; [nia | auto].
Qed.

End WindowFace.


(** ** Uploading buffers *)

Lemma array_lit_capacity {T} (vs : list T) :
  capacity (array_lit vs) = Z.of_nat (length vs).
Proof.
  unfold array_lit.
  destruct (store_list_spec vs (array_new (Z.of_nat (length vs))) 0)
    as (a & Hrun & Hcap & _); [lia | simpl; lia |].
  rewrite Hrun. exact Hcap.
Qed.

Lemma read_prefix_ok {T} (a : carray T) (n : Z) :
  n <= capacity a ->
  read_prefix a n = Ok ((fun k => cells a !! k) <$> seqZ 0 n).
Proof. intros H. unfold read_prefix. rewrite bool_decide_eq_true_2; auto. Qed.

Lemma read_prefix_lookup {T} (a : carray T) (n : Z) (k : nat) :
  ((fun k => cells a !! k) <$> seqZ 0 n) !! k =
  if bool_decide (Z.of_nat k < n) then Some (cells a !! Z.of_nat k) else None.
Proof.
  rewrite list_lookup_fmap. case_bool_decide as Hk.
  - rewrite lookup_seqZ_lt by lia. reflexivity.
  - rewrite lookup_seqZ_ge by lia. reflexivity.
Qed.

Lemma array_lit_cells {T} (vs : list T) (c : nat) :
  (c < length vs)%nat -> cells (array_lit vs) !! Z.of_nat c = vs !! c.
Proof.
  intros Hc. unfold array_lit.
  destruct (store_list_spec vs (array_new (Z.of_nat (length vs))) 0)
    as (a & Hrun & _ & _ & Hin); [lia | simpl; lia |].
  rewrite Hrun. rewrite <- (Hin c Hc). f_equal.
Qed.

Lemma array_lit_read {T} (vs : list T) (n : Z) :
  n = Z.of_nat (length vs) ->
  (fun k => cells (array_lit vs) !! k) <$> seqZ 0 n = Some <$> vs.
Proof.
  intros ->. apply list_eq. intros k.
  rewrite read_prefix_lookup, list_lookup_fmap.
  case_bool_decide as Hk.
  - rewrite array_lit_cells by lia.
    destruct (lookup_lt_is_Some_2 vs k) as [x Hx]; [lia |]. rewrite Hx. reflexivity.
  - rewrite lookup_ge_None_2 by lia. reflexivity.
Qed.

(** Vertex number [v] of an uploaded position attribute. *)
Definition geom_vertex (g : kuhl_geometry) (v : nat) : option (Q * Q * Q) :=
  match positions g !! (3 * v)%nat, positions g !! (3 * v + 1)%nat,
        positions g !! (3 * v + 2)%nat with
  | Some (Some x), Some (Some y), Some (Some z) => Some (x, y, z)
  | _, _, _ => None
  end.

Lemma kuhl_geometry_attrib_spec (P : env -> Prop) (geom : kuhl_geometry)
    (data : carray Q) (components : Z) (name : attrib_name) :
  vertex_count geom * components <= capacity data ->
  hoare P (kuhl_geometry_attrib geom data components name)
    (fun g e' => P e' /\
       g = set_attrib geom name
             ((fun k => cells data !! k) <$> seqZ 0 (vertex_count geom * components))).
Proof.
  intros Hcap e He. unfold kuhl_geometry_attrib.
  eexists _, e. split; [| split; [exact He | reflexivity]].
  unfold mbind, M_bind, lift_res. rewrite read_prefix_ok by exact Hcap. reflexivity.
Qed.

Lemma kuhl_geometry_indices_spec (P : env -> Prop) (geom : kuhl_geometry)
    (data : carray Z) (indexCount : Z) :
  indexCount <= capacity data ->
  hoare P (kuhl_geometry_indices geom data indexCount)
    (fun g e' => P e' /\
       g = set_indices geom ((fun k => cells data !! k) <$> seqZ 0 indexCount)).
Proof.
  intros Hcap e He. unfold kuhl_geometry_indices.
  eexists _, e. split; [| split; [exact He | reflexivity]].
  unfold mbind, M_bind, lift_res. rewrite read_prefix_ok by exact Hcap. reflexivity.
Qed.

Lemma kuhl_geometry_new_spec (n : Z) (L : gset Z) (T : list event) (prog vertexCount : Z) :
  hoare (fun e => gl_part e = (n, L, T)) (kuhl_geometry_new prog vertexCount)
    (fun g e' => gl_part e' = (n + 1, {[n]} ∪ L, T ++ [EvNew n]) /\
                 vao g = n /\ vertex_count g = vertexCount /\ positions g = []).
Proof.
  intros e He. unfold kuhl_geometry_new. eexists _, _. split; [reflexivity |].
  unfold gl_part in *. simpl. inversion He; subst. auto.
Qed.

(** A shell is one new object; its four uploads cannot fault. *)
Lemma shell_upload_spec (n : Z) (L : gset Z) (T : list event) (prog : Z)
    (vertexPositions : list Q) (bc : Q) :
  length vertexPositions = 48%nat ->
  hoare (fun e => gl_part e = (n, L, T)) (shell_upload prog vertexPositions bc)
    (fun g e' => gl_part e' = (n + 1, {[n]} ∪ L, T ++ [EvNew n]) /\ vao g = n /\
                 vertex_count g = 16 /\ positions g = Some <$> vertexPositions).
Proof.
  intros Hlen e He. unfold shell_upload.
  set (G := fun e : env => gl_part e = (n + 1, {[n]} ∪ L, T ++ [EvNew n])).
  destruct (kuhl_geometry_new_spec n L T prog 16 e He)
    as (g0 & e0 & Hrun0 & He0 & Hv0 & Hc0 & _).
  destruct (kuhl_geometry_attrib_spec G g0 (array_lit vertexPositions) 3 in_Position)
    with (e := e0) as (g1 & e1 & Hrun1 & He1 & Hg1);
    [rewrite array_lit_capacity, Hlen, Hc0; reflexivity | exact He0 |].
  destruct (kuhl_geometry_attrib_spec G g1 (array_lit (shell_colorData bc)) 3 in_Color)
    with (e := e1) as (g2 & e2 & Hrun2 & He2 & Hg2);
    [rewrite array_lit_capacity, Hg1; simpl; rewrite Hc0; reflexivity | exact He1 |].
  destruct (kuhl_geometry_attrib_spec G g2 (array_lit shell_normalData) 3 in_Normal)
    with (e := e2) as (g3 & e3 & Hrun3 & He3 & Hg3);
    [rewrite array_lit_capacity, Hg2, Hg1; simpl; rewrite Hc0; reflexivity | exact He2 |].
  destruct (kuhl_geometry_indices_spec G g3 (array_lit shell_indexData) 24)
    with (e := e3) as (g4 & e4 & Hrun4 & He4 & Hg4);
    [rewrite array_lit_capacity; reflexivity | exact He3 |].
  exists g4, e4. split.
  { unfold mbind, M_bind. rewrite Hrun0, Hrun1, Hrun2, Hrun3. exact Hrun4. }
  split; [exact He4 |].
  rewrite Hg4, Hg3, Hg2, Hg1. simpl. rewrite Hv0, Hc0. repeat split; try reflexivity.
  apply array_lit_read. rewrite Hlen. reflexivity.
Qed.

(** ** A whole window pass *)

Section DrawWindows.

Variable P : Q * Q * Q -> Prop.
Variables (w h : Q).
Variables (vfront vleft vright : Q -> Q -> list Q).

Let hw := Qfloor (w / (0.13 + 0.02)).
Let vw := Qfloor (h / (0.13 + 0.02)).
Let tw := hw * vw.

Hypothesis verts_ok : forall i j,
  (0.01 <= i)%Q -> (i < w - 0.13)%Q -> (0.02 <= j)%Q -> (j < h - 0.13)%Q ->
  quad_ok P (vfront i j) /\ quad_ok P (vleft i j) /\ quad_ok P (vright i j).

Lemma norms_front_len : length norms_front = 12%nat.
Proof. reflexivity. Qed.

Lemma norms_side_len : length norms_side = 12%nat.
Proof. reflexivity. Qed.

Lemma window_faces_spec (G : Z * gset Z * list event) :
  hoare (fun e => gl_part e = G)
        (window_faces 0.13 0.02 w h hw vfront vleft vright (wbufs_new tw))
        (fun b e' => gl_part e' = G /\
           exists q, 0 <= q <= 3 * (Z.max 0 hw * Z.max 0 vw) /\ (0 < q -> q <= 3 * tw) /\
                     wb_inv tw q b /\ verts_inv P q b).
Proof.
  unfold window_faces.
  assert (Hroom : forall q0, q0 <= 2 * (Z.max 0 hw * Z.max 0 vw) ->
                    0 < hw -> 0 < vw -> q0 + hw * vw <= 3 * tw).
  { intros q0 Hq0 Hh Hv. unfold tw. nia. }
  eapply hoare_bind.
  { apply (window_face_spec P G w h tw norms_front norms_front_len (vfront) 0).
    - apply wb_inv_new.
    - apply verts_inv_new.
    - apply Hroom. nia.
    - intros i j Hi1 Hi2 Hj1 Hj2. apply (verts_ok i j); assumption. }
  intros b1.
  intros e (He & q1 & Hq1 & Hwb1 & Hvi1).
  destruct (window_face_spec P G w h tw norms_side norms_side_len vleft q1 b1 Hwb1 Hvi1)
    with (e := e) as (b2 & e2 & Hrun2 & He2 & q2 & Hq2 & Hwb2 & Hvi2); auto.
  { apply Hroom. fold hw vw in Hq1. nia. }
  { intros i j Hi1 Hi2 Hj1 Hj2. apply (verts_ok i j); assumption. }
  destruct (window_face_spec P G w h tw norms_side norms_side_len vright q2 b2 Hwb2 Hvi2)
    with (e := e2) as (b3 & e3 & Hrun3 & He3 & q3 & Hq3 & Hwb3 & Hvi3); auto.
  { apply Hroom. fold hw vw in Hq1, Hq2. nia. }
  { intros i j Hi1 Hi2 Hj1 Hj2. apply (verts_ok i j); assumption. }
  exists b3, e3. split.
  { unfold mbind, M_bind. unfold hw. rewrite Hrun2. exact Hrun3. }
  split; [exact He3 |]. exists q3. fold hw vw in Hq1, Hq2, Hq3.
  split; [nia |]. split; [| auto].
  intros Hpos. unfold tw. nia.
Qed.

Lemma windows_upload_spec (G : env -> Prop) (g0 : kuhl_geometry) (q : Z) (b : wbufs) :
  wb_inv tw q b -> vertex_count g0 = tw * 4 * 3 ->
  hoare G (windows_upload g0 tw b)
    (fun g e' => G e' /\
       g = mkGeom (vao g0) (geom_program g0) (tw * 4 * 3)
             ((fun k => cells (wVertexPositions b) !! k) <$> seqZ 0 (tw * 4 * 3 * 3))
             ((fun k => cells (wColorData b) !! k) <$> seqZ 0 (tw * 4 * 3 * 3))
             ((fun k => cells (wNormalData b) !! k) <$> seqZ 0 (tw * 4 * 3 * 3))
             ((fun k => cells (wIndexData b) !! k) <$> seqZ 0 (Z.quot (tw * 4 * 3 * 3) 2))).
Proof.
  intros (Hq & Hn1 & Hn2 & Hn3 & Hc1 & Hc2 & Hc3 & Hc4) Hvc e He.
  unfold windows_upload.
  destruct (kuhl_geometry_attrib_spec G g0 (wVertexPositions b) 3 in_Position)
    with (e := e) as (g1 & e1 & Hrun1 & He1 & Hg1); [lia | exact He |].
  destruct (kuhl_geometry_attrib_spec G g1 (wNormalData b) 3 in_Normal)
    with (e := e1) as (g2 & e2 & Hrun2 & He2 & Hg2);
    [rewrite Hg1; simpl; lia | exact He1 |].
  destruct (kuhl_geometry_attrib_spec G g2 (wColorData b) 3 in_Color)
    with (e := e2) as (g3 & e3 & Hrun3 & He3 & Hg3);
    [rewrite Hg2, Hg1; simpl; lia | exact He2 |].
  destruct (kuhl_geometry_indices_spec G g3 (wIndexData b) (Z.quot (tw * 4 * 3 * 3) 2))
    with (e := e3) as (g4 & e4 & Hrun4 & He4 & Hg4); [lia | exact He3 |].
  exists g4, e4. split.
  { unfold mbind, M_bind. rewrite Hrun1, Hrun2, Hrun3. exact Hrun4. }
  split; [exact He4 |].
  rewrite Hg4, Hg3, Hg2, Hg1. unfold set_indices, set_attrib. simpl.
  rewrite Hvc. replace (tw * 4 * 3 * 3) with (tw * 4 * 3 * 3) by ring. reflexivity.
Qed.

Lemma geom_vertex_uploaded (g : kuhl_geometry) (a : carray Q) (n : Z) (v : nat) :
  positions g = (fun k => cells a !! k) <$> seqZ 0 n ->
  geom_vertex g v =
  if bool_decide (3 * Z.of_nat v + 2 < n) then vertex_at (cells a) (Z.of_nat v) else None.
Proof.
  intros Hp. unfold geom_vertex, vertex_at. rewrite Hp, !read_prefix_lookup.
  replace (Z.of_nat (3 * v)) with (3 * Z.of_nat v) by lia.
  replace (Z.of_nat (3 * v + 1)) with (3 * Z.of_nat v + 1) by lia.
  replace (Z.of_nat (3 * v + 2)) with (3 * Z.of_nat v + 2) by lia.
  repeat case_bool_decide; try lia; try reflexivity.
  - destruct (cells a !! (3 * Z.of_nat v)); [| reflexivity].
    destruct (cells a !! (3 * Z.of_nat v + 1)); reflexivity.
  - destruct (cells a !! (3 * Z.of_nat v)); reflexivity.
Qed.

(** The windows of one tier: one new object, no fault, at most
    [3 * hw * vw] windows, every written vertex satisfies [P], the rest of
    the buffer is uninitialised. *)
Lemma draw_windows_spec (n : Z) (L : gset Z) (T : list event) (prog : Z) :
  hoare (fun e => gl_part e = (n, L, T))
        (draw_windows prog 0.13 0.02 w h vfront vleft vright)
        (fun g e' => gl_part e' = (n + 1, {[n]} ∪ L, T ++ [EvNew n]) /\ vao g = n /\
           vertex_count g = tw * 4 * 3 /\
           length (positions g) = Z.to_nat (tw * 4 * 3 * 3) /\
           length (normals g) = Z.to_nat (tw * 4 * 3 * 3) /\
           length (colors g) = Z.to_nat (tw * 4 * 3 * 3) /\
           length (indices g) = Z.to_nat (Z.quot (tw * 4 * 3 * 3) 2) /\
           exists q, 0 <= q <= 3 * (Z.max 0 hw * Z.max 0 vw) /\
             (forall v : nat, Z.of_nat v < 4 * q ->
                exists p, geom_vertex g v = Some p /\ P p) /\
             (forall v : nat, 4 * q <= Z.of_nat v -> geom_vertex g v = None)).
Proof.
  unfold draw_windows. fold hw vw tw.
  eapply hoare_bind; [apply kuhl_geometry_new_spec |].
  intros g0 e (He & Hv0 & Hvc0 & _).
  destruct (window_faces_spec (n + 1, {[n]} ∪ L, T ++ [EvNew n])) with (e := e)
    as (b & e1 & Hrun1 & He1 & q & Hq & Hqtw & Hwb & Hvi); [exact He |].
  destruct (windows_upload_spec (fun e => gl_part e = (n + 1, {[n]} ∪ L, T ++ [EvNew n]))
              g0 q b Hwb Hvc0) with (e := e1)
    as (g & e2 & Hrun2 & He2 & Hg); [exact He1 |].
  exists g, e2. split.
  { unfold mbind, M_bind. rewrite Hrun1. exact Hrun2. }
  split; [exact He2 |].
  assert (Hpos : positions g =
    (fun k => cells (wVertexPositions b) !! k) <$> seqZ 0 (tw * 4 * 3 * 3))
    by (rewrite Hg; reflexivity).
  rewrite Hg at 1 2 3 4 5 6. simpl.
  rewrite !length_fmap, !length_seqZ.
  split; [exact Hv0 |]. do 5 (split; [reflexivity |]).
  exists q. split; [exact Hq |]. destruct Hvi as [Hin Hout]. split.
  - intros v Hv. destruct (Hin (Z.of_nat v)) as (p & Hp & HP); [lia |].
    exists p. split; [| exact HP].
    rewrite (geom_vertex_uploaded g _ _ v Hpos).
    rewrite bool_decide_eq_true_2; [exact Hp | lia].
  - intros v Hv. rewrite (geom_vertex_uploaded g _ _ v Hpos).
    case_bool_decide; [| reflexivity].
    unfold vertex_at. rewrite (Hout (3 * Z.of_nat v)) by lia. reflexivity.
Qed.

End DrawWindows.

(** ** Windows stay on their walls *)

(** The tier whose box is [[fud, fud + w] x [sh, sh + h] x [-fud - w, -fud]]
    has its front wall in the plane [z = -fud], its left wall in [x = fud]
    and its right wall in [x = fud + w]; windows float [wo] in front of the
    wall.  [on_wall] says that a vertex lies in one of the three window
    planes and, within that plane, inside the rectangle of the wall. *)
Definition on_wall (wo fud sh w h : Q) (p : Q * Q * Q) : Prop :=
  let '(x, y, z) := p in
  (sh <= y)%Q /\ (y <= sh + h)%Q /\
  (((z == - fud + wo)%Q /\ (fud <= x)%Q /\ (x <= fud + w)%Q) \/
   ((x == fud - wo)%Q /\ (- fud - w <= z)%Q /\ (z <= - fud)%Q) \/
   ((x == fud + w + wo)%Q /\ (- fud - w <= z)%Q /\ (z <= - fud)%Q)).

Lemma quad_ok_intro (P : Q * Q * Q -> Prop) (a b c d e f g h i j k l : Q) :
  P (a, b, c) -> P (d, e, f) -> P (g, h, i) -> P (j, k, l) ->
  quad_ok P [a; b; c; d; e; f; g; h; i; j; k; l].
Proof.
  intros. split; [reflexivity |]. simpl. repeat constructor; assumption.
Qed.

Lemma base_quads_on_wall (w h i j : Q) :
  (0.01 <= i)%Q -> (i < w - 0.13)%Q -> (0.02 <= j)%Q -> (j < h - 0.13)%Q ->
  quad_ok (on_wall 0.001 0 0 w h) (verts_front 0.13 0.001 0 i j) /\
  quad_ok (on_wall 0.001 0 0 w h) (verts_left 0.13 0.001 0 i j) /\
  quad_ok (on_wall 0.001 0 0 w h) (verts_right 0.13 0.001 0 w i j).
Proof.
  intros Hi1 Hi2 Hj1 Hj2.
  split; [| split]; apply quad_ok_intro; unfold on_wall;
    (split; [lra | split; [lra |]]).
  1-4: left; split; [ring | split; lra].
  1-4: right; left; split; [ring | split; lra].
  1-4: right; right; split; [ring | split; lra].
Qed.

Lemma top_quads_on_wall (fud sh w h i j : Q) :
  (0.01 <= i)%Q -> (i < w - 0.13)%Q -> (0.02 <= j)%Q -> (j < h - 0.13)%Q ->
  quad_ok (on_wall 0.001 fud sh w h) (verts_front_top 0.13 0.001 sh fud i j) /\
  quad_ok (on_wall 0.001 fud sh w h) (verts_left_top 0.13 0.001 sh fud i j) /\
  quad_ok (on_wall 0.001 fud sh w h) (verts_right_top 0.13 0.001 sh fud w i j).
Proof.
  intros Hi1 Hi2 Hj1 Hj2.
  split; [| split]; apply quad_ok_intro; unfold on_wall;
    (split; [lra | split; [lra |]]).
  1-4: left; split; [ring | split; lra].
  1-4: right; left; split; [ring | split; lra].
  1-4: right; right; split; [ring | split; lra].
Qed.

(** ** The second tier's dimensions *)

Lemma top_dimensions_spec (G : Z * gset Z * list event) (oldW : Q) :
  (0.13 + 0.02 <= oldW)%Q ->
  hoare (fun e => gl_part e = G) (top_dimensions 0.13 0.02 oldW)
    (fun r e' => gl_part e' = G /\
       let '(w, h, fud) := r in
       (0.13 + 0.02 <= w)%Q /\ (w <= oldW)%Q /\
       (0.5 <= h)%Q /\ (h <= 1.5)%Q /\
       (0 <= fud)%Q /\ (fud <= (oldW - w) / 2)%Q).
Proof.
  intros Hold. unfold top_dimensions.
  apply hoare_bind_random; [exact Hold |]. intros r Hr1 Hr2 _.
  set (w := if Qlt_le_dec (r + 0.15) oldW then (r + 0.15)%Q else r).
  assert (Hw : (0.13 + 0.02 <= w)%Q /\ (w <= oldW)%Q).
  { unfold w. destruct (Qlt_le_dec (r + 0.15) oldW); split; lra. }
  clearbody w. destruct Hw as [Hw1 Hw2].
  apply hoare_bind_random; [lra |]. intros h Hh1 Hh2 _.
  assert (Hhalf : (0 <= (oldW - w) / 2)%Q) by (halves; lra).
  apply hoare_bind_random; [exact Hhalf |]. intros fud Hf1 Hf2 _.
  apply hoare_ret. intros e He. split; [exact He |]. repeat split; assumption.
Qed.

(** ** What one call of [init_geometryBuilding] does *)

Lemma hoare_pre_pure {A} (P : env -> Prop) (F : Prop) (c : M A) (R : A -> env -> Prop) :
  (F -> hoare P c R) -> hoare (fun e => P e /\ F) c R.
Proof. intros H e [HP HF]. exact (H HF e HP). Qed.

Lemma srand48_spec (G : Z * gset Z * list event) (seedval : Z) :
  hoare (fun e => gl_part e = G) (srand48 seedval) (fun _ e' => gl_part e' = G).
Proof. intros e He. eexists tt, _. split; [reflexivity | exact He]. Qed.

(** The geometry of a generated cell: the base tier [bw x bh] with its
    windows on its walls and, when the cell is complex, a second tier
    [tw x th] inset by [fud] that stands on the roof with its windows on its
    own walls. *)
Definition cell_shape (b w bt wt : kuhl_geometry) (c : Z) : Prop :=
  exists bw bh : Q,
    (0.4 <= bw)%Q /\ (bw <= 0.8)%Q /\ (0.8 <= bh)%Q /\ (bh <= 2.2)%Q /\
    positions b = Some <$> shell_vertexPositions 0 bw bh /\
    (forall v p, geom_vertex w v = Some p -> on_wall 0.001 0 0 bw bh p) /\
    (c = 0 \/
     (c = 1 /\ exists tw th fud : Q,
        (0.13 + 0.02 <= tw)%Q /\ (tw <= bw)%Q /\ (0.5 <= th)%Q /\ (th <= 1.5)%Q /\
        (0 <= fud)%Q /\ (fud <= (bw - tw) / 2)%Q /\
        positions bt = Some <$> top_vertexPositions fud bh tw th /\
        (forall v p, geom_vertex wt v = Some p -> on_wall 0.001 fud bh tw th p))).

(** The OpenGL part of the environment after two, respectively four, new
    objects. *)
Definition gl_after2 (n : Z) (L : gset Z) (T : list event) : Z * gset Z * list event :=
  (n + 1 + 1, {[n + 1]} ∪ ({[n]} ∪ L), (T ++ [EvNew n]) ++ [EvNew (n + 1)]).

Definition gl_after4 (n : Z) (L : gset Z) (T : list event) : Z * gset Z * list event :=
  (n + 1 + 1 + 1 + 1,
   {[n + 1 + 1 + 1]} ∪ ({[n + 1 + 1]} ∪ ({[n + 1]} ∪ ({[n]} ∪ L))),
   (((T ++ [EvNew n]) ++ [EvNew (n + 1)]) ++ [EvNew (n + 1 + 1)]) ++ [EvNew (n + 1 + 1 + 1)]).

Definition generated (n : Z) (L : gset Z) (T : list event) (bt0 wt0 : kuhl_geometry)
    (r : kuhl_geometry * kuhl_geometry * kuhl_geometry * kuhl_geometry * Z)
    (e' : env) : Prop :=
  let '(b, w, bt, wt, c) := r in
  vao b = n /\ vao w = n + 1 /\ cell_shape b w bt wt c /\
  ((c = 0 /\ bt = bt0 /\ wt = wt0 /\ gl_part e' = gl_after2 n L T) \/
   (c = 1 /\ vao bt = n + 1 + 1 /\ vao wt = n + 1 + 1 + 1 /\ gl_part e' = gl_after4 n L T)).

Lemma written_vertices (P : Q * Q * Q -> Prop) (g : kuhl_geometry) (q : Z) :
  (forall v : nat, Z.of_nat v < 4 * q -> exists p, geom_vertex g v = Some p /\ P p) ->
  (forall v : nat, 4 * q <= Z.of_nat v -> geom_vertex g v = None) ->
  forall v p, geom_vertex g v = Some p -> P p.
Proof.
  intros Hin Hout v p Hv.
  destruct (Z_lt_le_dec (Z.of_nat v) (4 * q)) as [Hlt | Hge].
  - destruct (Hin v Hlt) as (p' & Hp' & HP). congruence.
  - rewrite (Hout v Hge) in Hv. discriminate.
Qed.

Theorem init_geometryBuilding_spec (b0 w0 bt0 wt0 : kuhl_geometry) (prog seed : Z)
    (n : Z) (L : gset Z) (T : list event) :
  hoare (fun e => gl_part e = (n, L, T))
        (init_geometryBuilding b0 w0 bt0 wt0 prog seed)
        (generated n L T bt0 wt0).
Proof.
  unfold init_geometryBuilding.
  eapply hoare_bind; [apply srand48_spec |]. intros [].
  apply hoare_bind_random; [lra |]. intros bw Hbw1 Hbw2 _.
  apply hoare_bind_random; [lra |]. intros bh Hbh1 Hbh2 _.
  eapply hoare_bind; [apply shell_upload_spec; reflexivity |]. intros b.
  apply hoare_pre_pure. intros (Hvb & _ & Hpb).
  eapply hoare_bind.
  { apply (draw_windows_spec (on_wall 0.001 0 0 bw bh)).
    intros i j. apply base_quads_on_wall. }
  intros w. apply hoare_pre_pure.
  intros (Hvw & _ & _ & _ & _ & _ & q & _ & Hin & Hout).
  pose proof (written_vertices _ _ _ Hin Hout) as Hwall. clear Hin Hout q.
  apply hoare_bind_random; [lra |]. intros r _ _ _.
  destruct (Qlt_le_dec 0.5 r) as [Hcx | Hcx].
  - eapply hoare_bind; [apply top_dimensions_spec; lra |].
    intros [[tw th] fud]. apply hoare_pre_pure.
    intros (Htw1 & Htw2 & Hth1 & Hth2 & Hf1 & Hf2).
    eapply hoare_bind; [apply shell_upload_spec; reflexivity |]. intros bt.
    apply hoare_pre_pure. intros (Hvbt & _ & Hpbt).
    eapply hoare_bind.
    { apply (draw_windows_spec (on_wall 0.001 fud bh tw th)).
      intros i j. apply top_quads_on_wall. }
    intros wt. apply hoare_pre_pure.
    intros (Hvwt & _ & _ & _ & _ & _ & q & _ & Hin & Hout).
    pose proof (written_vertices _ _ _ Hin Hout) as Hwallt. clear Hin Hout q.
    apply hoare_ret. intros e He. unfold generated.
    split; [exact Hvb |]. split; [exact Hvw |]. split.
    + exists bw, bh. do 6 (split; [assumption |]). right. split; [reflexivity |].
      exists tw, th, fud. repeat split; assumption.
    + right. repeat split; assumption.
  - apply hoare_ret. intros e He. unfold generated.
    split; [exact Hvb |]. split; [exact Hvw |]. split.
    + exists bw, bh. do 6 (split; [assumption |]). left. reflexivity.
    + left. repeat split; assumption.
Qed.

(** ** Two runs from the same point of the random stream

    [rel R c1 c2]: started in two environments that agree on the state of
    the random stream (and on nothing else), [c1] and [c2] either fault
    alike or return values related by [R], again with the same stream
    state. *)

Definition rel {A B} (R : A -> B -> Prop) (c1 : M A) (c2 : M B) : Prop :=
  forall e1 e2, rng e1 = rng e2 ->
    match c1 e1, c2 e2 with
    | Ok (a1, e1'), Ok (a2, e2') => R a1 a2 /\ rng e1' = rng e2'
    | Err f1, Err f2 => f1 = f2
    | _, _ => False
    end.

Lemma rel_ret {A B} (R : A -> B -> Prop) (a : A) (b : B) :
  R a b -> rel R (mret a) (mret b).
Proof. intros H e1 e2 Hr. simpl. auto. Qed.

Lemma rel_bind {A B A' B'} (R : A -> B -> Prop) (R' : A' -> B' -> Prop)
    (c1 : M A) (c2 : M B) (k1 : A -> M A') (k2 : B -> M B') :
  rel R c1 c2 ->
  (forall a b, R a b -> rel R' (k1 a) (k2 b)) ->
  rel R' (c1 ≫= k1) (c2 ≫= k2).
Proof.
  intros Hc Hk e1 e2 Hr. specialize (Hc e1 e2 Hr).
  unfold mbind, M_bind.
  destruct (c1 e1) as [[a e1'] | f1], (c2 e2) as [[b e2'] | f2]; try contradiction.
  - destruct Hc as [HR Hr']. apply (Hk a b HR e1' e2' Hr').
  - exact Hc.
Qed.

Lemma rel_lift_res {A} (r : res A) : rel eq (lift_res r) (lift_res r).
Proof. intros e1 e2 Hr. unfold lift_res. destruct r; auto. Qed.

Lemma rel_drand48 : rel eq drand48 drand48.
Proof. intros e1 e2 Hr. unfold drand48. simpl. rewrite Hr. auto. Qed.

Lemma rel_randomRange (start end_ : Q) :
  rel eq (randomRange start end_) (randomRange start end_).
Proof.
  unfold randomRange. eapply rel_bind; [apply rel_drand48 |].
  intros n ? <-. apply rel_ret. reflexivity.
Qed.

Lemma rel_for_float_fuel {S} (bound step : Q) (body : Q -> S -> M S) :
  (forall x s, rel eq (body x s) (body x s)) ->
  forall fuel x s,
    rel eq (for_float_fuel fuel bound step body x s)
           (for_float_fuel fuel bound step body x s).
Proof.
  intros Hbody. induction fuel as [| fuel IH]; intros x s; simpl.
  - destruct (Qlt_le_dec x bound).
    + intros e1 e2 _. reflexivity.
    + apply rel_ret. reflexivity.
  - destruct (Qlt_le_dec x bound).
    + eapply rel_bind; [apply Hbody |]. intros s' ? <-. apply IH.
    + apply rel_ret. reflexivity.
Qed.

Lemma rel_window_quad (verts norms : list Q) (b : wbufs) :
  rel eq (window_quad verts norms b) (window_quad verts norms b).
Proof.
  unfold window_quad.
  eapply rel_bind; [apply rel_lift_res |]. intros vp ? <-.
  eapply rel_bind; [apply rel_lift_res |]. intros nd ? <-.
  eapply rel_bind; [apply rel_randomRange |]. intros lit ? <-.
  destruct (if Qlt_le_dec 0.5 lit then _ else _) as [[cv0 cv1] cv2].
  eapply rel_bind; [apply rel_lift_res |]. intros cd ? <-.
  eapply rel_bind; [apply rel_lift_res |]. intros ix ? <-.
  apply rel_ret. reflexivity.
Qed.

Lemma rel_window_face (ws wp w h : Q) (hw : Z) (verts : Q -> Q -> list Q)
    (norms : list Q) (b : wbufs) :
  rel eq (window_face ws wp w h hw verts norms b) (window_face ws wp w h hw verts norms b).
Proof.
  unfold window_face, for_float. apply rel_for_float_fuel.
  intros i s. apply rel_for_float_fuel. intros j s'. apply rel_window_quad.
Qed.

Lemma rel_window_faces (ws wp w h : Q) (hw : Z) (vf vl vr : Q -> Q -> list Q) (b : wbufs) :
  rel eq (window_faces ws wp w h hw vf vl vr b) (window_faces ws wp w h hw vf vl vr b).
Proof.
  unfold window_faces.
  eapply rel_bind; [apply rel_window_face |]. intros b1 ? <-.
  eapply rel_bind; [apply rel_window_face |]. intros b2 ? <-.
  apply rel_window_face.
Qed.

(** What the claims call a mesh: everything in a geometry object but its
    OpenGL name and program. *)
Definition geom_data (g : kuhl_geometry)
  : Z * list (option Q) * list (option Q) * list (option Q) * list (option Z) :=
  (vertex_count g, positions g, colors g, normals g, indices g).

Definition same_mesh (g1 g2 : kuhl_geometry) : Prop := geom_data g1 = geom_data g2.

Lemma rel_kuhl_geometry_new (prog1 prog2 vertexCount : Z) :
  rel same_mesh (kuhl_geometry_new prog1 vertexCount) (kuhl_geometry_new prog2 vertexCount).
Proof. intros e1 e2 Hr. unfold kuhl_geometry_new. simpl. split; [reflexivity | exact Hr]. Qed.

Lemma rel_kuhl_geometry_attrib (g1 g2 : kuhl_geometry) (data : carray Q)
    (components : Z) (name : attrib_name) :
  same_mesh g1 g2 ->
  rel same_mesh (kuhl_geometry_attrib g1 data components name)
                (kuhl_geometry_attrib g2 data components name).
Proof.
  intros Hg. unfold kuhl_geometry_attrib.
  unfold same_mesh, geom_data in Hg. injection Hg as Hvc Hp Hc Hn Hi.
  rewrite Hvc.
  eapply rel_bind; [apply rel_lift_res |]. intros l ? <-.
  apply rel_ret. unfold same_mesh, geom_data.
  destruct name; simpl; congruence.
Qed.

Lemma rel_kuhl_geometry_indices (g1 g2 : kuhl_geometry) (data : carray Z) (indexCount : Z) :
  same_mesh g1 g2 ->
  rel same_mesh (kuhl_geometry_indices g1 data indexCount)
                (kuhl_geometry_indices g2 data indexCount).
Proof.
  intros Hg. unfold kuhl_geometry_indices.
  unfold same_mesh, geom_data in Hg. injection Hg as Hvc Hp Hc Hn Hi.
  eapply rel_bind; [apply rel_lift_res |]. intros l ? <-.
  apply rel_ret. unfold same_mesh, geom_data. simpl. congruence.
Qed.

Lemma rel_shell_upload (prog1 prog2 : Z) (vertexPositions : list Q) (bc : Q) :
  rel same_mesh (shell_upload prog1 vertexPositions bc)
                (shell_upload prog2 vertexPositions bc).
Proof.
  unfold shell_upload.
  eapply rel_bind; [apply rel_kuhl_geometry_new |]. intros g1 g2 Hg.
  eapply rel_bind; [apply rel_kuhl_geometry_attrib; exact Hg |]. clear g1 g2 Hg.
  intros g1 g2 Hg.
  eapply rel_bind; [apply rel_kuhl_geometry_attrib; exact Hg |]. clear g1 g2 Hg.
  intros g1 g2 Hg.
  eapply rel_bind; [apply rel_kuhl_geometry_attrib; exact Hg |]. clear g1 g2 Hg.
  intros g1 g2 Hg.
  apply rel_kuhl_geometry_indices. exact Hg.
Qed.

Lemma rel_windows_upload (g1 g2 : kuhl_geometry) (tw : Z) (b : wbufs) :
  same_mesh g1 g2 ->
  rel same_mesh (windows_upload g1 tw b) (windows_upload g2 tw b).
Proof.
  intros Hg. unfold windows_upload.
  eapply rel_bind; [apply rel_kuhl_geometry_attrib; exact Hg |]. clear g1 g2 Hg.
  intros g1 g2 Hg.
  eapply rel_bind; [apply rel_kuhl_geometry_attrib; exact Hg |]. clear g1 g2 Hg.
  intros g1 g2 Hg.
  eapply rel_bind; [apply rel_kuhl_geometry_attrib; exact Hg |]. clear g1 g2 Hg.
  intros g1 g2 Hg.
  apply rel_kuhl_geometry_indices. exact Hg.
Qed.

Lemma rel_draw_windows (prog1 prog2 : Z) (ws wp w h : Q) (vf vl vr : Q -> Q -> list Q) :
  rel same_mesh (draw_windows prog1 ws wp w h vf vl vr)
                (draw_windows prog2 ws wp w h vf vl vr).
Proof.
  unfold draw_windows.
  eapply rel_bind; [apply rel_kuhl_geometry_new |]. intros g1 g2 Hg.
  eapply rel_bind; [apply rel_window_faces |]. intros b ? <-.
  apply rel_windows_upload. exact Hg.
Qed.

Lemma rel_top_dimensions (ws wp oldW : Q) :
  rel eq (top_dimensions ws wp oldW) (top_dimensions ws wp oldW).
Proof.
  unfold top_dimensions.
  eapply rel_bind; [apply rel_randomRange |]. intros w ? <-.
  eapply rel_bind; [apply rel_randomRange |]. intros h ? <-.
  eapply rel_bind; [apply rel_randomRange |]. intros fud ? <-.
  apply rel_ret. reflexivity.
Qed.

(** The meshes and the flag of a generated cell; the second tier counts
    only when the flag is set. *)
Definition same_cell
    (r1 r2 : kuhl_geometry * kuhl_geometry * kuhl_geometry * kuhl_geometry * Z) : Prop :=
  let '(b1, w1, bt1, wt1, c1) := r1 in
  let '(b2, w2, bt2, wt2, c2) := r2 in
  same_mesh b1 b2 /\ same_mesh w1 w2 /\ c1 = c2 /\
  (c1 = 1 -> same_mesh bt1 bt2 /\ same_mesh wt1 wt2).

Lemma srand48_bind {A} (seedval : Z) (k : unit -> M A) (e : env) :
  (srand48 seedval ≫= k) e =
  k tt (mkEnv (srand48_state seedval) (gl_next e) (gl_live e) (trace e)).
Proof. reflexivity. Qed.

Lemma init_geometryBuilding_rel
    (b1 w1 bt1 wt1 b2 w2 bt2 wt2 : kuhl_geometry) (prog1 prog2 seed : Z) (e1 e2 : env) :
  match init_geometryBuilding b1 w1 bt1 wt1 prog1 seed e1,
        init_geometryBuilding b2 w2 bt2 wt2 prog2 seed e2 with
  | Ok (r1, _), Ok (r2, _) => same_cell r1 r2
  | Err f1, Err f2 => f1 = f2
  | _, _ => False
  end.
Proof.
  unfold init_geometryBuilding.
  set (body1 := fun _ : unit => randomRange 0.4 0.8 ≫= _).
  set (body2 := fun _ : unit => randomRange 0.4 0.8 ≫= _).
  assert (Hrel : rel same_cell (body1 tt) (body2 tt)).
  { unfold body1, body2.
    eapply rel_bind; [apply rel_randomRange |]. intros w ? <-.
    eapply rel_bind; [apply rel_randomRange |]. intros h ? <-.
    eapply rel_bind; [apply rel_shell_upload |]. intros gb1 gb2 Hb.
    eapply rel_bind; [apply rel_draw_windows |]. intros gw1 gw2 Hw.
    eapply rel_bind; [apply rel_randomRange |]. intros r ? <-.
    destruct (Qlt_le_dec 0.5 r).
    - eapply rel_bind; [apply rel_top_dimensions |]. intros [[tw th] fud] ? <-.
      eapply rel_bind; [apply rel_shell_upload |]. intros gt1 gt2 Ht.
      eapply rel_bind; [apply rel_draw_windows |]. intros gx1 gx2 Hx.
      apply rel_ret. simpl. auto.
    - apply rel_ret. simpl. repeat split; auto; discriminate. }
  clearbody body1 body2. rewrite !srand48_bind.
  match goal with |- match body1 tt ?x with _ => _ end =>
    match goal with |- context [body2 tt ?y] =>
      specialize (Hrel x y eq_refl) end end.
  destruct (body1 tt _) as [[r1 e1'] | f1], (body2 tt _) as [[r2 e2'] | f2].
  - exact (proj1 Hrel).
  - exact Hrel.
  - exact Hrel.
  - exact Hrel.
Qed.

(** ** Loops over an [int] *)

Lemma for_up_inv {S} (I : Z -> S -> Prop) (lo hi : Z) (body : Z -> S -> res S) (s : S) :
  lo <= hi ->
  I lo s ->
  (forall k s, lo <= k < hi -> I k s -> exists s', body k s = Ok s' /\ I (k + 1) s') ->
  exists s', for_up lo hi body s = Ok s' /\ I hi s'.
Proof.
  intros Hle HI Hbody. unfold for_up.
  remember (Z.to_nat (hi - lo)) as n eqn:Hn.
  revert lo s Hle HI Hbody Hn. induction n as [| n IH]; intros lo s Hle HI Hbody Hn.
  - assert (hi = lo) by lia. subst hi. rewrite Z.sub_diag. exists s. split; [reflexivity | exact HI].
  - rewrite seqZ_cons by lia. simpl.
    destruct (Hbody lo s ltac:(lia) HI) as (s1 & Hrun & HI1). rewrite Hrun. simpl.
    replace (Z.succ lo) with (lo + 1) by lia.
    replace (Z.pred (hi - lo)) with (hi - (lo + 1)) by lia.
    apply IH; [lia | exact HI1 | | lia].
    intros k s' Hk. apply Hbody. lia.
Qed.

Lemma for_down_inv {S} (I : Z -> S -> Prop) (hi lo : Z) (body : Z -> S -> res S) (s : S) :
  lo <= hi + 1 ->
  I hi s ->
  (forall k s, lo <= k <= hi -> I k s -> exists s', body k s = Ok s' /\ I (k - 1) s') ->
  exists s', for_down hi lo body s = Ok s' /\ I (lo - 1) s'.
Proof.
  intros Hle HI Hbody. unfold for_down.
  remember (Z.to_nat (hi - lo + 1)) as n eqn:Hn.
  revert hi s Hle HI Hbody Hn. induction n as [| n IH]; intros hi s Hle HI Hbody Hn.
  - assert (hi = lo - 1) by lia. subst hi.
    replace (lo - 1 - lo + 1) with 0 by lia. exists s. split; [reflexivity | exact HI].
  - replace (hi - lo + 1) with (Z.of_nat n + 1) by lia.
    rewrite seqZ_app by lia. rewrite reverse_app. simpl.
    replace (lo + Z.of_nat n) with hi by lia.
    change (Z.of_nat 0 + hi) with hi.
    destruct (Hbody hi s ltac:(lia) HI) as (s1 & Hrun & HI1). rewrite Hrun. simpl.
    destruct (IH (hi - 1) s1) as (s2 & Hrun2 & HI2); [lia | exact HI1 | | lia |].
    { intros k s' Hk. apply Hbody. lia. }
    exists s2. split; [| exact HI2].
    replace (hi - 1 - lo + 1) with (Z.of_nat n) in Hrun2 by lia. exact Hrun2.
Qed.

(** ** Cells of the grid *)

Definition cell_t : Type :=
  kuhl_geometry * kuhl_geometry * kuhl_geometry * kuhl_geometry * Q.

(** The five parallel arrays read at one index pair. *)
Definition cell (W : World) (i j : Z) : cell_t :=
  (building W i j, windows W i j, buildingTop W i j, windowsTop W i j, isComplex W i j).

Definition in_grid (i j : Z) : Prop := 0 <= i < 10 /\ 0 <= j < 10.

(** The objects a cell answers for: its shell and windows and, when its flag
    is 1, its second tier.  These are the objects [display] draws for the
    cell and the objects the recycler deletes when it retires the cell. *)
Definition cell_handles (c : cell_t) : list Z :=
  let '(b, w, bt, wt, x) := c in
  [vao b; vao w] ++ (if Qeq_bool x 1 then [vao bt; vao wt] else []).

Definition row_handles (W : World) (j : Z) (k : Z) : list Z :=
  concat ((fun n => cell_handles (cell W n j)) <$> seqZ 0 k).

Lemma grid_set_same {T} (g : grid T) (i j : Z) (v : T) : grid_set g i j v i j = v.
Proof. unfold grid_set. rewrite bool_decide_eq_true_2; auto. Qed.

Lemma grid_set_other {T} (g : grid T) (i j i' j' : Z) (v : T) :
  ~ (i' = i /\ j' = j) -> grid_set g i j v i' j' = g i' j'.
Proof. intros H. unfold grid_set. rewrite bool_decide_eq_false_2; auto. Qed.

Lemma delete_cell_spec (n j : Z) (W : World) :
  exists e', delete_cell n j W = Ok (with_env W e') /\
    rng e' = rng (genv W) /\ gl_next e' = gl_next (genv W) /\
    gl_live e' = gl_live (genv W) ∖ list_to_set (cell_handles (cell W n j)) /\
    trace e' = trace (genv W) ++ (EvDelete <$> cell_handles (cell W n j)).
Proof.
  unfold delete_cell, cell, cell_handles.
  destruct (Qeq_bool (isComplex W n j) 1); eexists; (split; [reflexivity |]); simpl;
    repeat split; try (rewrite <- ?app_assoc; reflexivity).
  - apply leibniz_equiv. set_solver.
  - apply leibniz_equiv. set_solver.
Qed.

Lemma with_env_cell (W : World) (e : env) (i j : Z) : cell (with_env W e) i j = cell W i j.
Proof. reflexivity. Qed.

(** "delete current row": the cells of row [j] are released one after the
    other; the arrays are not touched. *)
Lemma delete_row_spec (j : Z) (W : World) :
  exists e', for_up 0 10 (fun n => delete_cell n j) W = Ok (with_env W e') /\
    rng e' = rng (genv W) /\ gl_next e' = gl_next (genv W) /\
    gl_live e' = gl_live (genv W) ∖ list_to_set (row_handles W j 10) /\
    trace e' = trace (genv W) ++ (EvDelete <$> row_handles W j 10).
Proof.
  set (I := fun (k : Z) (W' : World) =>
    exists e', W' = with_env W e' /\
      rng e' = rng (genv W) /\ gl_next e' = gl_next (genv W) /\
      gl_live e' = gl_live (genv W) ∖ list_to_set (row_handles W j k) /\
      trace e' = trace (genv W) ++ (EvDelete <$> row_handles W j k)).
  destruct (for_up_inv I 0 10 (fun n => delete_cell n j) W) as (W' & Hrun & HI).
  - lia.
  - exists (genv W). unfold row_handles. simpl. repeat split.
    + destruct W; reflexivity.
    + apply leibniz_equiv. set_solver.
    + rewrite app_nil_r. reflexivity.
  - intros k W1 Hk (e1 & -> & Hr & Hn & Hl & Ht).
    destruct (delete_cell_spec k j (with_env W e1)) as (e2 & Hrun & Hr2 & Hn2 & Hl2 & Ht2).
    exists (with_env W e2). split; [exact Hrun |]. exists e2. split; [reflexivity |].
    simpl in Hr2, Hn2, Hl2, Ht2. change (cell (with_env W e1) k j) with (cell W k j) in *.
    assert (Hrow : row_handles W j (k + 1) = row_handles W j k ++ cell_handles (cell W k j)).
    { unfold row_handles. rewrite seqZ_app by lia. rewrite fmap_app, concat_app. simpl.
      rewrite app_nil_r. reflexivity. }
    rewrite Hrow. repeat split; try congruence.
    + rewrite Hl2, Hl. apply leibniz_equiv. rewrite list_to_set_app. set_solver.
    + rewrite Ht2, Ht, fmap_app, app_assoc. reflexivity.
  - destruct HI as (e' & -> & H). exists e'. split; [exact Hrun | exact H].
Qed.

(** ** Moving rows *)

Definition is_assign (ev : event) : Prop :=
  match ev with EvAssign _ _ _ => True | _ => False end.

Definition is_new (ev : event) : Prop :=
  match ev with EvNew _ => True | _ => False end.

(** What a phase that only moves cells leaves alone. *)
Definition moved_only (W W' : World) : Prop :=
  shift W' = shift W /\ shiftBreak W' = shiftBreak W /\ program W' = program W /\
  rng (genv W') = rng (genv W) /\ gl_next (genv W') = gl_next (genv W) /\
  gl_live (genv W') = gl_live (genv W) /\
  exists assigns, trace (genv W') = trace (genv W) ++ assigns /\ Forall is_assign assigns.

Lemma moved_only_refl (W : World) : moved_only W W.
Proof.
  unfold moved_only. repeat split; try reflexivity.
  exists []. rewrite app_nil_r. auto.
Qed.

Lemma moved_only_trans (W1 W2 W3 : World) :
  moved_only W1 W2 -> moved_only W2 W3 -> moved_only W1 W3.
Proof.
  intros (H1 & H2 & H3 & H4 & H5 & H6 & a1 & Ha1 & Hf1)
         (K1 & K2 & K3 & K4 & K5 & K6 & a2 & Ha2 & Hf2).
  unfold moved_only. repeat split; try congruence.
  exists (a1 ++ a2). split.
  - rewrite Ha2, Ha1, app_assoc. reflexivity.
  - apply Forall_app. auto.
Qed.

Lemma move_cell_spec (i jdst jsrc : Z) (W : World) :
  exists W', move_cell i jdst jsrc W = Ok W' /\ moved_only W W' /\
    cell W' i jdst = cell W i jsrc /\
    (forall i' j', ~ (i' = i /\ j' = jdst) -> cell W' i' j' = cell W i' j').
Proof.
  unfold move_cell. simpl. eexists. split; [reflexivity |]. split; [| split].
  - unfold moved_only. simpl. repeat split.
    exists [EvAssign i jdst jsrc]. split; [reflexivity |]. repeat constructor.
  - unfold cell. simpl. rewrite !grid_set_same. reflexivity.
  - intros i' j' Hne. unfold cell. simpl. rewrite !grid_set_other by exact Hne. reflexivity.
Qed.

(** "move rows back": afterwards window index [j] holds what index [j+1]
    held, for [j = 0 .. 8]. *)
Lemma move_back_spec (W : World) :
  exists W',
    for_up 0 10 (fun i => for_up 0 9 (fun j => move_cell i j (j + 1))) W = Ok W' /\
    moved_only W W' /\
    (forall i j, cell W' i j =
       if bool_decide (0 <= i < 10 /\ 0 <= j < 9) then cell W i (j + 1) else cell W i j).
Proof.
  set (Inner := fun (i j : Z) (W' : World) =>
    moved_only W W' /\
    forall i' j', cell W' i' j' =
      if bool_decide ((0 <= i' < i /\ 0 <= j' < 9) \/ (i' = i /\ 0 <= j' < j))
      then cell W i' (j' + 1) else cell W i' j').
  set (Outer := fun (i : Z) (W' : World) => Inner i 0 W').
  destruct (for_up_inv Outer 0 10 (fun i => for_up 0 9 (fun j => move_cell i j (j + 1))) W)
    as (W' & Hrun & Hmv & Hcells).
  - lia.
  - split; [apply moved_only_refl |]. intros i' j'.
    rewrite bool_decide_eq_false_2 by lia. reflexivity.
  - intros i W1 Hi HO.
    destruct (for_up_inv (Inner i) 0 9 (fun j => move_cell i j (j + 1)) W1)
      as (W2 & Hrun2 & Hmv2 & Hcells2).
    + lia.
    + exact HO.
    + intros j W2 Hj [Hmv2 Hcells2].
      destruct (move_cell_spec i j (j + 1) W2) as (W3 & Hrun3 & Hmv3 & Hdst & Hoth).
      exists W3. split; [exact Hrun3 |]. split; [eapply moved_only_trans; eauto |].
      intros i' j'. destruct (decide (i' = i /\ j' = j)) as [[-> ->] | Hne].
      * rewrite Hdst, Hcells2. rewrite bool_decide_eq_false_2 by lia.
        rewrite bool_decide_eq_true_2 by lia. reflexivity.
      * rewrite (Hoth i' j' Hne), Hcells2.
        repeat case_bool_decide; try reflexivity; lia.
    + exists W2. split; [exact Hrun2 |]. split; [exact Hmv2 |].
      intros i' j'. rewrite Hcells2. repeat case_bool_decide; try reflexivity; lia.
  - exists W'. split; [exact Hrun |]. split; [exact Hmv |].
    intros i j. rewrite Hcells. repeat case_bool_decide; try reflexivity; lia.
Qed.

(** "move rows forward": afterwards window index [j] holds what index
    [j-1] held, for [j = 1 .. 9]. *)
Lemma move_forward_spec (W : World) :
  exists W',
    for_down 9 0 (fun i => for_down 9 1 (fun j => move_cell i j (j - 1))) W = Ok W' /\
    moved_only W W' /\
    (forall i j, cell W' i j =
       if bool_decide (0 <= i < 10 /\ 1 <= j < 10) then cell W i (j - 1) else cell W i j).
Proof.
  set (Inner := fun (i j : Z) (W' : World) =>
    moved_only W W' /\
    forall i' j', cell W' i' j' =
      if bool_decide ((i < i' < 10 /\ 1 <= j' < 10) \/ (i' = i /\ j < j' < 10))
      then cell W i' (j' - 1) else cell W i' j').
  set (Outer := fun (i : Z) (W' : World) => Inner i 9 W').
  destruct (for_down_inv Outer 9 0 (fun i => for_down 9 1 (fun j => move_cell i j (j - 1))) W)
    as (W' & Hrun & Hmv & Hcells).
  - lia.
  - split; [apply moved_only_refl |]. intros i' j'.
    rewrite bool_decide_eq_false_2 by lia. reflexivity.
  - intros i W1 Hi HO.
    destruct (for_down_inv (Inner i) 9 1 (fun j => move_cell i j (j - 1)) W1)
      as (W2 & Hrun2 & Hmv2 & Hcells2).
    + lia.
    + exact HO.
    + intros j W2 Hj [Hmv2 Hcells2].
      destruct (move_cell_spec i j (j - 1) W2) as (W3 & Hrun3 & Hmv3 & Hdst & Hoth).
      exists W3. split; [exact Hrun3 |]. split; [eapply moved_only_trans; eauto |].
      intros i' j'. destruct (decide (i' = i /\ j' = j)) as [[-> ->] | Hne].
      * rewrite Hdst, Hcells2. rewrite bool_decide_eq_false_2 by lia.
        rewrite bool_decide_eq_true_2 by lia. reflexivity.
      * rewrite (Hoth i' j' Hne), Hcells2.
        repeat case_bool_decide; try reflexivity; lia.
    + exists W2. split; [exact Hrun2 |]. split; [exact Hmv2 |].
      intros i' j'. rewrite Hcells2. repeat case_bool_decide; try reflexivity; lia.
  - exists W'. split; [exact Hrun |]. split; [exact Hmv |].
    intros i j. rewrite Hcells. repeat case_bool_decide; try reflexivity; lia.
Qed.

(** ** Ownership of OpenGL objects

    [owns V W]: every cell selected by [V] answers for objects that exist,
    and no object is answered for twice, neither within a cell nor by two
    cells. *)
Definition owns (V : Z -> Z -> Prop) (W : World) : Prop :=
  0 < gl_next (genv W) /\
  (forall i j h, V i j -> h ∈ cell_handles (cell W i j) ->
     h ∈ gl_live (genv W) /\ 0 < h < gl_next (genv W)) /\
  (forall i j, V i j -> NoDup (cell_handles (cell W i j))) /\
  (forall i j i' j' h, V i j -> V i' j' ->
     h ∈ cell_handles (cell W i j) -> h ∈ cell_handles (cell W i' j') ->
     i = i' /\ j = j').

Lemma owns_weaken (V V' : Z -> Z -> Prop) (W : World) :
  owns V W -> (forall i j, V' i j -> V i j) -> owns V' W.
Proof.
  intros (Hn & Hlive & Hnd & Hinj) Hsub. unfold owns.
  split; [exact Hn |]. split; [| split].
  - intros i j h Hv Hh. apply (Hlive i j h); auto.
  - intros i j Hv. apply Hnd. auto.
  - intros i j i' j' h Hv Hv' Hh Hh'. apply (Hinj i j i' j' h); auto.
Qed.

(** A cell that came out of [init_geometryBuilding] called with [seed]. *)
Definition made_from_seed (c : cell_t) (seed : Z) : Prop :=
  exists b0 w0 bt0 wt0 prog e b w bt wt x e',
    init_geometryBuilding b0 w0 bt0 wt0 prog seed e = Ok ((b, w, bt, wt, x), e') /\
    c = (b, w, bt, wt, inject_Z x).

(** The effect of generating the cells selected by [S], each from the seed
    [seed_at] gives it.  A generated cell whose flag is not 1 keeps, in its
    two second-tier slots, whatever they held before. *)
Definition gen_many (S : Z -> Z -> Prop) (seed_at : Z -> Z -> Z) (W W' : World) : Prop :=
  shift W' = shift W /\ shiftBreak W' = shiftBreak W /\ program W' = program W /\
  (forall i j, ~ S i j -> cell W' i j = cell W i j) /\
  (forall i j, S i j -> made_from_seed (cell W' i j) (seed_at i j)) /\
  (forall i j, S i j -> Qeq_bool (isComplex W' i j) 1 = false ->
     buildingTop W' i j = buildingTop W i j /\ windowsTop W' i j = windowsTop W i j) /\
  (exists news, trace (genv W') = trace (genv W) ++ news /\ Forall is_new news) /\
  (forall V, owns V W -> (forall i j, S i j -> ~ V i j) ->
             owns (fun i j => V i j \/ S i j) W').

Lemma gen_many_none (seed_at : Z -> Z -> Z) (W : World) :
  gen_many (fun _ _ => False) seed_at W W.
Proof.
  unfold gen_many. do 3 (split; [reflexivity |]).
  split; [reflexivity |]. split; [intros i j [] |]. split; [intros i j [] |]. split.
  - exists []. rewrite app_nil_r. auto.
  - intros V HV _. eapply owns_weaken; [exact HV |]. intros i j [H | []]. exact H.
Qed.

Lemma gen_many_ext (S S' : Z -> Z -> Prop) (seed_at : Z -> Z -> Z) (W W' : World) :
  gen_many S seed_at W W' -> (forall i j, S i j <-> S' i j) -> gen_many S' seed_at W W'.
Proof.
  intros (H1 & H2 & H3 & Hout & Hin & Hstale & Htr & Hown) Hext.
  unfold gen_many. do 3 (split; [assumption |]).
  split; [| split; [| split; [| split; [exact Htr |]]]].
  - intros i j Hn. apply Hout. rewrite Hext. exact Hn.
  - intros i j Hs. apply Hin. rewrite Hext. exact Hs.
  - intros i j Hs. apply Hstale. rewrite Hext. exact Hs.
  - intros V HV Hdis. eapply owns_weaken.
    + apply (Hown V HV). intros i j Hs. apply Hdis. rewrite <- Hext. exact Hs.
    + intros i j [Hv | Hs]; [left; exact Hv | right; rewrite Hext; exact Hs].
Qed.

Lemma Qeq_bool_flag (c : Z) : Qeq_bool (inject_Z c) 1 = bool_decide (c = 1).
Proof.
  unfold Qeq_bool, inject_Z. simpl. rewrite Z.mul_1_r.
  case_bool_decide as Hc.
  - subst c. reflexivity.
  - apply Z.eqb_neq. exact Hc.
Qed.

(** Lists of pairwise different integers. *)
Ltac nodup_z :=
  repeat (apply NoDup_cons_2;
          [rewrite ?elem_of_cons, ?elem_of_nil; intuition lia |]);
  apply NoDup_nil_2.

(** One call of [generate_cell]. *)
Lemma generate_cell_spec (i j seed : Z) (W : World) :
  exists W', generate_cell i j seed W = Ok W' /\
    gen_many (fun i' j' => i' = i /\ j' = j) (fun _ _ => seed) W W'.
Proof.
  unfold generate_cell.
  destruct (init_geometryBuilding_spec (building W i j) (windows W i j)
              (buildingTop W i j) (windowsTop W i j) (program W) seed
              (gl_next (genv W)) (gl_live (genv W)) (trace (genv W)) (genv W) eq_refl)
    as ([[[[b w] bt] wt] c] & e' & Hrun & Hvb & Hvw & _ & Hcase).
  rewrite Hrun. eexists. split; [reflexivity |].
  set (W' := mkWorld _ _ _ _ _ _ _ _ _).
  assert (Hcell : cell W' i j = (b, w, bt, wt, inject_Z c)).
  { unfold cell, W'. simpl. rewrite !grid_set_same. reflexivity. }
  assert (Hother : forall i' j', ~ (i' = i /\ j' = j) -> cell W' i' j' = cell W i' j').
  { intros i' j' Hne. unfold cell, W'. simpl. rewrite !grid_set_other by exact Hne.
    reflexivity. }
  assert (Hgl : exists news hs,
            trace e' = trace (genv W) ++ news /\ Forall is_new news /\
            cell_handles (b, w, bt, wt, inject_Z c) = hs /\ NoDup hs /\
            gl_next (genv W) < gl_next e' /\
            (forall h, h ∈ hs -> gl_next (genv W) <= h < gl_next e' /\ h ∈ gl_live e') /\
            (forall h, h ∈ gl_live (genv W) -> h ∈ gl_live e')).
  { unfold cell_handles. rewrite Qeq_bool_flag.
    destruct Hcase as [(-> & _ & _ & Hgl) | (-> & Hvbt & Hvwt & Hgl)];
      unfold gl_part, gl_after2, gl_after4 in Hgl; injection Hgl as Hn Hl Ht; simpl.
    - exists [EvNew (gl_next (genv W)); EvNew (gl_next (genv W) + 1)], [vao b; vao w].
      split; [rewrite Ht, <- app_assoc; reflexivity |].
      split; [repeat constructor |]. split; [reflexivity |].
      rewrite Hvb, Hvw, Hn, Hl. split; [| split; [lia | split]].
      + nodup_z.
      + intros h. rewrite !elem_of_cons, elem_of_nil, !elem_of_union, !elem_of_singleton.
        intros [-> | [-> | []]]; (split; [lia | auto]).
      + intros h Hh. rewrite !elem_of_union. auto.
    - exists [EvNew (gl_next (genv W)); EvNew (gl_next (genv W) + 1);
              EvNew (gl_next (genv W) + 1 + 1); EvNew (gl_next (genv W) + 1 + 1 + 1)],
             [vao b; vao w; vao bt; vao wt].
      split; [rewrite Ht, <- !app_assoc; reflexivity |].
      split; [repeat constructor |]. split; [reflexivity |].
      rewrite Hvb, Hvw, Hvbt, Hvwt, Hn, Hl. split; [| split; [lia | split]].
      + nodup_z.
      + intros h. rewrite !elem_of_cons, elem_of_nil, !elem_of_union, !elem_of_singleton.
        intros [-> | [-> | [-> | [-> | []]]]]; (split; [lia | auto 6]).
      + intros h Hh. rewrite !elem_of_union. auto 6. }
  destruct Hgl as (news & hs & Htr & Hnews & Hhs & Hnd & Hnext & Hfresh & Hkeep).
  unfold gen_many. do 3 (split; [reflexivity |]).
  split; [| split; [| split; [| split]]].
  - intros i' j' Hne. apply Hother. exact Hne.
  - intros i' j' [-> ->]. rewrite Hcell.
    exists (building W i j), (windows W i j), (buildingTop W i j), (windowsTop W i j),
           (program W), (genv W), b, w, bt, wt, c, e'. split; [exact Hrun | reflexivity].
  - intros i' j' [-> ->]. unfold W'. simpl. rewrite !grid_set_same, Qeq_bool_flag.
    intros Hflag.
    destruct Hcase as [(_ & -> & -> & _) | (-> & _)]; [auto | discriminate Hflag].
  - exists news. split; [exact Htr | exact Hnews].
  - intros V (Hpos & Hlive & HndV & Hinj) Hdis.
    assert (HVne : forall i' j', V i' j' -> ~ (i' = i /\ j' = j)).
    { intros i' j' Hv [-> ->]. apply (Hdis i j); auto. }
    unfold owns. change (genv W') with e'.
    split; [lia |]. split; [| split].
    + intros i' j' h [Hv | [-> ->]] Hh.
      * rewrite (Hother _ _ (HVne _ _ Hv)) in Hh.
        destruct (Hlive _ _ _ Hv Hh) as [Hl Hr]. split; [apply Hkeep; exact Hl | lia].
      * rewrite Hcell, Hhs in Hh. destruct (Hfresh _ Hh) as [Hr Hl].
        split; [exact Hl | lia].
    + intros i' j' [Hv | [-> ->]].
      * rewrite (Hother _ _ (HVne _ _ Hv)). apply HndV. exact Hv.
      * rewrite Hcell, Hhs. exact Hnd.
    + intros i1 j1 i2 j2 h [Hv | [-> ->]] [Hv' | [-> ->]] H1 H2.
      * rewrite (Hother _ _ (HVne _ _ Hv)) in H1.
        rewrite (Hother _ _ (HVne _ _ Hv')) in H2.
        apply (Hinj i1 j1 i2 j2 h); auto.
      * rewrite (Hother _ _ (HVne _ _ Hv)) in H1. rewrite Hcell, Hhs in H2.
        destruct (Hlive _ _ _ Hv H1). destruct (Hfresh _ H2). lia.
      * rewrite (Hother _ _ (HVne _ _ Hv')) in H2. rewrite Hcell, Hhs in H1.
        destruct (Hlive _ _ _ Hv' H2). destruct (Hfresh _ H1). lia.
      * split; reflexivity.
Qed.

Lemma gen_many_snoc (S : Z -> Z -> Prop) (seed_at : Z -> Z -> Z) (i j : Z)
    (W W1 W2 : World) :
  gen_many S seed_at W W1 ->
  ~ S i j ->
  gen_many (fun i' j' => i' = i /\ j' = j) (fun _ _ => seed_at i j) W1 W2 ->
  gen_many (fun i' j' => S i' j' \/ (i' = i /\ j' = j)) seed_at W W2.
Proof.
  intros (H1 & H2 & H3 & Hout & Hin & Hstale & (n1 & Ht1 & Hn1) & Hown) HnS
         (K1 & K2 & K3 & Kout & Kin & Kstale & (n2 & Ht2 & Hn2) & Kown).
  unfold gen_many.
  split; [congruence |]. split; [congruence |]. split; [congruence |].
  split; [| split; [| split; [| split]]].
  - intros i' j' Hn. rewrite Kout by tauto. apply Hout. tauto.
  - intros i' j' [Hs | [-> ->]].
    + rewrite Kout; [apply Hin; exact Hs |]. intros [-> ->]. contradiction.
    + apply Kin. auto.
  - intros i' j' [Hs | [-> ->]] Hflag.
    + assert (Hne : ~ (i' = i /\ j' = j)) by (intros [-> ->]; contradiction).
      pose proof (Kout i' j' Hne) as Hc. unfold cell in Hc.
      injection Hc as _ _ Hbt Hwt Hx. rewrite Hbt, Hwt. rewrite Hx in Hflag.
      apply Hstale; assumption.
    + destruct (Kstale i j (conj eq_refl eq_refl) Hflag) as [Hbt Hwt].
      pose proof (Hout i j HnS) as Hc. unfold cell in Hc.
      injection Hc as _ _ Hbt' Hwt' _. rewrite Hbt, Hwt. auto.
  - exists (n1 ++ n2). split.
    + rewrite Ht2, Ht1, app_assoc. reflexivity.
    + apply Forall_app. auto.
  - intros V HV Hdis. eapply owns_weaken.
    + apply (Kown (fun i' j' => V i' j' \/ S i' j')).
      * apply Hown; [exact HV |]. intros i' j' Hs. apply Hdis. left. exact Hs.
      * intros i' j' [-> ->] [Hv | Hs]; [| contradiction].
        apply (Hdis i j); [right; auto | exact Hv].
    + intros i' j' [Hv | [Hs | Hij]]; tauto.
Qed.

(** "add new row": the ten cells of window row [j0] are generated from the
    seeds of world depth [depth (shiftBreak W)]. *)
Lemma generate_row_spec (j0 : Z) (depth : Z -> Z) (body : Z -> World -> res World)
    (W : World) :
  (forall n W, body n W = generate_cell n j0 (getSeed n (depth (shiftBreak W))) W) ->
  exists W', for_up 0 10 body W = Ok W' /\
    gen_many (fun i j => 0 <= i < 10 /\ j = j0)
             (fun i _ => getSeed i (depth (shiftBreak W))) W W'.
Proof.
  intros Hbody.
  set (sa := fun (i : Z) (_ : Z) => getSeed i (depth (shiftBreak W))).
  set (I := fun (k : Z) (W1 : World) =>
    gen_many (fun i j => 0 <= i < k /\ j = j0) sa W W1).
  destruct (for_up_inv I 0 10 body W) as (W' & Hrun & HI).
  - lia.
  - eapply gen_many_ext; [apply gen_many_none |]. intros i j. split; [tauto | lia].
  - intros k W1 Hk HI. rewrite Hbody.
    destruct (generate_cell_spec k j0 (getSeed k (depth (shiftBreak W1))) W1)
      as (W2 & Hrun & Hgen).
    exists W2. split; [exact Hrun |].
    assert (Hsb : shiftBreak W1 = shiftBreak W) by (destruct HI as (_ & H & _); exact H).
    rewrite Hsb in Hgen.
    eapply gen_many_ext.
    + apply (gen_many_snoc _ sa k j0 W W1 W2 HI); [lia | exact Hgen].
    + intros i j. simpl. lia.
  - exists W'. split; [exact Hrun | exact HI].
Qed.

(** [init_buildings]: all hundred cells, cell [(i, j)] from the seed of
    lattice coordinate [(i, j)]. *)
Lemma init_buildings_spec (W : World) :
  exists W', init_buildings W = Ok W' /\ gen_many in_grid getSeed W W'.
Proof.
  unfold init_buildings.
  set (Inner := fun (i j : Z) (W1 : World) =>
    gen_many (fun i' j' => (0 <= i' < i /\ 0 <= j' < 10) \/ (i' = i /\ 0 <= j' < j))
             getSeed W W1).
  set (Outer := fun (i : Z) (W1 : World) => Inner i 0 W1).
  destruct (for_up_inv Outer 0 10
              (fun i => for_up 0 10 (fun j W => let seedNum := getSeed i j in
                                               generate_cell i j seedNum W)) W)
    as (W' & Hrun & HI).
  - lia.
  - eapply gen_many_ext; [apply gen_many_none |]. intros i j. split; [tauto | lia].
  - intros i W1 Hi HO.
    destruct (for_up_inv (Inner i) 0 10
                (fun j W => let seedNum := getSeed i j in generate_cell i j seedNum W) W1)
      as (W2 & Hrun2 & HI2).
    + lia.
    + exact HO.
    + intros j W2 Hj HI2. cbv zeta.
      destruct (generate_cell_spec i j (getSeed i j) W2) as (W3 & Hrun3 & Hgen).
      exists W3. split; [exact Hrun3 |].
      eapply gen_many_ext.
      * apply (gen_many_snoc _ getSeed i j W W2 W3 HI2); [lia | exact Hgen].
      * intros i' j'. simpl. lia.
    + exists W2. split; [exact Hrun2 |].
      eapply gen_many_ext; [exact HI2 |]. intros i' j'. simpl. lia.
  - exists W'. split; [exact Hrun |].
    eapply gen_many_ext; [exact HI |]. intros i' j'. unfold in_grid. lia.
Qed.

(** ** One recycle event *)

Definition is_write (ev : event) : Prop := is_assign ev \/ is_new ev.

(** What [addRowFar] and [addRowNear] do to the world: row [jdel] is
    released, every other cell moves from index [src j] to index [j], row
    [jnew] is generated from the seeds of world depth [depth]; in the trace
    the releases come first and every write to the arrays comes after
    them. *)
Definition recycled (marker : event) (jdel jnew : Z) (src : Z -> Z) (depth : Z)
    (W W' : World) : Prop :=
  shift W' = shift W /\ shiftBreak W' = shiftBreak W /\ program W' = program W /\
  (forall i j, in_grid i j -> j <> jnew -> cell W' i j = cell W i (src j)) /\
  (forall i, 0 <= i < 10 -> made_from_seed (cell W' i jnew) (getSeed i depth)) /\
  (forall i, 0 <= i < 10 -> Qeq_bool (isComplex W' i jnew) 1 = false ->
     buildingTop W' i jnew = buildingTop W i jnew /\
     windowsTop W' i jnew = windowsTop W i jnew) /\
  (forall i j, ~ in_grid i j -> cell W' i j = cell W i j) /\
  (exists writes,
     trace (genv W') =
       trace (genv W) ++ [marker] ++ (EvDelete <$> row_handles W jdel 10) ++ writes /\
     Forall is_write writes) /\
  (owns in_grid W -> owns in_grid W').

Lemma elem_of_row_handles (W : World) (j k h : Z) :
  h ∈ row_handles W j k <-> exists n, 0 <= n < k /\ h ∈ cell_handles (cell W n j).
Proof.
  unfold row_handles. rewrite list_elem_of_In, in_concat. split.
  - intros (l & Hl & Hh). apply list_elem_of_In, list_elem_of_fmap in Hl as (n & -> & Hn).
    apply elem_of_seqZ in Hn. exists n. split; [lia | apply list_elem_of_In; exact Hh].
  - intros (n & Hn & Hh). exists (cell_handles (cell W n j)).
    split; [| apply list_elem_of_In; exact Hh].
    apply list_elem_of_In, list_elem_of_fmap. exists n. split; [reflexivity |].
    apply elem_of_seqZ. lia.
Qed.

Lemma owns_same_cells (V : Z -> Z -> Prop) (W W' : World) :
  owns V W ->
  (forall i j, V i j -> cell W' i j = cell W i j) ->
  gl_next (genv W') = gl_next (genv W) ->
  (forall i j h, V i j -> h ∈ cell_handles (cell W i j) -> h ∈ gl_live (genv W')) ->
  owns V W'.
Proof.
  intros (Hn & Hlive & Hnd & Hinj) Hc Hnext Hl'. unfold owns. rewrite Hnext.
  split; [exact Hn |]. split; [| split].
  - intros i j h Hv Hh. rewrite (Hc i j Hv) in Hh. split; [eauto |].
    apply (Hlive i j h Hv Hh).
  - intros i j Hv. rewrite (Hc i j Hv). auto.
  - intros i j i' j' h Hv Hv' Hh Hh'. rewrite (Hc i j Hv) in Hh. rewrite (Hc i' j' Hv') in Hh'.
    apply (Hinj i j i' j' h); auto.
Qed.

Section Recycle.

Variables (marker : event) (jdel jnew : Z) (src depth : Z -> Z).
Variable mv : World -> res World.
Variable gen : Z -> World -> res World.

Hypothesis jdel_range : 0 <= jdel < 10.
Hypothesis jnew_range : 0 <= jnew < 10.
Hypothesis src_range : forall j, 0 <= j < 10 -> j <> jnew -> 0 <= src j < 10 /\ src j <> jdel.
Hypothesis src_inj : forall j j', 0 <= j < 10 -> 0 <= j' < 10 -> src j = src j' -> j = j'.
Hypothesis mv_spec : forall W, exists W', mv W = Ok W' /\ moved_only W W' /\
  (forall i j, cell W' i j =
     if bool_decide (in_grid i j /\ j <> jnew) then cell W i (src j) else cell W i j).
Hypothesis gen_spec : forall n W,
  gen n W = generate_cell n jnew (getSeed n (depth (shiftBreak W))) W.

Lemma recycle_spec (W : World) :
  exists W',
    res_bind (enter marker W) (fun W =>
    res_bind (for_up 0 10 (fun n => delete_cell n jdel) W) (fun W =>
    res_bind (mv W) (fun W => for_up 0 10 gen W))) = Ok W' /\
    recycled marker jdel jnew src (depth (shiftBreak W)) W W'.
Proof.
  unfold enter, emit. simpl.
  set (W0 := with_env W _).
  destruct (delete_row_spec jdel W0) as (e1 & Hrun1 & Hr1 & Hn1 & Hl1 & Ht1).
  rewrite Hrun1. simpl. set (W1 := with_env W0 e1).
  destruct (mv_spec W1) as (W2 & Hrun2 & Hmv & Hcells2).
  rewrite Hrun2. simpl.
  destruct (generate_row_spec jnew depth gen W2 gen_spec) as (W3 & Hrun3 & Hgen).
  rewrite Hrun3. exists W3. split; [reflexivity |].
  destruct Hmv as (M1 & M2 & M3 & M4 & M5 & M6 & assigns & Mt & Massign).
  destruct Hgen as (G1 & G2 & G3 & Gout & Gin & Gstale & (news & Gt & Gnew) & Gown).
  assert (Hrow : row_handles W0 jdel 10 = row_handles W jdel 10) by reflexivity.
  unfold recycled.
  split; [rewrite G1, M1; reflexivity |].
  split; [rewrite G2, M2; reflexivity |].
  split; [rewrite G3, M3; reflexivity |].
  split; [| split; [| split; [| split; [| split]]]].
  - intros i j Hg Hj. rewrite Gout by tauto. rewrite Hcells2.
    rewrite bool_decide_eq_true_2 by tauto. reflexivity.
  - intros i Hi. rewrite M2 in Gin. apply (Gin i jnew). auto.
  - intros i Hi Hflag. destruct (Gstale i jnew (conj Hi eq_refl) Hflag) as [Hbt Hwt].
    pose proof (Hcells2 i jnew) as Hc. rewrite bool_decide_eq_false_2 in Hc by tauto.
    unfold cell in Hc. injection Hc as _ _ Hbt' Hwt' _.
    rewrite Hbt, Hwt, Hbt', Hwt'. auto.
  - intros i j Hg. rewrite Gout by (unfold in_grid in Hg; lia). rewrite Hcells2.
    rewrite bool_decide_eq_false_2 by tauto. reflexivity.
  - exists (assigns ++ news). split.
    + rewrite Gt, Mt. change (genv W1) with e1. rewrite Ht1, Hrow.
      change (trace (genv W0)) with (trace (genv W) ++ [marker]).
      rewrite <- !app_assoc. reflexivity.
    + apply Forall_app. split.
      * eapply Forall_impl; [exact Massign |]. intros ev H. left. exact H.
      * eapply Forall_impl; [exact Gnew |]. intros ev H. right. exact H.
  - intros Hown.
    assert (Hown1 : owns (fun i j => in_grid i j /\ j <> jdel) W1).
    { apply owns_same_cells with (W := W).
      - eapply owns_weaken; [exact Hown |]. tauto.
      - reflexivity.
      - exact Hn1.
      - intros i j h [Hg Hj] Hh. change (genv W1) with e1. rewrite Hl1, Hrow.
        apply elem_of_difference. split.
        + destruct Hown as (_ & Hlive & _). apply (Hlive i j h Hg Hh).
        + rewrite elem_of_list_to_set, elem_of_row_handles. intros (n & Hn & Hh').
          destruct Hown as (_ & _ & _ & Hinj).
          destruct (Hinj i j n jdel h Hg ltac:(unfold in_grid in *; lia) Hh Hh'). lia. }
    assert (Hown2 : owns (fun i j => in_grid i j /\ j <> jnew) W2).
    { destruct Hown1 as (Hp & Hlive & Hnd & Hinj). unfold owns. rewrite M5, M6.
      split; [exact Hp |].
      assert (Hc : forall i j, in_grid i j /\ j <> jnew ->
                cell W2 i j = cell W1 i (src j) /\ in_grid i (src j) /\ src j <> jdel).
      { intros i j [Hg Hj]. rewrite Hcells2, bool_decide_eq_true_2 by tauto.
        split; [reflexivity |]. unfold in_grid in *.
        destruct (src_range j ltac:(lia) Hj). lia. }
      split; [| split].
      - intros i j h Hv Hh. destruct (Hc i j Hv) as (Hce & Hg & Hd). rewrite Hce in Hh.
        apply (Hlive i (src j) h); auto.
      - intros i j Hv. destruct (Hc i j Hv) as (Hce & Hg & Hd). rewrite Hce.
        apply Hnd. auto.
      - intros i j i' j' h Hv Hv' Hh Hh'.
        destruct (Hc i j Hv) as (Hce & Hg & Hd). rewrite Hce in Hh.
        destruct (Hc i' j' Hv') as (Hce' & Hg' & Hd'). rewrite Hce' in Hh'.
        destruct (Hinj i (src j) i' (src j') h) as [Hi Hs]; auto.
        split; [exact Hi |]. unfold in_grid in *. apply src_inj; lia. }
    eapply owns_weaken.
    + apply (Gown _ Hown2). intros i j [Hi ->] [_ Hne]. contradiction.
    + intros i j Hg. destruct (decide (j = jnew)) as [-> | Hne].
      * right. unfold in_grid in Hg. lia.
      * left. auto.
Qed.

End Recycle.

Lemma addRowFar_spec (W : World) :
  exists W', addRowFar W = Ok W' /\
    recycled EvRowFar 0 9 (fun j => j + 1) (9 - shiftBreak W) W W'.
Proof.
  unfold addRowFar.
  apply (recycle_spec EvRowFar 0 9 (fun j => j + 1) (fun sb => 9 - sb)).
  - lia.
  - lia.
  - intros j Hj Hne. lia.
  - intros j j' _ _ H. lia.
  - intros W1. destruct (move_back_spec W1) as (W2 & Hrun & Hmv & Hc).
    exists W2. split; [exact Hrun |]. split; [exact Hmv |].
    intros i j. rewrite Hc. unfold in_grid. repeat case_bool_decide; try reflexivity; lia.
  - reflexivity.
Qed.

Lemma addRowNear_spec (W : World) :
  exists W', addRowNear W = Ok W' /\
    recycled EvRowNear 9 0 (fun j => j - 1) (- shiftBreak W) W W'.
Proof.
  unfold addRowNear.
  apply (recycle_spec EvRowNear 9 0 (fun j => j - 1) (fun sb => - sb)).
  - lia.
  - lia.
  - intros j Hj Hne. lia.
  - intros j j' _ _ H. lia.
  - intros W1. destruct (move_forward_spec W1) as (W2 & Hrun & Hmv & Hc).
    exists W2. split; [exact Hrun |]. split; [exact Hmv |].
    intros i j. rewrite Hc. unfold in_grid. repeat case_bool_decide; try reflexivity; lia.
  - reflexivity.
Qed.

(** ** One update: the row check of [display] *)

(** What one execution of lines 1028-1037 does, by the position of
    [floor shift] relative to [shiftBreak]. *)
Definition updated (W W' : World) : Prop :=
  let boundary := Qfloor (shift W) in
  if decide (boundary < shiftBreak W) then
    recycled EvRowFar 0 9 (fun j => j + 1) (9 - boundary) (with_shiftBreak W boundary) W'
  else if decide (boundary > shiftBreak W) then
    recycled EvRowNear 9 0 (fun j => j - 1) (- boundary) (with_shiftBreak W boundary) W'
  else W' = W.

Lemma load_row_spec (W : World) :
  exists W', load_row W = Ok W' /\ updated W W'.
Proof.
  unfold load_row, updated. cbv zeta.
  destruct (decide (Qfloor (shift W) < shiftBreak W)) as [Hlt | Hge].
  - rewrite bool_decide_eq_true_2 by exact Hlt.
    apply (addRowFar_spec (with_shiftBreak W (Qfloor (shift W)))).
  - rewrite bool_decide_eq_false_2 by exact Hge.
    destruct (decide (Qfloor (shift W) > shiftBreak W)) as [Hgt | Hle].
    + rewrite bool_decide_eq_true_2 by exact Hgt.
      apply (addRowNear_spec (with_shiftBreak W (Qfloor (shift W)))).
    + rewrite bool_decide_eq_false_2 by exact Hle. exists W. auto.
Qed.

Lemma updated_scalars (W W' : World) :
  updated W W' ->
  shift W' = shift W /\ shiftBreak W' = Qfloor (shift W) /\ program W' = program W.
Proof.
  unfold updated. cbv zeta. intros H.
  destruct (decide (Qfloor (shift W) < shiftBreak W)).
  - destruct H as (H1 & H2 & H3 & _). auto.
  - destruct (decide (Qfloor (shift W) > shiftBreak W)).
    + destruct H as (H1 & H2 & H3 & _). auto.
    + subst W'. repeat split. lia.
Qed.

Lemma load_row_idle (W : World) :
  shiftBreak W = Qfloor (shift W) -> load_row W = Ok W.
Proof.
  intros H. unfold load_row. rewrite !bool_decide_eq_false_2 by lia. reflexivity.
Qed.

(** The viewport loop repeats the check, but after its first run
    [shiftBreak] equals [floor shift] and the other runs do nothing. *)
Lemma display_spec (num_viewports : Z) (W : World) :
  1 <= num_viewports ->
  exists W', display num_viewports W = Ok W' /\ updated W W'.
Proof.
  intros Hnv. destruct (load_row_spec W) as (W1 & Hrun & Hup).
  pose proof (updated_scalars W W1 Hup) as (Hs & Hb & _).
  set (I := fun (k : Z) (W' : World) => (k = 0 /\ W' = W) \/ (1 <= k /\ W' = W1)).
  destruct (for_up_inv I 0 num_viewports (fun _ => load_row) W) as (W' & Hrun' & HI).
  - lia.
  - left. auto.
  - intros k W2 Hk [[-> ->] | [Hk1 ->]].
    + exists W1. split; [exact Hrun |]. right. split; [lia | reflexivity].
    + exists W1. split; [apply load_row_idle; congruence |]. right. split; [lia | reflexivity].
  - destruct HI as [[-> _] | [_ ->]]; [lia |]. exists W1. auto.
Qed.

Lemma display_none (num_viewports : Z) (W : World) :
  num_viewports <= 0 -> display num_viewports W = Ok W.
Proof.
  intros H. unfold display, for_up, seqZ.
  replace (Z.to_nat (num_viewports - 0)) with 0%nat by lia. reflexivity.
Qed.

(** ** Counting recycle events *)

Definition is_recycle (ev : event) : bool :=
  match ev with
  | EvRowFar | EvRowNear => true
  | _ => false
  end.

(** The number of times [addRowFar] or [addRowNear] has run. *)
Definition recycle_count (W : World) : nat :=
  length (filter (fun ev => is_recycle ev = true) (trace (genv W))).

Lemma filter_none {A} (P : A -> Prop) `{forall x, Decision (P x)} (l : list A) :
  Forall (fun x => ~ P x) l -> filter P l = [].
Proof.
  induction 1 as [| x l Hx Hl IH]; [reflexivity |].
  rewrite filter_cons_False by exact Hx. exact IH.
Qed.

Lemma recycled_count (marker : event) (jdel jnew : Z) (src : Z -> Z) (depth : Z)
    (W W' : World) :
  is_recycle marker = true ->
  recycled marker jdel jnew src depth W W' ->
  recycle_count W' = S (recycle_count W).
Proof.
  intros Hm (_ & _ & _ & _ & _ & _ & _ & (writes & Ht & Hw) & _).
  unfold recycle_count. rewrite Ht, !filter_app, !length_app.
  rewrite (filter_cons_True _ marker) by exact Hm. rewrite filter_nil.
  rewrite (filter_none _ (EvDelete <$> _)).
  2: { apply Forall_fmap. apply Forall_true. intros h. simpl. discriminate. }
  rewrite (filter_none _ writes).
  2: { eapply Forall_impl; [exact Hw |]. intros ev [Ha | Hn]; destruct ev; simpl in *;
       try contradiction; discriminate. }
  simpl. lia.
Qed.

(** One update fires one recycle event when [floor shift] differs from
    [shiftBreak], whatever the distance, and none otherwise. *)
Lemma updated_count (W W' : World) :
  updated W W' ->
  recycle_count W' =
  (recycle_count W + if decide (Qfloor (shift W) = shiftBreak W) then 0 else 1)%nat.
Proof.
  unfold updated. cbv zeta. intros H.
  destruct (decide (Qfloor (shift W) < shiftBreak W)).
  - rewrite (recycled_count EvRowFar _ _ _ _ _ _ eq_refl H).
    rewrite decide_False by lia. unfold recycle_count. simpl. lia.
  - destruct (decide (Qfloor (shift W) > shiftBreak W)).
    + rewrite (recycled_count EvRowNear _ _ _ _ _ _ eq_refl H).
      rewrite decide_False by lia. unfold recycle_count. simpl. lia.
    + subst W'. rewrite decide_True by lia. lia.
Qed.

(** ** Keys and turns of the main loop *)

Definition key_shift (x : Q) (k : key) : Q :=
  match k with
  | KEY_SPACE => (x - 0.1)%Q
  | KEY_B => (x + 0.1)%Q
  | KEY_OTHER => x
  end.

Definition press (keys : list key) (W : World) : World :=
  foldl (fun W k => keyboard k W) W keys.

Lemma press_spec (keys : list key) (W : World) :
  press keys W = with_shift W (foldl key_shift (shift W) keys).
Proof.
  unfold press. revert W. induction keys as [| k keys IH]; intros W; simpl.
  - destruct W; reflexivity.
  - rewrite IH. destruct k; reflexivity.
Qed.

Lemma frame_spec (num_viewports : Z) (keys : list key) (W : World) :
  1 <= num_viewports ->
  exists W1, updated W W1 /\
    frame num_viewports keys W = Ok (with_shift W1 (foldl key_shift (shift W) keys)).
Proof.
  intros Hnv. destruct (display_spec num_viewports W Hnv) as (W1 & Hrun & Hup).
  exists W1. split; [exact Hup |]. unfold frame. rewrite Hrun. simpl.
  fold (press keys W1). rewrite press_spec.
  destruct (updated_scalars W W1 Hup) as (-> & _). reflexivity.
Qed.

Lemma main_loop_app (num_viewports : Z) (t1 t2 : list (list key)) (W : World) :
  main_loop num_viewports (t1 ++ t2) W =
  res_bind (main_loop num_viewports t1 W) (main_loop num_viewports t2).
Proof.
  revert W. induction t1 as [| keys t1 IH]; intros W; simpl; [reflexivity |].
  destruct (frame num_viewports keys W); simpl; auto.
Qed.

(** ** Invariants of the grid *)

(** Window index [j] shows world depth [j - shiftBreak]: every cell is the
    building of its lattice coordinate. *)
Definition seeded (W : World) : Prop :=
  forall i j, in_grid i j -> made_from_seed (cell W i j) (getSeed i (j - shiftBreak W)).

(** All hundred cells are generated buildings and answer for objects that
    exist, each object for one cell only. *)
Definition complete (W : World) : Prop :=
  owns in_grid W /\
  forall i j, in_grid i j -> exists seed, made_from_seed (cell W i j) seed.

Lemma owns_nothing (W : World) : 0 < gl_next (genv W) -> owns (fun _ _ => False) W.
Proof.
  intros H. unfold owns. split; [exact H |]. split; [| split].
  - intros i j h [].
  - intros i j [].
  - intros i j i' j' h [].
Qed.

Lemma init_buildings_ok (prog : Z) :
  exists W0, init_buildings (world_start prog) = Ok W0 /\
    shift W0 = 0%Q /\ shiftBreak W0 = 0 /\ program W0 = prog /\
    seeded W0 /\ complete W0 /\ recycle_count W0 = 0%nat.
Proof.
  destruct (init_buildings_spec (world_start prog))
    as (W0 & Hrun & Hs & Hb & Hp & Hout & Hin & _ & (news & Ht & Hn) & Hown).
  exists W0. split; [exact Hrun |]. split; [exact Hs |]. split; [exact Hb |].
  split; [exact Hp |]. split; [| split; [split |]].
  - intros i j Hg. rewrite Hb. simpl. replace (j - 0) with j by lia. apply Hin. exact Hg.
  - eapply owns_weaken.
    + apply (Hown (fun _ _ => False)); [apply owns_nothing; reflexivity |].
      intros i j _ [].
    + intros i j Hg. right. exact Hg.
  - intros i j Hg. exists (getSeed i j). apply Hin. exact Hg.
  - unfold recycle_count. rewrite Ht. simpl.
    rewrite filter_none; [reflexivity |].
    eapply Forall_impl; [exact Hn |]. intros ev H. destruct ev; simpl in *;
      try contradiction; discriminate.
Qed.

Lemma updated_complete (W W' : World) : complete W -> updated W W' -> complete W'.
Proof.
  intros [Hown Hmade]. unfold updated. cbv zeta. intros H.
  assert (Hrec : forall marker jdel jnew src depth,
            0 <= jnew < 10 ->
            (forall j, 0 <= j < 10 -> j <> jnew -> 0 <= src j < 10) ->
            recycled marker jdel jnew src depth
              (with_shiftBreak W (Qfloor (shift W))) W' -> complete W').
  { intros marker jdel jnew src depth Hjn Hsrc
           (_ & _ & _ & Hmove & Hnew & _ & _ & _ & Hown').
    split; [apply Hown'; exact Hown |].
    intros i j Hg. destruct (decide (j = jnew)) as [-> | Hne].
    - exists (getSeed i depth). apply Hnew. unfold in_grid in Hg. lia.
    - rewrite (Hmove i j Hg Hne). apply Hmade.
      unfold in_grid in *. specialize (Hsrc j ltac:(lia) Hne). lia. }
  destruct (decide (Qfloor (shift W) < shiftBreak W)).
  - apply (Hrec EvRowFar 0 9 (fun j => j + 1) _ ltac:(lia) ltac:(intros; lia) H).
  - destruct (decide (Qfloor (shift W) > shiftBreak W)).
    + apply (Hrec EvRowNear 9 0 (fun j => j - 1) _ ltac:(lia) ltac:(intros; lia) H).
    + subst W'. split; assumption.
Qed.

(** An update that crosses at most one boundary keeps every cell on its
    lattice coordinate. *)
Lemma updated_seeded (W W' : World) :
  seeded W -> -1 <= Qfloor (shift W) - shiftBreak W <= 1 -> updated W W' -> seeded W'.
Proof.
  intros Hseed Hnear Hup.
  destruct (updated_scalars W W' Hup) as (_ & Hb & _).
  unfold updated in Hup. cbv zeta in Hup. unfold seeded. rewrite Hb.
  destruct (decide (Qfloor (shift W) < shiftBreak W)).
  - destruct Hup as (_ & _ & _ & Hmove & Hnew & _).
    intros i j Hg. destruct (decide (j = 9)) as [-> | Hne].
    + apply Hnew. unfold in_grid in Hg. lia.
    + rewrite (Hmove i j Hg Hne). change (cell (with_shiftBreak W _) i (j + 1))
        with (cell W i (j + 1)).
      replace (j - Qfloor (shift W)) with (j + 1 - shiftBreak W) by lia.
      apply Hseed. unfold in_grid in *. lia.
  - destruct (decide (Qfloor (shift W) > shiftBreak W)).
    + destruct Hup as (_ & _ & _ & Hmove & Hnew & _).
      intros i j Hg. destruct (decide (j = 0)) as [-> | Hne].
      * replace (0 - Qfloor (shift W)) with (- Qfloor (shift W)) by lia.
        apply Hnew. unfold in_grid in Hg. lia.
      * rewrite (Hmove i j Hg Hne). change (cell (with_shiftBreak W _) i (j - 1))
          with (cell W i (j - 1)).
        replace (j - Qfloor (shift W)) with (j - 1 - shiftBreak W) by lia.
        apply Hseed. unfold in_grid in *. lia.
    + subst W'. replace (Qfloor (shift W)) with (shiftBreak W) by lia. exact Hseed.
Qed.

Lemma with_shift_seeded (W : World) (x : Q) : seeded W -> seeded (with_shift W x).
Proof. intros H. exact H. Qed.

Lemma with_shift_complete (W : World) (x : Q) : complete W -> complete (with_shift W x).
Proof. intros H. exact H. Qed.

Lemma Qfloor_step (x y : Q) :
  (x - 0.1 <= y)%Q -> (y <= x + 0.1)%Q -> -1 <= Qfloor y - Qfloor x <= 1.
Proof.
  intros Hlo Hhi.
  pose proof (Qfloor_le x) as Hx1. pose proof (Qlt_floor x) as Hx2.
  pose proof (Qfloor_le y) as Hy1. pose proof (Qlt_floor y) as Hy2.
  rewrite inject_Z_plus in Hx2, Hy2. change (inject_Z 1) with 1%Q in Hx2, Hy2.
  assert (H1 : (inject_Z (Qfloor y) < inject_Z (Qfloor x + 2))%Q).
  { rewrite inject_Z_plus. change (inject_Z 2) with 2%Q. lra. }
  assert (H2 : (inject_Z (Qfloor x) < inject_Z (Qfloor y + 2))%Q).
  { rewrite inject_Z_plus. change (inject_Z 2) with 2%Q. lra. }
  rewrite <- Zlt_Qlt in H1, H2. lia.
Qed.

Lemma key_shift_small (x : Q) (keys : list key) :
  (length keys <= 1)%nat ->
  (x - 0.1 <= foldl key_shift x keys)%Q /\ (foldl key_shift x keys <= x + 0.1)%Q.
Proof.
  intros Hlen. destruct keys as [| k [| k' keys]]; simpl in *; [| | lia].
  - split; lra.
  - destruct k; simpl; split; lra.
Qed.

(** ** Travel *)

(** The viewer's position after the keys of the given turns. *)
Definition net_shift (turns : list (list key)) (x : Q) : Q :=
  foldl (foldl key_shift) x turns.

(** The number of updates that find [floor shift] different from
    [shiftBreak], and the value of [shiftBreak] at the end, when the main
    loop runs the given turns from position [x] and boundary [sb]. *)
Fixpoint count_updates (turns : list (list key)) (x : Q) (sb : Z) : nat :=
  match turns with
  | [] => 0%nat
  | keys :: turns' =>
      ((if decide (Qfloor x = sb) then 0 else 1) +
       count_updates turns' (foldl key_shift x keys) (Qfloor x))%nat
  end.

Fixpoint final_break (turns : list (list key)) (x : Q) (sb : Z) : Z :=
  match turns with
  | [] => sb
  | keys :: turns' => final_break turns' (foldl key_shift x keys) (Qfloor x)
  end.

(** The main loop never faults; it fires one recycle event per update that
    finds [floor shift] different from [shiftBreak]. *)
Lemma main_loop_count (num_viewports : Z) (turns : list (list key)) :
  1 <= num_viewports ->
  forall W, exists W',
    main_loop num_viewports turns W = Ok W' /\
    shift W' = net_shift turns (shift W) /\
    shiftBreak W' = final_break turns (shift W) (shiftBreak W) /\
    program W' = program W /\
    recycle_count W' = (recycle_count W + count_updates turns (shift W) (shiftBreak W))%nat.
Proof.
  intros Hnv. induction turns as [| keys turns IH]; intros W.
  - exists W. simpl. repeat split. lia.
  - destruct (frame_spec num_viewports keys W Hnv) as (W1 & Hup & Hrun).
    destruct (updated_scalars W W1 Hup) as (Hs & Hb & Hp).
    pose proof (updated_count W W1 Hup) as Hc.
    destruct (IH (with_shift W1 (foldl key_shift (shift W) keys)))
      as (W' & Hrun' & Hs' & Hb' & Hp' & Hc').
    exists W'. simpl. rewrite Hrun. simpl. split; [exact Hrun' |].
    simpl in Hs', Hb', Hp', Hc'. rewrite Hb in Hb'. rewrite Hp in Hp'.
    split; [exact Hs' |]. split; [exact Hb' |]. split; [exact Hp' |].
    change (recycle_count (with_shift W1 (foldl key_shift (shift W) keys)))
      with (recycle_count W1) in Hc'.
    rewrite Hc', Hc, Hb. lia.
Qed.

(** Turns with at most one key each: the viewer moves by 0.1 at most
    between two updates. *)
Definition gentle (turns : list (list key)) : Prop :=
  Forall (fun keys => (length keys <= 1)%nat) turns.

Lemma main_loop_gentle (num_viewports : Z) (turns : list (list key)) :
  1 <= num_viewports -> gentle turns ->
  forall W, seeded W -> -1 <= Qfloor (shift W) - shiftBreak W <= 1 ->
  exists W',
    main_loop num_viewports turns W = Ok W' /\
    seeded W' /\ -1 <= Qfloor (shift W') - shiftBreak W' <= 1 /\
    shift W' = net_shift turns (shift W).
Proof.
  intros Hnv Hg. induction Hg as [| keys turns Hk Hg IH]; intros W Hseed Hnear.
  - exists W. simpl. auto.
  - destruct (frame_spec num_viewports keys W Hnv) as (W1 & Hup & Hrun).
    destruct (updated_scalars W W1 Hup) as (Hs & Hb & Hp).
    pose proof (updated_seeded W W1 Hseed Hnear Hup) as Hseed1.
    destruct (key_shift_small (shift W) keys Hk) as [Hlo Hhi].
    destruct (IH (with_shift W1 (foldl key_shift (shift W) keys)))
      as (W' & Hrun' & Hseed' & Hnear' & Hs').
    + exact Hseed1.
    + simpl. rewrite Hb. apply Qfloor_step; assumption.
    + exists W'. simpl. rewrite Hrun. simpl. auto.
Qed.

(** A turn without keys brings [shiftBreak] to [floor shift]. *)
Lemma main_loop_settle (num_viewports : Z) (W : World) :
  1 <= num_viewports -> seeded W -> -1 <= Qfloor (shift W) - shiftBreak W <= 1 ->
  exists W',
    main_loop num_viewports [[]] W = Ok W' /\
    seeded W' /\ shift W' = shift W /\ shiftBreak W' = Qfloor (shift W).
Proof.
  intros Hnv Hseed Hnear.
  destruct (frame_spec num_viewports [] W Hnv) as (W1 & Hup & Hrun).
  destruct (updated_scalars W W1 Hup) as (Hs & Hb & Hp).
  eexists. simpl. rewrite Hrun. simpl. split; [reflexivity |].
  split; [apply (updated_seeded W W1 Hseed Hnear Hup) |]. simpl. auto.
Qed.

Lemma net_shift_app (t1 t2 : list (list key)) (x : Q) :
  net_shift (t1 ++ t2) x = net_shift t2 (net_shift t1 x).
Proof. unfold net_shift. apply foldl_app. Qed.

Lemma net_shift_B (n : nat) (x : Q) :
  (net_shift (replicate n [KEY_B]) x == x + inject_Z (Z.of_nat n) * 0.1)%Q.
Proof.
  revert x. induction n as [| n IH]; intros x.
  - simpl. change (inject_Z 0) with 0%Q. ring.
  - change (net_shift (replicate (S n) [KEY_B]) x)
      with (net_shift (replicate n [KEY_B]) (x + 0.1)%Q).
    rewrite IH, Nat2Z.inj_succ. unfold Z.succ. rewrite inject_Z_plus.
    change (inject_Z 1) with 1%Q. ring.
Qed.

Lemma net_shift_SPACE (n : nat) (x : Q) :
  (net_shift (replicate n [KEY_SPACE]) x == x - inject_Z (Z.of_nat n) * 0.1)%Q.
Proof.
  revert x. induction n as [| n IH]; intros x.
  - simpl. change (inject_Z 0) with 0%Q. ring.
  - change (net_shift (replicate (S n) [KEY_SPACE]) x)
      with (net_shift (replicate n [KEY_SPACE]) (x - 0.1)%Q).
    rewrite IH, Nat2Z.inj_succ. unfold Z.succ. rewrite inject_Z_plus.
    change (inject_Z 1) with 1%Q. ring.
Qed.

Lemma gentle_replicate (n : nat) (k : key) : gentle (replicate n [k]).
Proof. unfold gentle. apply Forall_replicate. simpl. lia. Qed.

(** Ten key presses per lattice unit, one per turn, and a last turn that
    draws the final position. *)
Definition advance (k : nat) : list (list key) := replicate (10 * k) [KEY_B] ++ [[]].
Definition retreat (k : nat) : list (list key) := replicate (10 * k) [KEY_SPACE] ++ [[]].

Lemma travel_spec (num_viewports : Z) (n : nat) (key1 : key) (W : World) :
  1 <= num_viewports -> seeded W -> shiftBreak W = Qfloor (shift W) ->
  exists W',
    main_loop num_viewports (replicate n [key1] ++ [[]]) W = Ok W' /\
    seeded W' /\ shift W' = net_shift (replicate n [key1]) (shift W) /\
    shiftBreak W' = Qfloor (shift W').
Proof.
  intros Hnv Hseed Hset.
  destruct (main_loop_gentle num_viewports (replicate n [key1]) Hnv
              (gentle_replicate n key1) W Hseed ltac:(lia))
    as (W1 & Hrun1 & Hseed1 & Hnear1 & Hs1).
  destruct (main_loop_settle num_viewports W1 Hnv Hseed1 Hnear1)
    as (W2 & Hrun2 & Hseed2 & Hs2 & Hb2).
  exists W2. rewrite main_loop_app, Hrun1. simpl res_bind.
  split; [exact Hrun2 |]. split; [exact Hseed2 |].
  split; [congruence |]. congruence.
Qed.

(** Two cells generated from the same seed. *)
Definition cell_same (c1 c2 : cell_t) : Prop :=
  let '(b1, w1, bt1, wt1, x1) := c1 in
  let '(b2, w2, bt2, wt2, x2) := c2 in
  same_mesh b1 b2 /\ same_mesh w1 w2 /\ x1 = x2 /\
  (x1 = 1%Q -> same_mesh bt1 bt2 /\ same_mesh wt1 wt2).

Lemma made_from_seed_same (c1 c2 : cell_t) (seed : Z) :
  made_from_seed c1 seed -> made_from_seed c2 seed -> cell_same c1 c2.
Proof.
  intros (b0 & w0 & bt0 & wt0 & prog & e & b & w & bt & wt & x & e' & Hrun & ->)
         (b0' & w0' & bt0' & wt0' & prog' & f & b' & w' & bt' & wt' & x' & f' & Hrun' & ->).
  pose proof (init_geometryBuilding_rel b0 w0 bt0 wt0 b0' w0' bt0' wt0' prog prog' seed e f)
    as Hrel.
  rewrite Hrun, Hrun' in Hrel. destruct Hrel as (Hb & Hw & Hx & Htop).
  unfold cell_same. split; [exact Hb |]. split; [exact Hw |]. split; [congruence |].
  intros H1. apply Htop.
  unfold inject_Z in H1. injection H1 as H1. exact H1.
Qed.

(** * The claims *)

(** ** C2: world persistence *)


(** ** C1: one recycle event per boundary crossed *)

(** The part of C1 that holds: ten presses of B, one per turn, add up to
    one lattice unit and fire one recycle event. *)
Lemma sub_integer_deltas_fire_once (prog : Z) (num_viewports : positive) :
  exists W0 W1,
    init_buildings (world_start prog) = Ok W0 /\
    main_loop (Z.pos num_viewports) (replicate 10 [KEY_B] ++ [[]]) W0 = Ok W1 /\
    (shift W1 == 1)%Q /\ shiftBreak W1 = 1 /\ recycle_count W1 = 1%nat.
Proof.
  destruct (init_buildings_ok prog) as (W0 & Hinit & Hs0 & Hb0 & _ & _ & _ & Hc0).
  destruct (main_loop_count (Z.pos num_viewports) (replicate 10 [KEY_B] ++ [[]])
              ltac:(lia) W0) as (W1 & Hrun & Hs & Hb & _ & Hc).
  exists W0, W1. split; [exact Hinit |]. split; [exact Hrun |].
  rewrite Hs0, Hb0 in *. rewrite Hs, Hb, Hc, Hc0.
  split; [| split]; vm_compute; reflexivity.
Qed.

(** C1 at the failing input.  Twenty-six presses of B delivered in one turn
    move the viewer by 2.6, across the boundaries 1 and 2.  The next update
    sets [shiftBreak] to 2 and fires one recycle event, not two: the grid is
    shifted by one row only, so the building of world depth 0 now stands at
    window index 1, which [display] draws at depth [1 - 2 = -1]. *)
Theorem single_delta_across_two_boundaries (prog : Z) (num_viewports : positive) :
  exists W0 W1 W2,
    init_buildings (world_start prog) = Ok W0 /\
    frame (Z.pos num_viewports) (replicate 26 KEY_B) W0 = Ok W1 /\
    (shift W1 == 2.6)%Q /\ shiftBreak W1 = 0 /\
    display (Z.pos num_viewports) W1 = Ok W2 /\
    shiftBreak W2 = 2 /\
    recycle_count W2 = S (recycle_count W1) /\
    forall i, 0 <= i < 10 -> made_from_seed (cell W2 i 1) (getSeed i 0).
Proof.
  destruct (init_buildings_ok prog) as (W0 & Hinit & Hs0 & Hb0 & _ & Hseed0 & _).
  assert (Hnv : 1 <= Z.pos num_viewports) by lia.
  destruct (frame_spec (Z.pos num_viewports) (replicate 26 KEY_B) W0 Hnv)
    as (W0' & Hup0 & Hrun1).
  assert (HW0' : W0' = W0).
  { unfold updated in Hup0. rewrite Hs0, Hb0 in Hup0. exact Hup0. }
  subst W0'. rewrite Hs0 in Hrun1.
  set (W1 := with_shift W0 (foldl key_shift 0%Q (replicate 26 KEY_B))) in *.
  destruct (display_spec (Z.pos num_viewports) W1 Hnv) as (W2 & Hrun2 & Hup).
  pose proof (updated_count W1 W2 Hup) as Hc.
  destruct (updated_scalars W1 W2 Hup) as (_ & Hb2 & _).
  assert (Hfl : Qfloor (shift W1) = 2) by (vm_compute; reflexivity).
  exists W0, W1, W2. split; [exact Hinit |]. split; [exact Hrun1 |].
  split; [vm_compute; reflexivity |]. split; [exact Hb0 |]. split; [exact Hrun2 |].
  split; [congruence |]. split.
  - rewrite Hc, Hfl. change (shiftBreak W1) with (shiftBreak W0). rewrite Hb0.
    rewrite decide_False by lia. lia.
  - intros i Hi. unfold updated in Hup. cbv zeta in Hup. rewrite Hfl in Hup.
    change (shiftBreak W1) with (shiftBreak W0) in Hup. rewrite Hb0 in Hup.
    rewrite decide_False in Hup by lia. rewrite decide_True in Hup by lia.
    destruct Hup as (_ & _ & _ & Hmove & _).
    rewrite (Hmove i 1) by (unfold in_grid; lia).
    change (cell (with_shiftBreak W1 2) i (1 - 1)) with (cell W0 i 0).
    pose proof (Hseed0 i 0 ltac:(unfold in_grid; lia)) as H0.
    rewrite Hb0 in H0. exact H0.
Qed.

(** ** C5: the steps of a recycle event *)



(** ** C6: grid completeness and the second-tier slots *)

(** A geometry slot is present when an object has been created in it; the
    zero-initialised statics are not. *)
Definition present (g : kuhl_geometry) : Prop := vao g <> 0.

(** C6 as the claim states it: the second-tier slots are present exactly in
    the cells whose flag is set. *)
Definition tier2_iff_flag (W : World) : Prop :=
  forall i j, in_grid i j ->
    (present (buildingTop W i j) /\ present (windowsTop W i j) <->
     Qeq_bool (isComplex W i j) 1 = true).

(** What the code keeps: a cell whose flag is set has both second-tier
    objects, and they exist. *)
Definition tier2_if_flag (W : World) : Prop :=
  forall i j, in_grid i j -> Qeq_bool (isComplex W i j) 1 = true ->
    present (buildingTop W i j) /\ present (windowsTop W i j) /\
    vao (buildingTop W i j) ∈ gl_live (genv W) /\
    vao (windowsTop W i j) ∈ gl_live (genv W).

(** Every cell has its shell and its windows, and they exist. *)
Definition populated (W : World) : Prop :=
  forall i j, in_grid i j ->
    present (building W i j) /\ present (windows W i j) /\
    vao (building W i j) ∈ gl_live (genv W) /\
    vao (windows W i j) ∈ gl_live (genv W).

(** An update leaves the trace alone or appends one recycle event, whose
    releases (shell, windows and, for the cells whose flag is set, the
    second tier) all come before its writes to the arrays. *)
Definition released_first (W W' : World) : Prop :=
  trace (genv W') = trace (genv W) \/
  exists marker jdel writes,
    (marker = EvRowFar /\ jdel = 0 \/ marker = EvRowNear /\ jdel = 9) /\
    trace (genv W') =
      trace (genv W) ++ [marker] ++ (EvDelete <$> row_handles W jdel 10) ++ writes /\
    Forall is_write writes.

Lemma complete_populated (W : World) : complete W -> populated W.
Proof.
  intros [(_ & Hlive & _) _] i j Hg.
  assert (Hb : vao (building W i j) ∈ cell_handles (cell W i j)).
  { unfold cell, cell_handles. apply elem_of_app. left. apply list_elem_of_here. }
  assert (Hw : vao (windows W i j) ∈ cell_handles (cell W i j)).
  { unfold cell, cell_handles. apply elem_of_app. left.
    apply list_elem_of_further, list_elem_of_here. }
  destruct (Hlive i j _ Hg Hb) as [Hb1 Hb2]. destruct (Hlive i j _ Hg Hw) as [Hw1 Hw2].
  unfold present. repeat split; auto; lia.
Qed.

Lemma complete_tier2 (W : World) : complete W -> tier2_if_flag W.
Proof.
  intros [(_ & Hlive & _) _] i j Hg Hflag.
  assert (Hb : vao (buildingTop W i j) ∈ cell_handles (cell W i j)).
  { unfold cell, cell_handles. rewrite Hflag. apply elem_of_app. right.
    apply list_elem_of_here. }
  assert (Hw : vao (windowsTop W i j) ∈ cell_handles (cell W i j)).
  { unfold cell, cell_handles. rewrite Hflag. apply elem_of_app. right.
    apply list_elem_of_further, list_elem_of_here. }
  destruct (Hlive i j _ Hg Hb) as [Hb1 Hb2]. destruct (Hlive i j _ Hg Hw) as [Hw1 Hw2].
  unfold present. repeat split; auto; lia.
Qed.

Lemma display_any (num_viewports : Z) (W : World) :
  exists W', display num_viewports W = Ok W' /\ (W' = W \/ updated W W').
Proof.
  destruct (Z_lt_le_dec num_viewports 1) as [Hlt | Hge].
  - exists W. split; [apply display_none; lia | left; reflexivity].
  - destruct (display_spec num_viewports W Hge) as (W' & Hrun & Hup).
    exists W'. auto.
Qed.

Lemma updated_released_first (W W' : World) : updated W W' -> released_first W W'.
Proof.
  unfold updated. cbv zeta. intros H.
  destruct (decide (Qfloor (shift W) < shiftBreak W)).
  - destruct H as (_ & _ & _ & _ & _ & _ & _ & (writes & Ht & Hw) & _).
    right. exists EvRowFar, 0, writes. split; [left; auto |]. split; [exact Ht | exact Hw].
  - destruct (decide (Qfloor (shift W) > shiftBreak W)).
    + destruct H as (_ & _ & _ & _ & _ & _ & _ & (writes & Ht & Hw) & _).
      right. exists EvRowNear, 9, writes. split; [right; auto |].
      split; [exact Ht | exact Hw].
    + subst W'. left. reflexivity.
Qed.

Lemma main_loop_complete (num_viewports : Z) (turns : list (list key)) :
  forall W, complete W ->
  exists W', main_loop num_viewports turns W = Ok W' /\ complete W'.
Proof.
  induction turns as [| keys turns IH]; intros W Hc.
  - exists W. auto.
  - destruct (display_any num_viewports W) as (W1 & Hrun & Hcase).
    assert (Hc1 : complete W1).
    { destruct Hcase as [-> | Hup]; [exact Hc | apply (updated_complete W W1 Hc Hup)]. }
    destruct (IH (press keys W1)) as (W' & Hrun' & Hc').
    { rewrite press_spec. exact Hc1. }
    exists W'. simpl. unfold frame. rewrite Hrun. simpl. auto.
Qed.

(** After [init_buildings] the claim's equivalence does hold: the
    second-tier slots of a one-tier cell are still the zero-initialised
    statics. *)
Lemma init_tier2_iff (prog : Z) (W0 : World) :
  init_buildings (world_start prog) = Ok W0 -> tier2_iff_flag W0.
Proof.
  intros Hinit.
  destruct (init_buildings_spec (world_start prog))
    as (W0' & Hrun & _ & _ & _ & _ & _ & Hstale & _).
  destruct (init_buildings_ok prog) as (W0'' & Hrun' & _ & _ & _ & _ & Hc & _).
  assert (W0' = W0) by congruence. assert (W0'' = W0) by congruence. subst W0' W0''.
  intros i j Hg. split.
  - intros [Hb _]. destruct (Qeq_bool (isComplex W0 i j) 1) eqn:Hflag; [reflexivity |].
    destruct (Hstale i j Hg Hflag) as [Hbt _]. unfold present in Hb.
    rewrite Hbt in Hb. simpl in Hb. contradiction.
  - intros Hflag. destruct (complete_tier2 W0 Hc i j Hg Hflag) as (H1 & H2 & _). auto.
Qed.

(** C6, amended.  [init_buildings] and every later turn of the main loop,
    whatever keys arrive, run without fault and leave all hundred cells
    generated buildings whose shell and window objects exist; a cell whose
    [isComplex] flag is set has its two second-tier objects, and they exist;
    no object belongs to two cells.  After [init_buildings] the second-tier
    slots are present exactly in the cells whose flag is set.  An update
    that retires a row releases the shell and windows of each of its cells,
    and the second tier of those whose flag is set, before any array slot is
    written. *)
Theorem grid_complete_after_every_update (prog num_viewports : Z)
    (turns : list (list key)) :
  exists W0 W1 W2,
    init_buildings (world_start prog) = Ok W0 /\
    main_loop num_viewports turns W0 = Ok W1 /\
    display num_viewports W1 = Ok W2 /\
    tier2_iff_flag W0 /\
    (complete W0 /\ populated W0 /\ tier2_if_flag W0) /\
    (complete W1 /\ populated W1 /\ tier2_if_flag W1) /\
    (complete W2 /\ populated W2 /\ tier2_if_flag W2) /\
    released_first W1 W2.
Proof.
  destruct (init_buildings_ok prog) as (W0 & Hinit & _ & _ & _ & _ & Hc0 & _).
  destruct (main_loop_complete num_viewports turns W0 Hc0) as (W1 & Hrun1 & Hc1).
  destruct (display_any num_viewports W1) as (W2 & Hrun2 & Hcase).
  assert (Hc2 : complete W2).
  { destruct Hcase as [-> | Hup]; [exact Hc1 | apply (updated_complete W1 W2 Hc1 Hup)]. }
  exists W0, W1, W2. split; [exact Hinit |]. split; [exact Hrun1 |]. split; [exact Hrun2 |].
  split; [apply (init_tier2_iff prog W0 Hinit) |].
  split; [auto using complete_populated, complete_tier2 |].
  split; [auto using complete_populated, complete_tier2 |].
  split; [auto using complete_populated, complete_tier2 |].
  destruct Hcase as [-> | Hup]; [left; reflexivity | apply updated_released_first; exact Hup].
Qed.

(** The flag of every cell generated from [seed] is the flag of the run from
    the program's start state. *)
Lemma made_from_seed_flag (c : cell_t) (seed x0 : Z) :
  match init_geometryBuilding kuhl_geometry_zero kuhl_geometry_zero kuhl_geometry_zero
          kuhl_geometry_zero 0 seed env_start with
  | Ok ((_, _, _, _, x), _) => x = x0
  | Err _ => False
  end ->
  made_from_seed c seed -> snd c = inject_Z x0.
Proof.
  intros Href (b0 & w0 & bt0 & wt0 & prog & e & b & w & bt & wt & x & e' & Hrun & ->).
  pose proof (init_geometryBuilding_rel b0 w0 bt0 wt0 kuhl_geometry_zero kuhl_geometry_zero
                kuhl_geometry_zero kuhl_geometry_zero prog 0 seed e env_start) as Hrel.
  rewrite Hrun in Hrel.
  destruct (init_geometryBuilding kuhl_geometry_zero kuhl_geometry_zero kuhl_geometry_zero
              kuhl_geometry_zero 0 seed env_start) as [[[[[[b' w'] bt'] wt'] x'] e''] | f];
    [| contradiction].
  destruct Hrel as (_ & _ & Hx & _). simpl. congruence.
Qed.

(** C6 fails as stated.  One press of SPACE retires window row 0 and
    generates a new row 9.  At lateral index 2 the old cell of row 9 (seed
    278682) has two tiers and the new one (seed 289852) has one: its flag is
    0, but its second-tier slots still hold the objects of the old cell,
    which now belong to row 8. *)
Lemma tier2_slot_outlives_flag :
  exists W0 W1,
    init_buildings (world_start 0) = Ok W0 /\
    main_loop 1 [[KEY_SPACE]; []] W0 = Ok W1 /\
    ~ tier2_iff_flag W1.
Proof.
  destruct (init_buildings_ok 0) as (W0 & Hinit & Hs0 & Hb0 & _ & Hseed0 & Hc0 & _).
  destruct (frame_spec 1 [KEY_SPACE] W0 ltac:(lia)) as (W0' & Hup0 & Hrun1).
  assert (HW0' : W0' = W0).
  { unfold updated in Hup0. rewrite Hs0, Hb0 in Hup0. exact Hup0. }
  subst W0'. rewrite Hs0 in Hrun1.
  set (Ws := with_shift W0 (foldl key_shift 0%Q [KEY_SPACE])) in *.
  destruct (frame_spec 1 [] Ws ltac:(lia)) as (W1 & Hup & Hrun2).
  exists W0. eexists. split; [exact Hinit |]. split.
  { simpl. rewrite Hrun1. simpl. rewrite Hrun2. reflexivity. }
  unfold updated in Hup. cbv zeta in Hup.
  assert (Hfl : Qfloor (shift Ws) = -1) by (vm_compute; reflexivity).
  rewrite Hfl in Hup. change (shiftBreak Ws) with (shiftBreak W0) in Hup.
  rewrite Hb0 in Hup. rewrite decide_True in Hup by lia.
  destruct Hup as (_ & _ & _ & _ & Hnew & Hstale & _).
  (* the old cell at (2, 9) has two tiers *)
  pose proof (Hseed0 2 9 ltac:(unfold in_grid; lia)) as Hold. rewrite Hb0 in Hold.
  assert (Hold_flag : isComplex W0 2 9 = inject_Z 1).
  { apply (made_from_seed_flag (cell W0 2 9) _ 1) in Hold; [exact Hold |].
    vm_compute. reflexivity. }
  destruct (complete_tier2 W0 Hc0 2 9 ltac:(unfold in_grid; lia)) as (Hp1 & Hp2 & _).
  { rewrite Hold_flag. reflexivity. }
  (* the new cell at (2, 9) has one *)
  pose proof (Hnew 2 ltac:(lia)) as Hnew2.
  assert (Hnew_flag : isComplex W1 2 9 = inject_Z 0).
  { apply (made_from_seed_flag (cell W1 2 9) _ 0) in Hnew2; [exact Hnew2 |].
    vm_compute. reflexivity. }
  destruct (Hstale 2 ltac:(lia)) as [Hbt Hwt].
  { rewrite Hnew_flag. reflexivity. }
  intros Hiff. specialize (Hiff 2 9 ltac:(unfold in_grid; lia)).
  simpl in Hiff. rewrite Hnew_flag, Hbt, Hwt in Hiff.
  destruct Hiff as [Himp _].
  discriminate Himp. split; assumption.
Qed.

(** ** C3: generation depends on the seed only *)


(** ** C7 and C10: the window loops *)

Lemma store_out_of_bounds {T} (a : carray T) (k : Z) (v : T) :
  ~ (0 <= k < capacity a) -> store a k v = Err OutOfBounds.
Proof. intros H. unfold store. rewrite bool_decide_eq_false_2; auto. Qed.

Lemma window_count_nonneg (x : Q) : (0 <= x)%Q -> 0 <= Qfloor (x / (0.13 + 0.02)).
Proof.
  intros Hx. destruct (floor_step_bounds x) as [_ Hhi]. cbv zeta in Hhi.
  set (f := Qfloor (x / (0.13 + 0.02))) in *. clearbody f.
  assert (H : (inject_Z (-1) < inject_Z f)%Q).
  { change (inject_Z (-1)) with (-1)%Q. lra. }
  rewrite <- Zlt_Qlt in H. lia.
Qed.



(** The three window loops with window-corner functions [vfront], [vleft]
    and [vright] end without fault, having written [q <= 3 * hw * vw]
    windows, the cursors at [n1 = 12 * q] and [n2 = 6 * q] inside the
    buffers sized by [tw = hw * vw]. *)
Definition stores_in_bounds (w h : Q) (vfront vleft vright : Q -> Q -> list Q)
    (e : env) : Prop :=
  let hw := Qfloor (w / (0.13 + 0.02)) in
  let vw := Qfloor (h / (0.13 + 0.02)) in
  let tw := hw * vw in
  exists b e' q,
    window_faces 0.13 0.02 w h hw vfront vleft vright (wbufs_new tw) e = Ok (b, e') /\
    0 <= q <= 3 * hw * vw /\
    n1 b = 12 * q /\ n1 b <= tw * 4 * 3 * 3 /\
    n2 b = 6 * q /\ n2 b <= Z.quot (tw * 4 * 3 * 3) 2 /\
    capacity (wVertexPositions b) = tw * 4 * 3 * 3 /\
    capacity (wNormalData b) = tw * 4 * 3 * 3 /\
    capacity (wColorData b) = tw * 4 * 3 * 3 /\
    capacity (wIndexData b) = Z.quot (tw * 4 * 3 * 3) 2.

Lemma stores_in_bounds_intro (P : Q * Q * Q -> Prop) (w h : Q)
    (vfront vleft vright : Q -> Q -> list Q) (e : env) :
  (0 <= w)%Q -> (0 <= h)%Q ->
  (forall i j, (0.01 <= i)%Q -> (i < w - 0.13)%Q -> (0.02 <= j)%Q -> (j < h - 0.13)%Q ->
     quad_ok P (vfront i j) /\ quad_ok P (vleft i j) /\ quad_ok P (vright i j)) ->
  stores_in_bounds w h vfront vleft vright e.
Proof.
  intros Hw Hh Hverts. unfold stores_in_bounds. cbv zeta.
  set (hw := Qfloor (w / (0.13 + 0.02))). set (vw := Qfloor (h / (0.13 + 0.02))).
  assert (Hhw : 0 <= hw) by (apply window_count_nonneg; exact Hw).
  assert (Hvw : 0 <= vw) by (apply window_count_nonneg; exact Hh).
  destruct (window_faces_spec P w h vfront vleft vright Hverts (gl_part e) e eq_refl)
    as (b & e' & Hrun & _ & q & Hq & Hqtw & Hwb & _).
  fold hw vw in Hrun, Hq, Hqtw, Hwb.
  destruct Hwb as (Hq0 & Hn1 & Hn2 & _ & Hc1 & Hc2 & Hc3 & Hc4).
  exists b, e', q. split; [exact Hrun |].
  rewrite !Z.max_r in Hq by lia.
  assert (Hqle : q <= 3 * (hw * vw)) by lia.
  rewrite quot_capacity.
  repeat split; try assumption; try lia.
  rewrite Hc4. apply quot_capacity.
Qed.



(** ** C8: the second tier sits inside the base *)

(** C8.  Every call of [init_geometryBuilding] succeeds and returns 0 or 1.
    When it returns 1, the base is the box of some width [bw] and height
    [bh] and the second tier is the box of some width [tw] in
    [0.15, bw] and height [th], inset by some [fud] in [0, (bw - tw) / 2]
    and standing on the roof: its footprint
    [[fud, fud + tw] x [- fud - tw, - fud]] lies inside the footprint
    [[0, bw] x [- bw, 0]] of the base. *)
Theorem second_tier_sits_inside_base (seed : Z)
    (b0 w0 bt0 wt0 : kuhl_geometry) (prog : Z) (e : env) :
  exists b w bt wt c e',
    init_geometryBuilding b0 w0 bt0 wt0 prog seed e = Ok ((b, w, bt, wt, c), e') /\
    (c = 0 \/ c = 1) /\
    (c = 1 ->
     exists bw bh tw th fud : Q,
       positions b = Some <$> shell_vertexPositions 0 bw bh /\
       positions bt = Some <$> top_vertexPositions fud bh tw th /\
       (0.13 + 0.02 <= tw)%Q /\ (tw <= bw)%Q /\
       (0 <= fud)%Q /\ (fud <= (bw - tw) / 2)%Q /\
       (0 <= fud)%Q /\ (fud + tw <= bw)%Q /\
       (- bw <= - fud - tw)%Q /\ (- fud <= 0)%Q).
Proof.
  destruct (init_geometryBuilding_spec b0 w0 bt0 wt0 prog seed
              (gl_next e) (gl_live e) (trace e) e eq_refl)
    as ([[[[b w] bt] wt] c] & e' & Hrun & _ & _ & Hshape & Hcase).
  exists b, w, bt, wt, c, e'. split; [exact Hrun |]. split.
  - destruct Hcase as [(-> & _) | (-> & _)]; auto.
  - intros ->.
    destruct Hshape as (bw & bh & _ & _ & _ & _ & Hpb & _ & [Hc0 | (_ & Htop)]);
      [discriminate Hc0 |].
    destruct Htop as (tw & th & fud & Ht1 & Ht2 & _ & _ & Hf1 & Hf2 & Hpbt & _).
    exists bw, bh, tw, th, fud.
    assert (Hhalf : (fud <= (bw - tw) * (1 # 2))%Q) by (halves; exact Hf2).
    repeat split; try assumption; lra.
Qed.

(** ** C9: a tier without windows *)

Definition empty_mesh (g : kuhl_geometry) : Prop :=
  vertex_count g = 0 /\
  positions g = [] /\ normals g = [] /\ colors g = [] /\ indices g = [].



(** ** C4: the seed function *)


Lemma Qtrunc_toward_zero (q : Q) :
  ((0 <= q)%Q -> Qtrunc q = Qfloor q) /\ ((q <= 0)%Q -> Qtrunc q = Qceiling q).
Proof.
  destruct q as [a b]. unfold Qtrunc, Qceiling, Qfloor, Qle. simpl.
  rewrite !Z.mul_1_r. split; intros H.
  - apply Z.quot_div_nonneg; lia.
  - rewrite <- (Z.opp_involutive a) at 1. rewrite Z.quot_opp_l by lia.
    rewrite Z.quot_div_nonneg by lia. reflexivity.
Qed.

Lemma Qtrunc_comp (x y : Q) : (x == y)%Q -> Qtrunc x = Qtrunc y.
Proof.
  intros Heq. destruct (Qlt_le_dec x 0) as [Hneg | Hpos].
  - destruct (Qtrunc_toward_zero x) as [_ Hx]. destruct (Qtrunc_toward_zero y) as [_ Hy].
    rewrite Hx, Hy by lra. apply Qceiling_comp. exact Heq.
  - destruct (Qtrunc_toward_zero x) as [Hx _]. destruct (Qtrunc_toward_zero y) as [Hy _].
    rewrite Hx, Hy by lra. apply Qfloor_comp. exact Heq.
Qed.

(** Around the initial working window the exact model and the binary32
    model give the same seeds; far away rounding makes them differ. *)
Lemma getSeed_models_agree_near_origin :
  forallb (fun cP =>
    forallb (fun rP => Z.eqb (Binary32.getSeed cP rP) (getSeed cP rP)) (seqZ (-40) 101))
    (seqZ 0 10) = true.
Proof. vm_compute. reflexivity. Qed.

Lemma getSeed_models_differ_far_away :
  Binary32.getSeed 0 (-3000) = -33471508 /\ getSeed 0 (-3000) = -33471507.
Proof. split; vm_compute; reflexivity. Qed.


(** * Further properties of the code *)

(** ** [randomRange] *)


(** ** [getSeed] *)

(** [getSeed] in integers: the truncation drops [.63] from a non-negative
    value and [.37] from a negative one. *)
Lemma getSeed_closed_form (cP rP : Z) :
  getSeed cP rP =
  69830 * cP + 11170 * rP +
  (if decide (-38492 <= 69830 * cP + 11170 * rP) then 38492 else 38493).
Proof.
  set (N := 69830 * cP + 11170 * rP).
  assert (Hq : getSeed cP rP = Qtrunc ((100 * N + 3849263) # 100)).
  { unfold getSeed, vecNf_dot, hardSeed. simpl. apply Qtrunc_comp.
    unfold N. rewrite (Qmake_Qdiv (100 * (69830 * cP + 11170 * rP) + 3849263) 100).
    rewrite inject_Z_plus, !inject_Z_mult, inject_Z_plus, !inject_Z_mult.
    change (inject_Z (Z.pos 100)) with 100%Q. change (inject_Z 100) with 100%Q.
    change (inject_Z 3849263) with 3849263%Q. change (inject_Z 69830) with 69830%Q.
    change (inject_Z 11170) with 11170%Q. field. }
  rewrite Hq. unfold Qtrunc. simpl Qnum. simpl Qden. clearbody N.
  destruct (decide (-38492 <= N)) as [Hpos | Hneg].
  - rewrite Z.quot_div_nonneg by lia.
    symmetry. apply (Z.div_unique _ _ _ 63); lia.
  - assert (Hopp : 100 * N + 3849263 = - (100 * (- N - 38493) + 37)) by lia.
    rewrite Hopp, Z.quot_opp_l by lia. rewrite Z.quot_div_nonneg by lia.
    rewrite <- (Z.div_unique (100 * (- N - 38493) + 37) 100 (- N - 38493) 37) by lia.
    lia.
Qed.



(** X3.  Around the initial working window (lateral indices [0 .. 9], depths
    [-40 .. 60]) the seed computed in binary32 arithmetic is the seed of
    exact arithmetic, and no two coordinates share a seed. *)
Theorem binary32_seeds_near_origin (cP rP cP' rP' : Z) :
  0 <= cP < 10 -> 0 <= cP' < 10 -> -40 <= rP <= 60 -> -40 <= rP' <= 60 ->
  Binary32.getSeed cP rP = getSeed cP rP /\
  (Binary32.getSeed cP rP = Binary32.getSeed cP' rP' -> cP = cP' /\ rP = rP').
Proof.
  intros Hc Hc' Hr Hr'.
  assert (Hagree : forall c r, 0 <= c < 10 -> -40 <= r <= 60 ->
            Binary32.getSeed c r = getSeed c r).
  { intros c r Hc0 Hr0.
    pose proof getSeed_models_agree_near_origin as Hall.
    rewrite forallb_forall in Hall.
    specialize (Hall c). rewrite forallb_forall in Hall.
    apply Z.eqb_eq. apply Hall.
    - apply list_elem_of_In, elem_of_seqZ. lia.
    - apply list_elem_of_In, elem_of_seqZ. lia. }
  split; [apply Hagree; assumption |].
  rewrite (Hagree cP rP Hc Hr), (Hagree cP' rP' Hc' Hr'). intros Heq.
  rewrite !getSeed_closed_form in Heq.
  destruct (decide (-38492 <= 69830 * cP + 11170 * rP));
    destruct (decide (-38492 <= 69830 * cP' + 11170 * rP'));
    assert (Hd : cP - cP' = 0) by lia; lia.
Qed.

Lemma binary32_seeds_near_origin_witness :
  (0 <= 2 < 10 /\ 0 <= 2 < 10 /\ -40 <= 9 <= 60 /\ -40 <= 10 <= 60) /\
  Binary32.getSeed 2 9 = getSeed 2 9 /\
  (Binary32.getSeed 2 9 = Binary32.getSeed 2 10 -> 2 = 2 /\ 9 = 10).
Proof.
  assert (H1 : 0 <= 2 < 10) by lia.
  assert (H2 : -40 <= 9 <= 60) by lia.
  assert (H3 : -40 <= 10 <= 60) by lia.
  split; [repeat split; lia |].
  exact (binary32_seeds_near_origin 2 9 2 10 H1 H1 H2 H3).
Defined.

(** ** [init_geometryBuilding] *)

(** X4.  One call of [init_geometryBuilding] never faults and releases
    nothing.  It creates two OpenGL objects (shell, windows) when it returns
    0 and four (shell, windows, second-tier shell, second-tier windows) when
    it returns 1, in this order and with the next unused names; the objects
    that were alive stay alive.  When it returns 0 it hands [buildingTop] and
    [windowsTop] back exactly as it received them. *)
Theorem generator_creates_two_or_four_objects
    (b0 w0 bt0 wt0 : kuhl_geometry) (prog seed : Z) (e : env) :
  exists b w bt wt c e',
    init_geometryBuilding b0 w0 bt0 wt0 prog seed e = Ok ((b, w, bt, wt, c), e') /\
    let n := gl_next e in
    vao b = n /\ vao w = n + 1 /\
    ((c = 0 /\ bt = bt0 /\ wt = wt0 /\
      gl_next e' = n + 2 /\
      gl_live e' = {[n; n + 1]} ∪ gl_live e /\
      trace e' = trace e ++ [EvNew n; EvNew (n + 1)]) \/
     (c = 1 /\ vao bt = n + 2 /\ vao wt = n + 3 /\
      gl_next e' = n + 4 /\
      gl_live e' = {[n; n + 1; n + 2; n + 3]} ∪ gl_live e /\
      trace e' = trace e ++ [EvNew n; EvNew (n + 1); EvNew (n + 2); EvNew (n + 3)])).
Proof.
  destruct (init_geometryBuilding_spec b0 w0 bt0 wt0 prog seed
              (gl_next e) (gl_live e) (trace e) e eq_refl)
    as ([[[[b w] bt] wt] c] & e' & Hrun & Hvb & Hvw & _ & Hcase).
  exists b, w, bt, wt, c, e'. split; [exact Hrun |]. cbv zeta.
  split; [exact Hvb |]. split; [exact Hvw |].
  destruct Hcase as [(-> & -> & -> & Hgl) | (-> & Hvbt & Hvwt & Hgl)];
    unfold gl_part, gl_after2, gl_after4 in Hgl; injection Hgl as Hn Hl Ht.
  - left. do 3 (split; [reflexivity |]). split; [lia |]. split.
    + rewrite Hl. apply set_eq. intros h.
      rewrite !elem_of_union, !elem_of_singleton. tauto.
    + rewrite Ht, <- app_assoc. reflexivity.
  - right. split; [reflexivity |]. split; [lia |]. split; [lia |].
    split; [lia |]. split.
    + rewrite Hl. replace (gl_next e + 1 + 1 + 1) with (gl_next e + 3) by lia.
      replace (gl_next e + 1 + 1) with (gl_next e + 2) by lia.
      apply set_eq. intros h. rewrite !elem_of_union, !elem_of_singleton. tauto.
    + rewrite Ht, <- !app_assoc. simpl.
      replace (gl_next e + 1 + 1 + 1) with (gl_next e + 3) by lia.
      replace (gl_next e + 1 + 1) with (gl_next e + 2) by lia. reflexivity.
Qed.

(** ** [display] *)

(** X5.  The row check sits inside the viewport loop of [display], but it
    acts once: with one viewport or more the call does what one execution of
    the check does, and afterwards [shiftBreak] is the floor of [shift]
    ([shiftBreak <= shift < shiftBreak + 1]) whatever the distance moved, so
    that a second call changes nothing.  Without a viewport the check does
    not run at all. *)
Theorem display_checks_the_rows_once (num_viewports : positive) (W : World) :
  display (Z.pos num_viewports) W = load_row W /\
  (exists W', display (Z.pos num_viewports) W = Ok W' /\
     shift W' = shift W /\ shiftBreak W' = Qfloor (shift W) /\
     (inject_Z (shiftBreak W') <= shift W')%Q /\
     (shift W' < inject_Z (shiftBreak W') + 1)%Q /\
     display (Z.pos num_viewports) W' = Ok W') /\
  (forall n, n <= 0 -> display n W = Ok W).
Proof.
  destruct (load_row_spec W) as (W1 & Hrun & Hup).
  destruct (updated_scalars W W1 Hup) as (Hs & Hb & _).
  assert (Hidle : load_row W1 = Ok W1) by (apply load_row_idle; congruence).
  assert (Hdisp : forall W0 Wa, load_row W0 = Ok Wa -> load_row Wa = Ok Wa ->
            display (Z.pos num_viewports) W0 = Ok Wa).
  { intros W0 Wa H0 Ha.
    set (I := fun (k : Z) (W' : World) => (k = 0 /\ W' = W0) \/ (1 <= k /\ W' = Wa)).
    destruct (for_up_inv I 0 (Z.pos num_viewports) (fun _ => load_row) W0)
      as (W' & Hrun' & HI).
    - lia.
    - left. auto.
    - intros k W2 Hk [[-> ->] | [Hk1 ->]].
      + exists Wa. split; [exact H0 |]. right. split; [lia | reflexivity].
      + exists Wa. split; [exact Ha |]. right. split; [lia | reflexivity].
    - destruct HI as [[HI _] | [_ ->]]; [lia |]. exact Hrun'. }
  split; [rewrite Hrun; apply Hdisp; assumption |]. split.
  - exists W1. split; [apply Hdisp; assumption |]. split; [exact Hs |].
    split; [exact Hb |]. rewrite Hb, Hs. split; [apply Qfloor_le |]. split.
    + pose proof (Qlt_floor (shift W)) as Hlt. rewrite inject_Z_plus in Hlt. exact Hlt.
    + apply Hdisp; exact Hidle.
  - intros n Hn. apply display_none. exact Hn.
Qed.

(** ** The main loop *)



Lemma count_updates_le (turns : list (list key)) (x : Q) (sb : Z) :
  (count_updates turns x sb <= length turns)%nat.
Proof.
  revert x sb. induction turns as [| keys turns IH]; intros x sb; simpl; [lia |].
  specialize (IH (foldl key_shift x keys) (Qfloor x)).
  destruct (decide (Qfloor x = sb)); lia.
Qed.

(** The distance that [shiftBreak] has moved is at most the number of
    updates that changed it, when no update sees [floor shift] further than
    one row away. *)
Lemma count_updates_gentle (turns : list (list key)) (x : Q) (sb : Z) :
  gentle turns -> -1 <= Qfloor x - sb <= 1 ->
  Z.abs (final_break turns x sb - sb) <= Z.of_nat (count_updates turns x sb).
Proof.
  intros Hg. revert x sb. induction Hg as [| keys turns Hk Hg IH]; intros x sb Hnear; simpl.
  - lia.
  - destruct (key_shift_small x keys Hk) as [Hlo Hhi].
    pose proof (Qfloor_step x (foldl key_shift x keys) Hlo Hhi) as Hstep.
    specialize (IH (foldl key_shift x keys) (Qfloor x) ltac:(lia)).
    destruct (decide (Qfloor x = sb)); lia.
Qed.


(** ** The key callback *)

Definition callback (s : World * camera) (ev : bool * glfw_key * glfw_action)
  : World * camera :=
  let '(handled, k, action) := ev in keyboard_callback handled k action s.

(** X8.  Key callbacks move the viewer or the camera and nothing else.
    Whatever events arrive, the world afterwards is the world that the
    travel keys among them ([SPACE] and [B], pressed or repeated, not
    consumed by libkuhl's handler) produce: the grid, [shiftBreak] and the
    OpenGL objects are as before, and the eight debug keys, key releases and
    consumed keys leave [shift] alone too.  The camera does not depend on
    the travel keys. *)
Theorem callbacks_only_move_viewer_and_camera
    (evs : list (bool * glfw_key * glfw_action)) (W : World) (c : camera) :
  let s' := foldl callback (W, c) evs in
  s'.1 = press (travel_key <$> evs) W /\
  s'.1 = with_shift W (shift s'.1) /\
  (forall W', (foldl callback (W', c) evs).2 = s'.2) /\
  (Forall (fun ev => travel_key ev = KEY_OTHER) evs -> s'.1 = W).
Proof.
  cbv zeta.
  assert (Hstep : forall ev W1 c1,
            (callback (W1, c1) ev).1 = keyboard (travel_key ev) W1 /\
            forall W2, (callback (W2, c1) ev).2 = (callback (W1, c1) ev).2).
  { intros [[handled k] action] W1 c1.
    destruct handled, action, k; split; try reflexivity; intros W2; reflexivity. }
  assert (Hfold : forall evs W1 c1,
            (foldl callback (W1, c1) evs).1 = press (travel_key <$> evs) W1 /\
            forall W2, (foldl callback (W2, c1) evs).2 = (foldl callback (W1, c1) evs).2).
  { clear evs W c. induction evs as [| ev evs IH]; intros W1 c1; simpl.
    - split; [reflexivity | intros; reflexivity].
    - destruct (Hstep ev W1 c1) as [H1 H2].
      destruct (callback (W1, c1) ev) as [Wn cn] eqn:Hcb. simpl in H1, H2.
      destruct (IH Wn cn) as [I1 I2]. split.
      + rewrite I1, H1. reflexivity.
      + intros W2. specialize (H2 W2).
        destruct (callback (W2, c1) ev) as [Wm cm] eqn:Hcb2. simpl in H2. subst cm.
        apply I2. }
  destruct (Hfold evs W c) as [H1 H2].
  split; [exact H1 |]. split; [| split].
  - rewrite H1, press_spec. reflexivity.
  - intros W'. apply H2.
  - intros Hall. rewrite H1. clear H1 H2.
    revert W. induction Hall as [| ev evs Hev Hall IH]; intros W; simpl.
    + reflexivity.
    + rewrite Hev. simpl. unfold press in IH. apply IH.
Qed.

(** ** Accounting for OpenGL objects *)

(** [books X V W]: the objects that exist are the objects of [X] (objects
    outside the grid, such as the ground) and the objects that the cells
    selected by [V] answer for; every name in use is below [gl_next]. *)
Definition books (X : gset Z) (V : Z -> Z -> Prop) (W : World) : Prop :=
  (forall h, h ∈ gl_live (genv W) ->
     h < gl_next (genv W) /\
     (h ∈ X \/ exists i j, V i j /\ h ∈ cell_handles (cell W i j))) /\
  (forall h, h ∈ X -> h ∈ gl_live (genv W)) /\
  (forall h i j, h ∈ X -> V i j -> h ∉ cell_handles (cell W i j)).

(** The trace replayed from a set of existing objects: a creation must make
    a name that does not exist, a release must hit one that does. *)
Fixpoint replay (evs : list event) (L : gset Z) : option (gset Z) :=
  match evs with
  | [] => Some L
  | EvNew h :: evs' =>
      if decide (h ∈ L) then None else replay evs' ({[h]} ∪ L)
  | EvDelete h :: evs' =>
      if decide (h ∈ L) then replay evs' (L ∖ {[h]}) else None
  | _ :: evs' => replay evs' L
  end.

(** Every creation and release so far was in order, and led to the objects
    that exist now. *)
Definition tidy (W : World) : Prop :=
  replay (trace (genv W)) ∅ = Some (gl_live (genv W)).

Lemma books_ext (X : gset Z) (V V' : Z -> Z -> Prop) (W : World) :
  books X V W -> (forall i j, V i j <-> V' i j) -> books X V' W.
Proof.
  intros (Hlive & HX & Hsep) Hext. split; [| split].
  - intros h Hh. destruct (Hlive h Hh) as [Hn [Hx | (i & j & Hv & Hc)]].
    + auto.
    + split; [exact Hn |]. right. exists i, j. rewrite <- Hext. auto.
  - exact HX.
  - intros h i j Hh Hv. apply Hsep; [exact Hh |]. rewrite Hext. exact Hv.
Qed.

Lemma replay_app (a b : list event) (L : gset Z) :
  replay (a ++ b) L = mbind (replay b) (replay a L).
Proof.
  revert L. induction a as [| ev a IH]; intros L; simpl; [reflexivity |].
  destruct ev; try apply IH; destruct (decide (h ∈ L)); auto.
Qed.

Lemma replay_app_some (a b : list event) (L L1 : gset Z) :
  replay a L = Some L1 -> replay (a ++ b) L = replay b L1.
Proof. intros H. rewrite replay_app, H. reflexivity. Qed.

Lemma replay_other (evs : list event) (L : gset Z) :
  Forall (fun ev => match ev with EvNew _ | EvDelete _ => False | _ => True end) evs ->
  replay evs L = Some L.
Proof.
  induction 1 as [| ev evs Hev _ IH]; simpl; [reflexivity |].
  destruct ev; try contradiction; exact IH.
Qed.

Lemma replay_deletes (l : list Z) (L : gset Z) :
  NoDup l -> (forall h, h ∈ l -> h ∈ L) ->
  replay (EvDelete <$> l) L = Some (L ∖ list_to_set l).
Proof.
  intros Hnd. revert L. induction Hnd as [| h l Hh Hnd IH]; intros L Hin; simpl.
  - f_equal. apply set_eq. intros x. rewrite elem_of_difference, elem_of_empty. tauto.
  - rewrite decide_True by (apply Hin; left).
    rewrite IH.
    + f_equal. apply set_eq. intros x.
      rewrite !elem_of_difference, elem_of_union, elem_of_singleton. tauto.
    + intros x Hx. apply elem_of_difference. split; [apply Hin; right; exact Hx |].
      rewrite elem_of_singleton. intros ->. contradiction.
Qed.

Lemma row_handles_snoc (W : World) (j k : Z) :
  0 <= k ->
  row_handles W j (k + 1) = row_handles W j k ++ cell_handles (cell W k j).
Proof.
  intros Hk. unfold row_handles. rewrite seqZ_app by lia. rewrite fmap_app, concat_app.
  simpl. rewrite app_nil_r. reflexivity.
Qed.

(** The objects of a row are pairwise different and exist. *)
Lemma row_handles_owned (W : World) (j : Z) :
  owns in_grid W -> 0 <= j < 10 ->
  NoDup (row_handles W j 10) /\
  forall h, h ∈ row_handles W j 10 -> h ∈ gl_live (genv W).
Proof.
  intros (_ & Hlive & Hnd & Hinj) Hj. split.
  - assert (H : forall k : nat, Z.of_nat k <= 10 -> NoDup (row_handles W j (Z.of_nat k))).
    { induction k as [| k IH]; intros Hk.
      - apply NoDup_nil_2.
      - rewrite Nat2Z.inj_succ. unfold Z.succ. rewrite row_handles_snoc by lia.
        apply NoDup_app. split; [apply IH; lia |]. split.
        + intros h Hh Hh'. apply elem_of_row_handles in Hh as (n & Hn & Hh).
          destruct (Hinj n j (Z.of_nat k) j h) as [Heq _]; unfold in_grid; try lia; auto.
        + apply Hnd. unfold in_grid. lia. }
    apply (H 10%nat). lia.
  - intros h Hh. apply elem_of_row_handles in Hh as (n & Hn & Hh).
    apply (Hlive n j h); [unfold in_grid; lia | exact Hh].
Qed.

(** Releasing a row. *)
Lemma delete_row_books (X : gset Z) (jdel : Z) (W : World) (e1 : env) :
  books X in_grid W -> tidy W -> owns in_grid W -> 0 <= jdel < 10 ->
  gl_next e1 = gl_next (genv W) ->
  gl_live e1 = gl_live (genv W) ∖ list_to_set (row_handles W jdel 10) ->
  trace e1 = trace (genv W) ++ (EvDelete <$> row_handles W jdel 10) ->
  books X (fun i j => in_grid i j /\ j <> jdel) (with_env W e1) /\ tidy (with_env W e1).
Proof.
  intros (Hlive & HX & Hsep) Htidy Hown Hj Hn Hl Ht. split; [split; [| split] |].
  - intros h. simpl. rewrite Hl, Hn, elem_of_difference, elem_of_list_to_set.
    intros [Hh Hrow]. destruct (Hlive h Hh) as [Hlt [Hx | (i & j & Hg & Hc)]].
    + auto.
    + split; [exact Hlt |]. right. exists i, j. split; [| exact Hc].
      split; [exact Hg |]. intros ->. apply Hrow. apply elem_of_row_handles.
      exists i. unfold in_grid in Hg. split; [lia | exact Hc].
  - intros h Hh. simpl. rewrite Hl, elem_of_difference, elem_of_list_to_set.
    split; [apply HX; exact Hh |]. intros Hrow.
    apply elem_of_row_handles in Hrow as (n & Hn' & Hc).
    apply (Hsep h n jdel Hh); [unfold in_grid; lia | exact Hc].
  - intros h i j Hh [Hg _]. apply (Hsep h i j Hh Hg).
  - unfold tidy in *. change (genv (with_env W e1)) with e1.
    rewrite Ht, (replay_app_some _ _ _ _ Htidy).
    destruct (row_handles_owned W jdel Hown Hj) as [Hnd Hin].
    rewrite (replay_deletes _ _ Hnd Hin), Hl. reflexivity.
Qed.

(** Moving rows. *)
Lemma moved_books (X : gset Z) (V1 V2 : Z -> Z -> Prop) (W1 W2 : World) :
  books X V1 W1 -> tidy W1 -> moved_only W1 W2 ->
  (forall i j, V2 i j -> exists j', V1 i j' /\ cell W2 i j = cell W1 i j') ->
  (forall i j', V1 i j' -> exists j, V2 i j /\ cell W2 i j = cell W1 i j') ->
  books X V2 W2 /\ tidy W2.
Proof.
  intros (Hlive & HX & Hsep) Htidy (_ & _ & _ & _ & Hn & Hl & assigns & Ht & Hassign)
         Hfrom Hto.
  split; [split; [| split] |].
  - intros h. rewrite Hl, Hn. intros Hh.
    destruct (Hlive h Hh) as [Hlt [Hx | (i & j' & Hv & Hc)]]; [auto |].
    split; [exact Hlt |]. right. destruct (Hto i j' Hv) as (j & Hv2 & Hcell).
    exists i, j. rewrite Hcell. auto.
  - intros h Hh. rewrite Hl. apply HX. exact Hh.
  - intros h i j Hh Hv. destruct (Hfrom i j Hv) as (j' & Hv1 & Hcell).
    rewrite Hcell. apply (Hsep h i j' Hh Hv1).
  - unfold tidy in *. rewrite Ht, (replay_app_some _ _ _ _ Htidy), Hl.
    apply replay_other. eapply Forall_impl; [exact Hassign |].
    intros ev H. destruct ev; simpl in *; auto.
Qed.

(** Generating one cell. *)
Lemma generate_cell_books (X : gset Z) (V : Z -> Z -> Prop) (i j seed : Z) (W : World) :
  books X V W -> tidy W -> ~ V i j ->
  exists W', generate_cell i j seed W = Ok W' /\
    books X (fun i' j' => V i' j' \/ (i' = i /\ j' = j)) W' /\ tidy W'.
Proof.
  intros (Hlive & HX & Hsep) Htidy HnV. unfold generate_cell.
  destruct (init_geometryBuilding_spec (building W i j) (windows W i j)
              (buildingTop W i j) (windowsTop W i j) (program W) seed
              (gl_next (genv W)) (gl_live (genv W)) (trace (genv W)) (genv W) eq_refl)
    as ([[[[b w] bt] wt] c] & e' & Hrun & Hvb & Hvw & _ & Hcase).
  rewrite Hrun. eexists. split; [reflexivity |].
  set (W' := mkWorld _ _ _ _ _ _ _ _ _).
  assert (Hcell : cell_handles (cell W' i j) =
                  [vao b; vao w] ++ (if bool_decide (c = 1) then [vao bt; vao wt] else [])).
  { unfold cell, W', cell_handles. simpl. rewrite !grid_set_same, Qeq_bool_flag.
    reflexivity. }
  assert (Hother : forall i' j', ~ (i' = i /\ j' = j) -> cell W' i' j' = cell W i' j').
  { intros i' j' Hne. unfold cell, W'. simpl. rewrite !grid_set_other by exact Hne.
    reflexivity. }
  assert (Hfresh : (gl_next (genv W) ∉ gl_live (genv W)) /\
                   ((gl_next (genv W) + 1) ∉ gl_live (genv W)) /\
                   ((gl_next (genv W) + 1 + 1) ∉ gl_live (genv W)) /\
                   ((gl_next (genv W) + 1 + 1 + 1) ∉ gl_live (genv W))).
  { repeat split; intros Hh; destruct (Hlive _ Hh) as [Hlt _]; lia. }
  destruct Hfresh as (F0 & F1 & F2 & F3).
  assert (Hgl : gl_next (genv W) < gl_next e' /\
            (forall h, h ∈ gl_live e' <->
               h ∈ cell_handles (cell W' i j) \/ h ∈ gl_live (genv W)) /\
            (forall h, h ∈ cell_handles (cell W' i j) ->
               gl_next (genv W) <= h < gl_next e') /\
            replay (trace e') ∅ = Some (gl_live e')).
  { rewrite Hcell, Hvb, Hvw.
    destruct Hcase as [(-> & _ & _ & Hgl) | (-> & Hvbt & Hvwt & Hgl)];
      unfold gl_part, gl_after2, gl_after4 in Hgl; injection Hgl as Hn Hl Ht;
      rewrite Hn, Hl, Ht; simpl.
    - split; [lia |]. split; [| split].
      + intros h. rewrite !elem_of_union, !elem_of_singleton, !elem_of_cons, elem_of_nil.
        tauto.
      + intros h. rewrite !elem_of_cons, elem_of_nil. lia.
      + rewrite <- app_assoc. rewrite (replay_app_some _ _ _ _ Htidy). simpl.
        rewrite decide_False by exact F0.
        rewrite decide_False; [reflexivity |].
        rewrite elem_of_union, elem_of_singleton. intros [Heq | Hin]; [lia | auto].
    - rewrite Hvbt, Hvwt. split; [lia |]. split; [| split].
      + intros h. rewrite !elem_of_union, !elem_of_singleton, !elem_of_cons, elem_of_nil.
        tauto.
      + intros h. rewrite !elem_of_cons, elem_of_nil. lia.
      + rewrite <- !app_assoc. rewrite (replay_app_some _ _ _ _ Htidy). simpl.
        rewrite decide_False by exact F0.
        rewrite decide_False.
        2: { rewrite elem_of_union, elem_of_singleton. intros [Heq | Hin]; [lia | auto]. }
        rewrite decide_False.
        2: { rewrite !elem_of_union, !elem_of_singleton.
             intros [Heq | [Heq | Hin]]; [lia | lia | auto]. }
        rewrite decide_False; [reflexivity |].
        rewrite !elem_of_union, !elem_of_singleton.
        intros [Heq | [Heq | [Heq | Hin]]]; [lia | lia | lia | auto]. }
  destruct Hgl as (Hnext & Hl' & Hnew & Hrep).
  split; [split; [| split] |].
  - intros h. change (genv W') with e'. rewrite Hl'. intros [Hh | Hh].
    + split; [apply Hnew; exact Hh |]. right. exists i, j. auto.
    + destruct (Hlive h Hh) as [Hlt [Hx | (i' & j' & Hv & Hc)]].
      * split; [lia | auto].
      * split; [lia |]. right. exists i', j'. split; [left; exact Hv |].
        rewrite Hother; [exact Hc |]. intros [-> ->]. contradiction.
  - intros h Hh. change (genv W') with e'. rewrite Hl'. right. apply HX. exact Hh.
  - intros h i' j' Hh [Hv | [-> ->]].
    + rewrite Hother; [apply (Hsep h i' j' Hh Hv) |]. intros [-> ->]. contradiction.
    + intros Hc. apply Hnew in Hc. destruct (Hlive h (HX h Hh)) as [Hlt _]. lia.
  - exact Hrep.
Qed.

Section RecycleBooks.

Variable X : gset Z.
Variables (marker : event) (jdel jnew : Z) (src depth : Z -> Z).
Variable mv : World -> res World.
Variable gen : Z -> World -> res World.

Hypothesis marker_other :
  match marker with EvNew _ | EvDelete _ => False | _ => True end.
Hypothesis jdel_range : 0 <= jdel < 10.
Hypothesis jnew_range : 0 <= jnew < 10.
Hypothesis src_range : forall j, 0 <= j < 10 -> j <> jnew -> 0 <= src j < 10 /\ src j <> jdel.
Hypothesis src_onto : forall j', 0 <= j' < 10 -> j' <> jdel ->
  exists j, 0 <= j < 10 /\ j <> jnew /\ src j = j'.
Hypothesis mv_spec : forall W, exists W', mv W = Ok W' /\ moved_only W W' /\
  (forall i j, cell W' i j =
     if bool_decide (in_grid i j /\ j <> jnew) then cell W i (src j) else cell W i j).
Hypothesis gen_spec : forall n W,
  gen n W = generate_cell n jnew (getSeed n (depth (shiftBreak W))) W.

Lemma recycle_books (W : World) :
  books X in_grid W -> tidy W -> owns in_grid W ->
  exists W',
    res_bind (enter marker W) (fun W =>
    res_bind (for_up 0 10 (fun n => delete_cell n jdel) W) (fun W =>
    res_bind (mv W) (fun W => for_up 0 10 gen W))) = Ok W' /\
    books X in_grid W' /\ tidy W'.
Proof.
  intros Hbooks Htidy Hown. unfold enter, emit. simpl.
  set (W0 := with_env W _).
  assert (Hbooks0 : books X in_grid W0) by exact Hbooks.
  assert (Hown0 : owns in_grid W0) by exact Hown.
  assert (Htidy0 : tidy W0).
  { unfold tidy, W0. simpl. rewrite (replay_app_some _ _ _ _ Htidy).
    apply replay_other. constructor; [exact marker_other | constructor]. }
  destruct (delete_row_spec jdel W0) as (e1 & Hrun1 & _ & Hn1 & Hl1 & Ht1).
  rewrite Hrun1. simpl.
  destruct (delete_row_books X jdel W0 e1 Hbooks0 Htidy0 Hown0 jdel_range Hn1 Hl1 Ht1)
    as [Hbooks1 Htidy1].
  set (W1 := with_env W0 e1) in *.
  destruct (mv_spec W1) as (W2 & Hrun2 & Hmv & Hcells2).
  rewrite Hrun2. simpl.
  destruct (moved_books X (fun i j => in_grid i j /\ j <> jdel)
              (fun i j => in_grid i j /\ j <> jnew) W1 W2 Hbooks1 Htidy1 Hmv)
    as [Hbooks2 Htidy2].
  { intros i j [Hg Hj]. exists (src j). rewrite Hcells2, bool_decide_eq_true_2 by tauto.
    unfold in_grid in *. destruct (src_range j ltac:(lia) Hj). repeat split; lia. }
  { intros i j' [Hg Hj']. unfold in_grid in Hg.
    destruct (src_onto j' ltac:(lia) Hj') as (j & Hj & Hne & Hsrc).
    exists j. rewrite Hcells2, bool_decide_eq_true_2 by (unfold in_grid; tauto).
    rewrite Hsrc. unfold in_grid. repeat split; lia. }
  set (I := fun (k : Z) (W' : World) =>
    books X (fun i j => (in_grid i j /\ j <> jnew) \/ (0 <= i < k /\ j = jnew)) W' /\
    tidy W').
  destruct (for_up_inv I 0 10 gen W2) as (W3 & Hrun3 & Hbooks3 & Htidy3).
  - lia.
  - split; [| exact Htidy2]. eapply books_ext; [exact Hbooks2 |].
    intros i j. split; [tauto | intros [H | H]; [exact H | lia]].
  - intros k Wk Hk [Hb Ht]. rewrite gen_spec.
    destruct (generate_cell_books X _ k jnew (getSeed k (depth (shiftBreak Wk))) Wk Hb Ht)
      as (Wk' & Hrun & Hb' & Ht').
    { intros [[_ Hne] | [Hlt _]]; [apply Hne; reflexivity | lia]. }
    exists Wk'. split; [exact Hrun |]. split; [| exact Ht'].
    eapply books_ext; [exact Hb' |].
    intros i j. simpl. split.
    + intros [[H | H] | [-> ->]]; [left; exact H | right; lia | right; lia].
    + intros [H | [Hi ->]]; [left; left; exact H |].
      destruct (decide (i = k)) as [-> | Hne]; [right; auto | left; right; lia].
  - exists W3. split; [exact Hrun3 |]. split; [| exact Htidy3].
    eapply books_ext; [exact Hbooks3 |].
    intros i j. unfold in_grid. split.
    + intros [[H _] | [Hi ->]]; [exact H | lia].
    + intros [Hi Hj]. destruct (decide (j = jnew)) as [-> | Hne]; [right; auto | left; auto].
Qed.

End RecycleBooks.

Lemma addRowFar_books (X : gset Z) (W : World) :
  books X in_grid W -> tidy W -> owns in_grid W ->
  exists W', addRowFar W = Ok W' /\ books X in_grid W' /\ tidy W'.
Proof.
  unfold addRowFar.
  apply (recycle_books X EvRowFar 0 9 (fun j => j + 1) (fun sb => 9 - sb)).
  - exact I.
  - lia.
  - lia.
  - intros j Hj Hne. lia.
  - intros j' Hj Hne. exists (j' - 1). repeat split; lia.
  - intros W1. destruct (move_back_spec W1) as (W2 & Hrun & Hmv & Hc).
    exists W2. split; [exact Hrun |]. split; [exact Hmv |].
    intros i j. rewrite Hc. unfold in_grid. repeat case_bool_decide; try reflexivity; lia.
  - reflexivity.
Qed.

Lemma addRowNear_books (X : gset Z) (W : World) :
  books X in_grid W -> tidy W -> owns in_grid W ->
  exists W', addRowNear W = Ok W' /\ books X in_grid W' /\ tidy W'.
Proof.
  unfold addRowNear.
  apply (recycle_books X EvRowNear 9 0 (fun j => j - 1) (fun sb => - sb)).
  - exact I.
  - lia.
  - lia.
  - intros j Hj Hne. lia.
  - intros j' Hj Hne. exists (j' + 1). repeat split; lia.
  - intros W1. destruct (move_forward_spec W1) as (W2 & Hrun & Hmv & Hc).
    exists W2. split; [exact Hrun |]. split; [exact Hmv |].
    intros i j. rewrite Hc. unfold in_grid. repeat case_bool_decide; try reflexivity; lia.
  - reflexivity.
Qed.

(** The grid is complete, its books balance and its trace is in order. *)
Definition sound (X : gset Z) (W : World) : Prop :=
  complete W /\ books X in_grid W /\ tidy W.

Lemma load_row_sound (X : gset Z) (W : World) :
  sound X W -> exists W', load_row W = Ok W' /\ sound X W'.
Proof.
  intros (Hc & Hb & Ht).
  destruct (load_row_spec W) as (W' & Hrun & Hup).
  exists W'. split; [exact Hrun |]. split; [apply (updated_complete W W' Hc Hup) |].
  unfold load_row in Hrun. destruct Hc as [Hown _].
  case_bool_decide.
  - destruct (addRowFar_books X (with_shiftBreak W (Qfloor (shift W))) Hb Ht Hown)
      as (W'' & Hrun' & Hsound). congruence.
  - case_bool_decide.
    + destruct (addRowNear_books X (with_shiftBreak W (Qfloor (shift W))) Hb Ht Hown)
        as (W'' & Hrun' & Hsound). congruence.
    + injection Hrun as <-. auto.
Qed.

Lemma display_sound (X : gset Z) (num_viewports : Z) (W : World) :
  sound X W -> exists W', display num_viewports W = Ok W' /\ sound X W'.
Proof.
  intros Hs. destruct (Z_le_gt_dec num_viewports 0) as [Hle | Hgt].
  - exists W. split; [apply display_none; exact Hle | exact Hs].
  - destruct (for_up_inv (fun _ W' => sound X W') 0 num_viewports (fun _ => load_row) W)
      as (W' & Hrun & Hs').
    + lia.
    + exact Hs.
    + intros k W1 _ H1. apply load_row_sound. exact H1.
    + exists W'. auto.
Qed.

Lemma main_loop_sound (X : gset Z) (num_viewports : Z) (turns : list (list key)) :
  forall W, sound X W -> exists W', main_loop num_viewports turns W = Ok W' /\ sound X W'.
Proof.
  induction turns as [| keys turns IH]; intros W Hs; simpl.
  - exists W. auto.
  - destruct (display_sound X num_viewports W Hs) as (W1 & Hrun & Hs1).
    unfold frame. rewrite Hrun. simpl. fold (press keys W1).
    apply IH. rewrite press_spec. exact Hs1.
Qed.

Lemma init_buildings_books (X : gset Z) (W : World) :
  books X (fun _ _ => False) W -> tidy W ->
  exists W', init_buildings W = Ok W' /\ books X in_grid W' /\ tidy W'.
Proof.
  intros Hb Ht. unfold init_buildings.
  set (Inner := fun (i j : Z) (W1 : World) =>
    books X (fun i' j' => (0 <= i' < i /\ 0 <= j' < 10) \/ (i' = i /\ 0 <= j' < j)) W1 /\
    tidy W1).
  set (Outer := fun (i : Z) (W1 : World) => Inner i 0 W1).
  destruct (for_up_inv Outer 0 10
              (fun i => for_up 0 10 (fun j W => let seedNum := getSeed i j in
                                               generate_cell i j seedNum W)) W)
    as (W' & Hrun & Hb' & Ht').
  - lia.
  - split; [| exact Ht]. eapply books_ext; [exact Hb |]. intros i j. split; [tauto | lia].
  - intros i W1 Hi HO.
    destruct (for_up_inv (Inner i) 0 10
                (fun j W => let seedNum := getSeed i j in generate_cell i j seedNum W) W1)
      as (W2 & Hrun2 & Hb2 & Ht2).
    + lia.
    + exact HO.
    + intros j W2 Hj [Hb2 Ht2]. cbv zeta.
      destruct (generate_cell_books X _ i j (getSeed i j) W2 Hb2 Ht2)
        as (W3 & Hrun3 & Hb3 & Ht3).
      { lia. }
      exists W3. split; [exact Hrun3 |]. split; [| exact Ht3].
      eapply books_ext; [exact Hb3 |]. intros i' j'. simpl. lia.
    + exists W2. split; [exact Hrun2 |]. split; [| exact Ht2].
      eapply books_ext; [exact Hb2 |]. intros i' j'. simpl. lia.
  - exists W'. split; [exact Hrun |]. split; [| exact Ht'].
    eapply books_ext; [exact Hb' |]. intros i' j'. unfold in_grid. lia.
Qed.

(** The ground is one new object; its uploads cannot fault. *)
Lemma init_geometryRoads_spec (prog texId : Z) (e : env) :
  exists roads e',
    init_geometryRoads prog texId e = Ok (roads, e') /\
    vao (tg_geom roads) = gl_next e /\ vertex_count (tg_geom roads) = 4 /\
    positions (tg_geom roads) = Some <$> roads_vertexPositions /\
    indices (tg_geom roads) = Some <$> roads_indexData /\
    colors (tg_geom roads) = Some <$> roads_colorData /\
    tg_texcoord roads = Some <$> roads_texcoordData /\
    tg_texture roads = texId /\
    rng e' = rng e /\ gl_next e' = gl_next e + 1 /\
    gl_live e' = {[gl_next e]} ∪ gl_live e /\
    trace e' = trace e ++ [EvNew (gl_next e)].
Proof.
  unfold init_geometryRoads.
  eexists _, _. split; [reflexivity |]. simpl. repeat split.
Qed.

(** The state in which the main loop starts. *)
Lemma main_init_sound (prog texId : Z) :
  exists W0 roads,
    main_init prog texId = Ok (W0, roads) /\
    sound {[vao (tg_geom roads)]} W0 /\
    shift W0 = 0%Q /\ shiftBreak W0 = 0 /\ seeded W0 /\
    positions (tg_geom roads) = Some <$> roads_vertexPositions.
Proof.
  destruct (init_buildings_ok prog) as (W & Hinit & Hs & Hb & Hp & Hseed & Hc & _).
  destruct (init_buildings_books ∅ (world_start prog)) as (W' & Hinit' & Hbooks & Htidy).
  { split; [| split].
    - intros h Hh. simpl in Hh. apply elem_of_empty in Hh. contradiction.
    - intros h Hh. apply elem_of_empty in Hh. contradiction.
    - intros h i j Hh. apply elem_of_empty in Hh. contradiction. }
  { reflexivity. }
  assert (W' = W) by congruence. subst W'. clear Hinit'.
  destruct (init_geometryRoads_spec (program W) texId (genv W))
    as (roads & e' & Hrun & Hv & _ & Hpos & _ & _ & _ & _ & _ & Hn & Hl & Ht).
  exists (with_env W e'), roads. unfold main_init. rewrite Hinit. unfold res_bind. rewrite Hrun.
  split; [reflexivity |].
  destruct Hbooks as (Hlive & _ & _).
  destruct Hc as [(Hpos0 & Hown_live & Hnd & Hinj) Hmade].
  split; [split; [split |] |].
  - unfold owns. simpl. rewrite Hn, Hl. split; [lia |]. split; [| split].
    + intros i j h Hg Hh. destruct (Hown_live i j h Hg Hh) as [Hin Hlt].
      split; [apply elem_of_union; right; exact Hin | lia].
    + exact Hnd.
    + exact Hinj.
  - exact Hmade.
  - split; [split; [| split] |].
    + intros h. simpl. rewrite Hl, Hn, Hv, elem_of_union, !elem_of_singleton.
      intros [-> | Hh]; [split; [lia | left; reflexivity] |].
      destruct (Hlive h Hh) as [Hlt [Hx | Hcell]].
      * apply elem_of_empty in Hx. contradiction.
      * split; [lia | right; exact Hcell].
    + intros h. simpl. rewrite Hl, Hv, elem_of_union. auto.
    + intros h i j. rewrite Hv, elem_of_singleton. intros -> Hg Hh.
      destruct (Hown_live i j _ Hg Hh) as [_ Hlt]. simpl in Hlt. lia.
    + unfold tidy in *. simpl. rewrite Ht, (replay_app_some _ _ _ _ Htidy), Hl. simpl.
      rewrite decide_False; [reflexivity |].
      intros Hh. destruct (Hlive _ Hh) as [Hlt _]. lia.
  - simpl. auto.
Qed.

(** The objects of the grid in the order in which [display] draws them. *)
Definition grid_handles (W : World) : list Z :=
  concat ((fun i => concat ((fun j => cell_handles (cell W i j)) <$> seqZ 0 10))
            <$> seqZ 0 10).

Lemma elem_of_concat_fmap {A B} (f : A -> list B) (l : list A) (b : B) :
  b ∈ concat (f <$> l) <-> exists a, a ∈ l /\ b ∈ f a.
Proof.
  rewrite list_elem_of_In, in_concat. split.
  - intros (x & Hx & Hb). apply list_elem_of_In, list_elem_of_fmap in Hx as (a & -> & Ha).
    exists a. split; [exact Ha | apply list_elem_of_In; exact Hb].
  - intros (a & Ha & Hb). exists (f a). split; [| apply list_elem_of_In; exact Hb].
    apply list_elem_of_In, list_elem_of_fmap. exists a. auto.
Qed.

Lemma NoDup_concat_fmap {A B} (f : A -> list B) (l : list A) :
  NoDup l ->
  (forall a, a ∈ l -> NoDup (f a)) ->
  (forall a a' b, a ∈ l -> a' ∈ l -> b ∈ f a -> b ∈ f a' -> a = a') ->
  NoDup (concat (f <$> l)).
Proof.
  intros Hl. induction Hl as [| a l Ha Hl IH]; intros Hnd Hdis; simpl.
  - apply NoDup_nil_2.
  - apply NoDup_app. split; [apply Hnd; left |]. split.
    + intros b Hb Hb'. apply elem_of_concat_fmap in Hb' as (a' & Ha' & Hb').
      assert (a = a') by (apply (Hdis a a' b); [left | right | |]; auto).
      subst a'. contradiction.
    + apply IH.
      * intros a' Ha'. apply Hnd. right. exact Ha'.
      * intros a1 a2 b H1 H2. apply Hdis; right; assumption.
Qed.

Lemma elem_of_grid_handles (W : World) (h : Z) :
  h ∈ grid_handles W <-> exists i j, in_grid i j /\ h ∈ cell_handles (cell W i j).
Proof.
  unfold grid_handles, in_grid. rewrite elem_of_concat_fmap. split.
  - intros (i & Hi & Hh). apply elem_of_concat_fmap in Hh as (j & Hj & Hh).
    apply elem_of_seqZ in Hi, Hj. exists i, j. split; [lia | exact Hh].
  - intros (i & j & Hg & Hh). exists i. split; [apply elem_of_seqZ; lia |].
    apply elem_of_concat_fmap. exists j. split; [apply elem_of_seqZ; lia | exact Hh].
Qed.

Lemma grid_handles_NoDup (W : World) : owns in_grid W -> NoDup (grid_handles W).
Proof.
  intros (_ & _ & Hnd & Hinj). unfold grid_handles.
  apply NoDup_concat_fmap.
  - apply NoDup_seqZ.
  - intros i Hi. apply elem_of_seqZ in Hi. apply NoDup_concat_fmap.
    + apply NoDup_seqZ.
    + intros j Hj. apply elem_of_seqZ in Hj. apply Hnd. unfold in_grid. lia.
    + intros j j' h Hj Hj' Hh Hh'. apply elem_of_seqZ in Hj, Hj'.
      destruct (Hinj i j i j' h); unfold in_grid; auto; lia.
  - intros i i' h Hi Hi' Hh Hh'. apply elem_of_seqZ in Hi, Hi'.
    apply elem_of_concat_fmap in Hh as (j & Hj & Hh).
    apply elem_of_concat_fmap in Hh' as (j' & Hj' & Hh').
    apply elem_of_seqZ in Hj, Hj'.
    destruct (Hinj i j i' j' h); unfold in_grid; auto; lia.
Qed.

Lemma length_concat_between {A B} (f : A -> list B) (l : list A) (lo hi : nat) :
  (forall a, lo <= length (f a) <= hi)%nat ->
  (lo * length l <= length (concat (f <$> l)) <= hi * length l)%nat.
Proof.
  intros Hf. induction l as [| a l IH]; simpl; [lia |].
  rewrite length_app. specialize (Hf a).
  change (list_fmap A (list B) f l) with (f <$> l). nia.
Qed.

Lemma grid_handles_length (W : World) :
  (200 <= length (grid_handles W) <= 400)%nat.
Proof.
  unfold grid_handles.
  pose proof (length_concat_between
    (fun i => concat ((fun j => cell_handles (cell W i j)) <$> seqZ 0 10))
    (seqZ 0 10) 20 40) as H.
  rewrite length_seqZ in H. simpl in H. apply H. intros i.
  pose proof (length_concat_between (fun j => cell_handles (cell W i j))
    (seqZ 0 10) 2 4) as H'.
  rewrite length_seqZ in H'. simpl in H'. apply H'. intros j.
  unfold cell, cell_handles. destruct (Qeq_bool (isComplex W i j) 1); simpl; lia.
Qed.

(** What a sound grid implies for the objects that exist. *)
Lemma sound_live (r : Z) (W : World) :
  sound {[r]} W ->
  NoDup (r :: grid_handles W) /\
  gl_live (genv W) = list_to_set (r :: grid_handles W).
Proof.
  intros ([Hown _] & (Hlive & HX & Hsep) & _). split.
  - apply NoDup_cons_2; [| apply grid_handles_NoDup; exact Hown].
    rewrite elem_of_grid_handles. intros (i & j & Hg & Hh).
    apply (Hsep r i j); [apply elem_of_singleton; reflexivity | exact Hg | exact Hh].
  - apply set_eq. intros h.
    rewrite elem_of_list_to_set, elem_of_cons, elem_of_grid_handles. split.
    + intros Hh. destruct (Hlive h Hh) as [_ [Hx | Hc]]; [| right; exact Hc].
      left. apply elem_of_singleton in Hx. exact Hx.
    + intros [-> | (i & j & Hg & Hh)].
      * apply HX, elem_of_singleton. reflexivity.
      * destruct Hown as (_ & Hl & _). apply (Hl i j h Hg Hh).
Qed.

(** X9.  Recycling leaks nothing.  After the start of [main] and any turns
    of the main loop, whatever keys arrive (also jumps across several
    rows), the OpenGL objects that exist are exactly the ground and the
    objects that the hundred cells answer for (shell and windows, and the
    second tier of the cells whose flag is 1), each of them once.  Their
    number stays between 201 and 401. *)
Theorem recycling_leaks_no_object
    (prog texId : Z) (num_viewports : Z) (turns : list (list key)) :
  exists W0 roads W1,
    main_init prog texId = Ok (W0, roads) /\
    main_loop num_viewports turns W0 = Ok W1 /\
    (forall h, h ∈ gl_live (genv W1) <->
       h = vao (tg_geom roads) \/
       exists i j, in_grid i j /\ h ∈ cell_handles (cell W1 i j)) /\
    NoDup (vao (tg_geom roads) :: grid_handles W1) /\
    (201 <= size (gl_live (genv W1)) <= 401)%nat.
Proof.
  destruct (main_init_sound prog texId) as (W0 & roads & Hinit & Hs0 & _).
  destruct (main_loop_sound _ num_viewports turns W0 Hs0) as (W1 & Hrun & Hs1).
  destruct (sound_live _ W1 Hs1) as [Hnd Hl].
  exists W0, roads, W1. split; [exact Hinit |]. split; [exact Hrun |]. split; [| split].
  - intros h. rewrite Hl, elem_of_list_to_set, elem_of_cons, elem_of_grid_handles.
    reflexivity.
  - exact Hnd.
  - rewrite Hl, size_list_to_set by exact Hnd. cbn [length].
    pose proof (grid_handles_length W1). lia.
Qed.

(** X10.  No object is released twice, none is released before it exists,
    and no name is handed out while an object of that name exists: replaying
    the creations and releases of the whole run, from the start of [main]
    through any turns of the main loop, never fails, and what it leaves is
    exactly the set of objects that exist at the end. *)
Theorem every_release_hits_a_live_object
    (prog texId : Z) (num_viewports : Z) (turns : list (list key)) :
  exists W0 roads W1,
    main_init prog texId = Ok (W0, roads) /\
    main_loop num_viewports turns W0 = Ok W1 /\
    replay (trace (genv W1)) ∅ = Some (gl_live (genv W1)).
Proof.
  destruct (main_init_sound prog texId) as (W0 & roads & Hinit & Hs0 & _).
  destruct (main_loop_sound _ num_viewports turns W0 Hs0) as (W1 & Hrun & _ & _ & Ht).
  exists W0, roads, W1. auto.
Qed.

(** ** Drawing *)

Lemma fmap_concat_fmap {A B C} (g : B -> C) (f : A -> list B) (l : list A) :
  g <$> concat (f <$> l) = concat ((fun a => g <$> f a) <$> l).
Proof.
  induction l as [| a l IH]; simpl; [reflexivity |].
  rewrite fmap_app. f_equal. exact IH.
Qed.

Lemma concat_fmap_ext {A B} (f g : A -> list B) (l : list A) :
  (forall a, f a = g a) -> concat (f <$> l) = concat (g <$> l).
Proof.
  intros H. induction l as [| a l IH]; simpl; [reflexivity |].
  f_equal; [apply H | exact IH].
Qed.

(** The objects of one frame, in drawing order. *)
Lemma drawn_handles (roads : textured_geometry) (W : World) :
  (fun d => vao (drawn_geom d)) <$> draw_geometry roads W =
  vao (tg_geom roads) :: grid_handles W.
Proof.
  unfold draw_geometry, grid_handles. rewrite fmap_cons. f_equal.
  rewrite fmap_concat_fmap. apply concat_fmap_ext. intros i.
  rewrite fmap_concat_fmap. apply concat_fmap_ext. intros j.
  unfold draw_cell, cell, cell_handles.
  destruct (Qeq_bool (isComplex W i j) 1); reflexivity.
Qed.

(** Every viewport draws the same frame: the one after the row check. *)
Lemma display_draws_spec (num_viewports : positive) (roads : textured_geometry)
    (W : World) :
  exists W',
    load_row W = Ok W' /\ display (Z.pos num_viewports) W = Ok W' /\
    display_draws (Z.pos num_viewports) roads W =
      Ok (W', concat (replicate (Pos.to_nat num_viewports) (draw_geometry roads W'))).
Proof.
  destruct (load_row_spec W) as (W1 & Hrun & Hup).
  destruct (updated_scalars W W1 Hup) as (Hs & Hb & _).
  assert (Hidle : load_row W1 = Ok W1) by (apply load_row_idle; congruence).
  exists W1. split; [exact Hrun |]. split.
  - set (I := fun (k : Z) (W' : World) => (k = 0 /\ W' = W) \/ (1 <= k /\ W' = W1)).
    destruct (for_up_inv I 0 (Z.pos num_viewports) (fun _ => load_row) W)
      as (W' & Hrun' & HI).
    + lia.
    + left. auto.
    + intros k W2 Hk [[-> ->] | [Hk1 ->]].
      * exists W1. split; [exact Hrun |]. right. split; [lia | reflexivity].
      * exists W1. split; [exact Hidle |]. right. split; [lia | reflexivity].
    + destruct HI as [[HI _] | [_ ->]]; [lia |]. exact Hrun'.
  - set (I := fun (k : Z) (s : World * list draw_call) =>
      (k = 0 /\ s = (W, [])) \/
      (1 <= k /\ s = (W1, concat (replicate (Z.to_nat k) (draw_geometry roads W1))))).
    unfold display_draws.
    destruct (for_up_inv I 0 (Z.pos num_viewports)
                (fun (viewportID : Z) '(W, calls) =>
                   res_bind (load_row W)
                     (fun W => Ok (W, calls ++ draw_geometry roads W)))
                (W, [])) as (s' & Hrun' & HI).
    + lia.
    + left. auto.
    + intros k s Hk [[-> ->] | [Hk1 ->]].
      * rewrite Hrun. simpl. eexists. split; [reflexivity |]. right.
        split; [lia |]. simpl. rewrite app_nil_r. reflexivity.
      * rewrite Hidle. simpl. eexists. split; [reflexivity |]. right.
        split; [lia |]. f_equal.
        replace (Z.to_nat (k + 1)) with (Z.to_nat k + 1)%nat by lia.
        rewrite replicate_add, concat_app. simpl. rewrite app_nil_r. reflexivity.
    + destruct HI as [[HI _] | [_ ->]]; [lia |]. rewrite Hrun'.
      replace (Z.to_nat (Z.pos num_viewports)) with (Pos.to_nat num_viewports) by lia.
      reflexivity.
Qed.

(** X11.  Each frame draws every object that exists, once, and nothing
    else.  After the start of [main] and any turns of the main loop, the
    next [display] draws, in every viewport, the same list of objects: the
    ground, then for each cell its shell and windows and, when its flag is
    1, its second tier.  The objects in this list are pairwise different
    and are exactly the objects that exist after the row check; a released
    object or a stale second-tier slot is never drawn. *)
Theorem each_frame_draws_the_live_objects_once
    (prog texId : Z) (num_viewports : positive) (turns : list (list key)) :
  exists W0 roads W1 W2,
    main_init prog texId = Ok (W0, roads) /\
    main_loop (Z.pos num_viewports) turns W0 = Ok W1 /\
    display (Z.pos num_viewports) W1 = Ok W2 /\
    display_draws (Z.pos num_viewports) roads W1 =
      Ok (W2, concat (replicate (Pos.to_nat num_viewports) (draw_geometry roads W2))) /\
    NoDup ((fun d => vao (drawn_geom d)) <$> draw_geometry roads W2) /\
    forall h, h ∈ ((fun d => vao (drawn_geom d)) <$> draw_geometry roads W2) <->
              h ∈ gl_live (genv W2).
Proof.
  destruct (main_init_sound prog texId) as (W0 & roads & Hinit & Hs0 & _).
  destruct (main_loop_sound _ (Z.pos num_viewports) turns W0 Hs0) as (W1 & Hrun & Hs1).
  destruct (display_draws_spec num_viewports roads W1) as (W2 & Hrow & Hdisp & Hdraws).
  destruct (load_row_sound _ W1 Hs1) as (W2' & Hrow' & Hs2).
  assert (W2' = W2) by congruence. subst W2'.
  destruct (sound_live _ W2 Hs2) as [Hnd Hl].
  exists W0, roads, W1, W2. split; [exact Hinit |]. split; [exact Hrun |].
  split; [exact Hdisp |]. split; [exact Hdraws |].
  rewrite drawn_handles. split; [exact Hnd |].
  intros h. rewrite Hl, elem_of_list_to_set. reflexivity.
Qed.

(** ** Where the buildings stand *)

(** A vertex moved by the translation of its draw call. *)
Definition placed (t p : Q * Q * Q) : Q * Q * Q :=
  let '(tx, ty, tz) := t in
  let '(x, y, z) := p in
  (x + tx, y + ty, z + tz)%Q.

(** The lot of the cell at window index [(i, j)]: one unit wide and deep,
    minus a street of 0.198. *)
Definition in_lot (W : World) (i j : Z) (p : Q * Q * Q) : Prop :=
  let '(x, y, z) := p in
  (inject_Z i - 4.801 <= x)%Q /\ (x <= inject_Z i - 3.999)%Q /\
  (0 <= y)%Q /\ (y <= 3.7)%Q /\
  (inject_Z (shiftBreak W) - inject_Z j - 0.8 <= z)%Q /\
  (z <= inject_Z (shiftBreak W) - inject_Z j + 0.001)%Q.

(** The rectangle that the ground covers, at height 0. *)
Definition on_ground (W : World) (p : Q * Q * Q) : Prop :=
  let '(x, y, z) := p in
  (-5 <= x)%Q /\ (x <= 5)%Q /\
  (inject_Z (shiftBreak W) - 9.8 <= z)%Q /\ (z <= inject_Z (shiftBreak W) + 0.2)%Q.

Lemma geom_vertex_triples (g : kuhl_geometry) (l : list Q) (v : nat) (p : Q * Q * Q) :
  positions g = Some <$> l -> geom_vertex g v = Some p -> p ∈ triples l.
Proof.
  unfold geom_vertex. intros ->. revert l.
  induction v as [| v IH]; intros l.
  - destruct l as [| a [| b [| c l]]]; simpl; try discriminate.
    intros [= <-]. left.
  - replace (3 * S v)%nat with (S (S (S (3 * v)))) by lia.
    destruct l as [| a [| b [| c l]]]; simpl; try discriminate.
    intros H. right. apply IH. exact H.
Qed.

Lemma made_from_seed_shape (b w bt wt : kuhl_geometry) (x : Q) (seed : Z) :
  made_from_seed (b, w, bt, wt, x) seed ->
  exists c, x = inject_Z c /\ cell_shape b w bt wt c.
Proof.
  intros (b0 & w0 & bt0 & wt0 & prog & e & b' & w' & bt' & wt' & c & e' & Hrun & Heq).
  injection Heq as -> -> -> -> ->.
  destruct (init_geometryBuilding_spec b0 w0 bt0 wt0 prog seed
              (gl_next e) (gl_live e) (trace e) e eq_refl)
    as (r & e'' & Hrun' & Hgen).
  rewrite Hrun in Hrun'. injection Hrun' as <- <-.
  exists c. split; [reflexivity |]. destruct Hgen as (_ & _ & Hshape & _). exact Hshape.
Qed.

(** The vertices of a generated cell, in the cell's own coordinates: the
    shell of the base, its windows, and the second tier with its windows
    all stay within 0.001 of the base's footprint and below 3.7. *)
Lemma cell_shape_box (b w bt wt : kuhl_geometry) (c : Z) :
  cell_shape b w bt wt c ->
  let box := fun p : Q * Q * Q =>
    let '(x, y, z) := p in
    (-0.001 <= x)%Q /\ (x <= 0.801)%Q /\ (0 <= y)%Q /\ (y <= 3.7)%Q /\
    (-0.8 <= z)%Q /\ (z <= 0.001)%Q in
  let footprint := fun p : Q * Q * Q =>
    let '(x, y, z) := p in
    (0 <= x)%Q /\ (x <= 0.8)%Q /\ (-0.8 <= z)%Q /\ (z <= 0)%Q in
  (forall v p, geom_vertex b v = Some p -> box p /\ footprint p) /\
  (forall v p, geom_vertex w v = Some p -> box p) /\
  (c = 1 -> (forall v p, geom_vertex bt v = Some p -> box p /\ footprint p) /\
            (forall v p, geom_vertex wt v = Some p -> box p)).
Proof.
  intros (bw & bh & Hw1 & Hw2 & Hh1 & Hh2 & Hpb & Hwall & Htop) box footprint.
  split; [| split].
  - intros v p Hv. pose proof (geom_vertex_triples b _ v p Hpb Hv) as Hin.
    simpl in Hin. rewrite !elem_of_cons, elem_of_nil in Hin.
    unfold box, footprint.
    repeat destruct Hin as [-> | Hin]; try contradiction; repeat split; lra.
  - intros v [[x y] z] Hv. specialize (Hwall v _ Hv). unfold on_wall in Hwall.
    unfold box. destruct Hwall as (Hy1 & Hy2 & [(Hz & Hx1 & Hx2) | [(Hx & Hz1 & Hz2) |
      (Hx & Hz1 & Hz2)]]); repeat split; lra.
  - intros ->. destruct Htop as [Hc | (_ & tw & th & fud & Ht1 & Ht2 & Hth1 & Hth2 &
      Hf1 & Hf2 & Hpbt & Hwallt)]; [discriminate Hc |].
    assert (Hhalf : (fud <= (bw - tw) * (1 # 2))%Q) by (halves; exact Hf2).
    split.
    + intros v p Hv. pose proof (geom_vertex_triples bt _ v p Hpbt Hv) as Hin.
      simpl in Hin. rewrite !elem_of_cons, elem_of_nil in Hin.
      unfold box, footprint.
      repeat destruct Hin as [-> | Hin]; try contradiction; repeat split; lra.
    + intros v [[x y] z] Hv. specialize (Hwallt v _ Hv). unfold on_wall in Hwallt.
      unfold box. destruct Hwallt as (Hy1 & Hy2 & [(Hz & Hx1 & Hx2) | [(Hx & Hz1 & Hz2) |
        (Hx & Hz1 & Hz2)]]); repeat split; lra.
Qed.



(** ** The vector helpers *)

(** The three floats that [vec] points to. *)
Definition vec_read (m : fmem) (vec : Z) : option (Q * Q * Q) :=
  match m !! (vec + 0), m !! (vec + 1), m !! (vec + 2) with
  | Some a, Some b, Some c => Some (a, b, c)
  | _, _, _ => None
  end.

(** Two arrays of three floats are the same array or do not overlap. *)
Definition same_or_apart (p q : Z) : Prop := p = q \/ p + 3 <= q \/ q + 3 <= p.

Lemma vec_read_inv (m : fmem) (vec : Z) (a b c : Q) :
  vec_read m vec = Some (a, b, c) ->
  m !! (vec + 0) = Some a /\ m !! (vec + 1) = Some b /\ m !! (vec + 2) = Some c.
Proof.
  unfold vec_read.
  destruct (m !! (vec + 0)); [| discriminate].
  destruct (m !! (vec + 1)); [| discriminate].
  destruct (m !! (vec + 2)); [| discriminate].
  intros [= -> -> ->]. auto.
Qed.

Lemma vec_read_inserted (m : fmem) (vec : Z) (x y z : Q) :
  vec_read (<[vec + 2 := z]> (<[vec + 1 := y]> (<[vec + 0 := x]> m))) vec = Some (x, y, z).
Proof.
  unfold vec_read.
  repeat first [rewrite lookup_insert_eq | rewrite lookup_insert_ne by lia].
  reflexivity.
Qed.

Lemma frame_inserted (m : fmem) (vec q : Z) (x y z : Q) :
  ~ (vec <= q < vec + 3) ->
  (<[vec + 2 := z]> (<[vec + 1 := y]> (<[vec + 0 := x]> m))) !! q = m !! q.
Proof. intros H. rewrite !lookup_insert_ne by lia. reflexivity. Qed.

(** Runs a helper on a memory whose relevant cells are known. *)
Ltac run_vec :=
  unfold mbind, F_bind, mret, F_ret, rd, wr;
  repeat (first [ rewrite lookup_insert_eq
                | rewrite lookup_insert_ne by lia
                | match goal with
                  | H : ?m !! ?k = Some _ |- context [?m !! ?k] => rewrite H
                  end ];
          cbv beta iota).

Section InPlace.

Variables (m : fmem) (vec3 vec1 vec2 : Z) (a b c d e f : Q).
Hypothesis read1 : vec_read m vec1 = Some (a, b, c).
Hypothesis read2 : vec_read m vec2 = Some (d, e, f).
Hypothesis mapped3 : is_Some (vec_read m vec3).
Hypothesis alias1 : same_or_apart vec3 vec1.
Hypothesis alias2 : same_or_apart vec3 vec2.

Lemma vecSub_run :
  vecSub vec3 vec1 vec2 m =
  Ok (vec3, <[vec3 + 2 := (c - f)%Q]> (<[vec3 + 1 := (b - e)%Q]>
              (<[vec3 + 0 := (a - d)%Q]> m))).
Proof.
  destruct (vec_read_inv _ _ _ _ _ read1) as (A0 & A1 & A2).
  destruct (vec_read_inv _ _ _ _ _ read2) as (B0 & B1 & B2).
  destruct mapped3 as [[[x y] z] Hr]. destruct (vec_read_inv _ _ _ _ _ Hr) as (C0 & C1 & C2).
  unfold vecSub.
  destruct alias1 as [-> | Hd1]; destruct alias2 as [-> | Hd2]; run_vec; congruence.
Qed.

Lemma vecAdd_run :
  vecAdd vec3 vec1 vec2 m =
  Ok (vec3, <[vec3 + 2 := (c + f)%Q]> (<[vec3 + 1 := (b + e)%Q]>
              (<[vec3 + 0 := (a + d)%Q]> m))).
Proof.
  destruct (vec_read_inv _ _ _ _ _ read1) as (A0 & A1 & A2).
  destruct (vec_read_inv _ _ _ _ _ read2) as (B0 & B1 & B2).
  destruct mapped3 as [[[x y] z] Hr]. destruct (vec_read_inv _ _ _ _ _ Hr) as (C0 & C1 & C2).
  unfold vecAdd.
  destruct alias1 as [-> | Hd1]; destruct alias2 as [-> | Hd2]; run_vec; congruence.
Qed.

Lemma vecCpy_run :
  vecCpy vec3 vec1 m =
  Ok (vec3, <[vec3 + 2 := c]> (<[vec3 + 1 := b]> (<[vec3 + 0 := a]> m))).
Proof.
  destruct (vec_read_inv _ _ _ _ _ read1) as (A0 & A1 & A2).
  destruct mapped3 as [[[x y] z] Hr]. destruct (vec_read_inv _ _ _ _ _ Hr) as (C0 & C1 & C2).
  unfold vecCpy.
  destruct alias1 as [-> | Hd1]; run_vec; congruence.
Qed.

End InPlace.


(** A memory with the vectors (1, 0, 0) at address 0 and (0, 1, 0) at
    address 10, and room for a third at address 20. *)
Definition fmem_xy : fmem :=
  <[0 := 1%Q]> (<[1 := 0%Q]> (<[2 := 0%Q]>
  (<[10 := 0%Q]> (<[11 := 1%Q]> (<[12 := 0%Q]>
  (<[20 := 0%Q]> (<[21 := 0%Q]> (<[22 := 0%Q]> ∅)))))))).


Section CrossProduct.

Variables (m : fmem) (vec3 vec1 vec2 : Z) (a b c d e f : Q).
Hypothesis read1 : vec_read m vec1 = Some (a, b, c).
Hypothesis read2 : vec_read m vec2 = Some (d, e, f).
Hypothesis mapped3 : is_Some (vec_read m vec3).

Lemma vecCrossProd_apart :
  vec3 + 3 <= vec1 \/ vec1 + 3 <= vec3 ->
  vec3 + 3 <= vec2 \/ vec2 + 3 <= vec3 ->
  vecCrossProd vec3 vec1 vec2 m =
  Ok (vec3, <[vec3 + 2 := (a * e - b * d)%Q]> (<[vec3 + 1 := (c * d - a * f)%Q]>
              (<[vec3 + 0 := (b * f - c * e)%Q]> m))).
Proof.
  intros Hd1 Hd2.
  destruct (vec_read_inv _ _ _ _ _ read1) as (A0 & A1 & A2).
  destruct (vec_read_inv _ _ _ _ _ read2) as (B0 & B1 & B2).
  destruct mapped3 as [[[x y] z] Hr]. destruct (vec_read_inv _ _ _ _ _ Hr) as (C0 & C1 & C2).
  unfold vecCrossProd. run_vec. reflexivity.
Qed.

Lemma vecCrossProd_in_place :
  vec3 = vec1 -> vec1 + 3 <= vec2 \/ vec2 + 3 <= vec1 ->
  vecCrossProd vec3 vec1 vec2 m =
  Ok (vec3, <[vec3 + 2 := ((b * f - c * e) * e - (c * d - (b * f - c * e) * f) * d)%Q]>
              (<[vec3 + 1 := (c * d - (b * f - c * e) * f)%Q]>
              (<[vec3 + 0 := (b * f - c * e)%Q]> m))).
Proof.
  intros -> Hd.
  destruct (vec_read_inv _ _ _ _ _ read1) as (A0 & A1 & A2).
  destruct (vec_read_inv _ _ _ _ _ read2) as (B0 & B1 & B2).
  unfold vecCrossProd. run_vec. reflexivity.
Qed.

End CrossProduct.

Lemma vecDotProd_run (m : fmem) (vec1 vec2 : Z) (a b c d e f : Q) :
  vec_read m vec1 = Some (a, b, c) -> vec_read m vec2 = Some (d, e, f) ->
  vecDotProd vec1 vec2 m = Ok ((a * d + b * e + c * f)%Q, m).
Proof.
  intros R1 R2.
  destruct (vec_read_inv _ _ _ _ _ R1) as (A0 & A1 & A2).
  destruct (vec_read_inv _ _ _ _ _ R2) as (B0 & B1 & B2).
  unfold vecDotProd. run_vec. reflexivity.
Qed.

Lemma vec_read_frame (m m' : fmem) (vec3 vec : Z) :
  (forall q, ~ (vec3 <= q < vec3 + 3) -> m' !! q = m !! q) ->
  vec3 + 3 <= vec \/ vec + 3 <= vec3 ->
  vec_read m' vec = vec_read m vec.
Proof.
  intros Hf Hd. unfold vec_read. rewrite !Hf by lia. reflexivity.
Qed.



(** ** How many windows the loops write *)

(** A loop over a real-valued counter with its number of iterations: it
    stops at the first multiple of the step that reaches the bound. *)
Lemma hoare_for_float_count {S} (J : Z -> S -> env -> Prop)
    (x0 bound step : Q) (body : Q -> S -> M S) (s : S) :
  (0 < step)%Q ->
  (forall k x s, 0 <= k -> (x == x0 + inject_Z k * step)%Q ->
     hoare (fun e => J k s e /\ (x < bound)%Q) (body x s)
           (fun s' e' => J (k + 1) s' e')) ->
  hoare (J 0 s) (for_float x0 bound step body s)
    (fun s' e' => exists k, 0 <= k /\ J k s' e' /\
       (bound <= x0 + inject_Z k * step)%Q /\
       (0 < k -> (x0 + inject_Z (k - 1) * step < bound)%Q)).
Proof.
  intros Hstep Hbody.
  set (Inv := fun (x : Q) (s : S) (e : env) =>
    exists k, 0 <= k /\ (x == x0 + inject_Z k * step)%Q /\ J k s e /\
              (0 < k -> (x0 + inject_Z (k - 1) * step < bound)%Q)).
  eapply hoare_conseq with (P' := Inv x0 s).
  - apply (hoare_for_float Inv); [exact Hstep |].
    intros x s1 e [(k & Hk & Hx & HJ & Hprev) Hlt].
    destruct (Hbody k x s1 Hk Hx e (conj HJ Hlt)) as (s2 & e2 & Hrun & HJ2).
    exists s2, e2. split; [exact Hrun |]. exists (k + 1). split; [lia |]. split.
    { rewrite Hx, inject_Z_succ. ring. }
    split; [exact HJ2 |]. intros _. replace (k + 1 - 1) with k by lia.
    rewrite <- Hx. exact Hlt.
  - intros e He. exists 0. split; [lia |]. split.
    { change (inject_Z 0) with 0%Q. ring. }
    split; [exact He | lia].
  - intros s' e' (x' & (k & Hk & Hx & HJ & Hprev) & Hge).
    exists k. split; [exact Hk |]. split; [exact HJ |]. split; [| exact Hprev].
    rewrite <- Hx. exact Hge.
Qed.

(** The rows of one column: [floor (h / 0.15)] of them, one less when [h]
    is a multiple of 0.15. *)
Definition rows_written (h : Q) : Z :=
  let vw := Qfloor (h / (0.13 + 0.02)) in
  if Qeq_bool (inject_Z vw * (0.13 + 0.02)) h then vw - 1 else vw.

Lemma vertical_count (h : Q) (k : Z) :
  (0.13 + 0.02 <= h)%Q -> 0 <= k ->
  (h - 0.13 <= 0.02 + inject_Z k * (0.13 + 0.02))%Q ->
  (0 < k -> (0.02 + inject_Z (k - 1) * (0.13 + 0.02) < h - 0.13)%Q) ->
  k = rows_written h.
Proof.
  intros Hh Hk Hge Hprev. unfold rows_written.
  destruct (floor_step_bounds h) as [Hlo Hhi]. cbv zeta in Hlo, Hhi.
  set (vw := Qfloor (h / (0.13 + 0.02))) in *. clearbody vw.
  assert (H1 : (inject_Z vw < inject_Z (k + 2))%Q).
  { rewrite inject_Z_plus. change (inject_Z 2) with 2%Q. lra. }
  rewrite <- Zlt_Qlt in H1.
  assert (Hvw : 1 <= vw).
  { assert (H0 : (inject_Z 1 < inject_Z (vw + 1))%Q).
    { rewrite inject_Z_succ. change (inject_Z 1) with 1%Q. lra. }
    rewrite <- Zlt_Qlt in H0. lia. }
  assert (Hkpos : 0 < k -> k <= vw).
  { intros Hpos. specialize (Hprev Hpos).
    assert (H2 : (inject_Z (k - 1) < inject_Z vw)%Q).
    { replace (k - 1) with (k + -1) in * by lia. rewrite inject_Z_plus in *.
      change (inject_Z (-1)) with (-1)%Q in *. lra. }
    rewrite <- Zlt_Qlt in H2. lia. }
  destruct (Qeq_bool (inject_Z vw * (0.13 + 0.02)) h) eqn:Heq.
  - apply Qeq_bool_iff in Heq.
    destruct (Z.eq_dec k 0) as [-> | Hne]; [lia |].
    specialize (Hprev ltac:(lia)).
    assert (H2 : (inject_Z (k - 1) < inject_Z (vw - 1))%Q).
    { replace (k - 1) with (k + -1) in * by lia.
      replace (vw - 1) with (vw + -1) by lia. rewrite !inject_Z_plus in *.
      change (inject_Z (-1)) with (-1)%Q in *. lra. }
    rewrite <- Zlt_Qlt in H2. lia.
  - apply Qeq_bool_neq in Heq.
    assert (Hstrict : (inject_Z vw * (0.13 + 0.02) < h)%Q).
    { destruct (Qlt_le_dec (inject_Z vw * (0.13 + 0.02)) h) as [Hlt | Hle]; [exact Hlt |].
      exfalso. apply Heq. apply Qle_antisym; assumption. }
    assert (H2 : (inject_Z vw < inject_Z (k + 1))%Q).
    { rewrite inject_Z_succ. lra. }
    rewrite <- Zlt_Qlt in H2.
    assert (0 < k) by lia. specialize (Hkpos ltac:(lia)). lia.
Qed.

Lemma horizontal_count (w : Q) (k : Z) :
  let hw := Qfloor (w / (0.13 + 0.02)) in
  let i0 := (w / 2 - inject_Z hw * (0.13 + 0.02) / 2 + 0.02 / 2)%Q in
  (0.13 + 0.02 <= w)%Q -> 0 <= k ->
  (w - 0.13 <= i0 + inject_Z k * (0.13 + 0.02))%Q ->
  (0 < k -> (i0 + inject_Z (k - 1) * (0.13 + 0.02) < w - 0.13)%Q) ->
  k = hw.
Proof.
  intros hw i0 Hw Hk Hge Hprev. unfold i0 in *. clear i0.
  destruct (floor_step_bounds w) as [Hlo Hhi]. cbv zeta in Hlo, Hhi. fold hw in Hlo, Hhi.
  clearbody hw.
  assert (H1 : (inject_Z hw < inject_Z (k + 1))%Q).
  { rewrite inject_Z_succ. halves. lra. }
  rewrite <- Zlt_Qlt in H1.
  assert (Hhw : 1 <= hw).
  { assert (H0 : (inject_Z 1 < inject_Z (hw + 1))%Q).
    { rewrite inject_Z_succ. change (inject_Z 1) with 1%Q. lra. }
    rewrite <- Zlt_Qlt in H0. lia. }
  destruct (Z.eq_dec k 0) as [-> | Hne]; [lia |].
  specialize (Hprev ltac:(lia)).
  assert (H2 : (inject_Z (k - 1) < inject_Z hw)%Q).
  { replace (k - 1) with (k + -1) in * by lia. rewrite inject_Z_plus in *.
    change (inject_Z (-1)) with (-1)%Q in *. halves. lra. }
  rewrite <- Zlt_Qlt in H2. lia.
Qed.

Lemma rows_written_le (h : Q) :
  rows_written h <= Qfloor (h / (0.13 + 0.02)).
Proof. unfold rows_written. destruct (Qeq_bool _ _); lia. Qed.

Lemma rows_written_nonneg (h : Q) : (0.13 + 0.02 <= h)%Q -> 0 <= rows_written h.
Proof.
  intros Hh. unfold rows_written.
  destruct (floor_step_bounds h) as [Hlo Hhi]. cbv zeta in Hlo, Hhi.
  set (vw := Qfloor (h / (0.13 + 0.02))) in *. clearbody vw.
  assert (H0 : (inject_Z 1 < inject_Z (vw + 1))%Q).
  { rewrite inject_Z_succ. change (inject_Z 1) with 1%Q. lra. }
  rewrite <- Zlt_Qlt in H0.
  destruct (Qeq_bool _ _); lia.
Qed.

Section WindowCount.

Variable P : Q * Q * Q -> Prop.
Variable G : Z * gset Z * list event.
Variables (w h : Q) (tw : Z).
Variable norms : list Q.
Hypothesis norms_len : length norms = 12%nat.
Hypothesis w_range : (0.13 + 0.02 <= w)%Q.
Hypothesis h_range : (0.13 + 0.02 <= h)%Q.

Let hw := Qfloor (w / (0.13 + 0.02)).
Let vw := Qfloor (h / (0.13 + 0.02)).

Lemma window_column_count (verts : Q -> list Q) (q0 : Z) (b : wbufs) :
  wb_inv tw q0 b -> verts_inv P q0 b ->
  q0 + vw <= 3 * tw ->
  (forall j, (0.02 <= j)%Q -> (j < h - 0.13)%Q -> quad_ok P (verts j)) ->
  hoare (fun e => gl_part e = G)
        (for_float 0.02 (h - 0.13) (0.13 + 0.02)
           (fun j b => window_quad (verts j) norms b) b)
        (fun b' e' => gl_part e' = G /\
           wb_inv tw (q0 + rows_written h) b' /\ verts_inv P (q0 + rows_written h) b').
Proof.
  intros Hwb Hvi Hroom Hverts.
  set (J := fun (l : Z) (b : wbufs) (e : env) =>
    gl_part e = G /\ wb_inv tw (q0 + l) b /\ verts_inv P (q0 + l) b).
  eapply hoare_conseq with (P' := J 0 b).
  - apply (hoare_for_float_count J); [reflexivity |].
    intros l y s Hl Hy e [(Hgl & Hwb' & Hvi') Hlt].
    pose proof (vertical_steps h y l Hy Hlt) as Hstep. fold vw in Hstep.
    destruct (window_quad_spec P tw (q0 + l) (verts y) norms s G Hwb' Hvi')
      with (e := e) as (s' & e' & Hrun & Hgl' & Hwb'' & Hvi''); auto.
    { lia. }
    { apply Hverts; [| exact Hlt]. rewrite Hy.
      pose proof (inject_Z_nonneg l ltac:(lia)). lra. }
    exists s', e'. split; [exact Hrun |]. split; [exact Hgl' |].
    replace (q0 + (l + 1)) with (q0 + l + 1) by ring. auto.
  - intros e He. split; [exact He |]. replace (q0 + 0) with q0 by ring. auto.
  - intros b' e' (k & Hk & (Hgl & Hwb' & Hvi') & Hge & Hprev).
    rewrite <- (vertical_count h k h_range Hk Hge Hprev). auto.
Qed.

Lemma window_face_count (verts : Q -> Q -> list Q) (q0 : Z) (b : wbufs) :
  wb_inv tw q0 b -> verts_inv P q0 b ->
  q0 + hw * vw <= 3 * tw ->
  (forall i j, (0.01 <= i)%Q -> (i < w - 0.13)%Q -> (0.02 <= j)%Q -> (j < h - 0.13)%Q ->
               quad_ok P (verts i j)) ->
  hoare (fun e => gl_part e = G)
        (window_face 0.13 0.02 w h hw verts norms b)
        (fun b' e' => gl_part e' = G /\
           wb_inv tw (q0 + hw * rows_written h) b' /\
           verts_inv P (q0 + hw * rows_written h) b').
Proof.
  intros Hwb Hvi Hroom Hverts. unfold window_face.
  set (i0 := (w / 2 - inject_Z hw * (0.13 + 0.02) / 2 + 0.02 / 2)%Q).
  set (J := fun (k : Z) (b : wbufs) (e : env) =>
    gl_part e = G /\ wb_inv tw (q0 + k * rows_written h) b /\
    verts_inv P (q0 + k * rows_written h) b).
  pose proof (rows_written_le h) as Hle. fold vw in Hle.
  pose proof (rows_written_nonneg h h_range) as Hnn.
  eapply hoare_conseq with (P' := J 0 b).
  - apply (hoare_for_float_count J); [reflexivity |].
    intros k x s Hk Hx e [(Hgl & Hwb' & Hvi') Hlt].
    pose proof (horizontal_steps w x k Hx Hlt) as Hstep. cbv zeta in Hstep. fold hw in Hstep.
    pose proof (horizontal_start w) as Hstart. cbv zeta in Hstart. fold hw i0 in Hstart.
    assert (Hx0 : (0.01 <= x)%Q).
    { rewrite Hx. pose proof (inject_Z_nonneg k ltac:(lia)). fold i0. lra. }
    destruct (window_column_count (verts x) (q0 + k * rows_written h) s Hwb' Hvi')
      with (e := e) as (s' & e' & Hrun & Hgl' & Hwb'' & Hvi''); auto.
    { nia. }
    exists s', e'. split; [exact Hrun |]. split; [exact Hgl' |].
    replace (q0 + (k + 1) * rows_written h) with (q0 + k * rows_written h + rows_written h)
      by ring. auto.
  - intros e He. split; [exact He |]. replace (q0 + 0 * rows_written h) with q0 by ring. auto.
  - intros b' e' (k & Hk & (Hgl & Hwb' & Hvi') & Hge & Hprev).
    pose proof (horizontal_count w k w_range Hk Hge Hprev) as Hkhw. cbv zeta in Hkhw.
    fold hw in Hkhw. subst k. auto.
Qed.

End WindowCount.

Lemma floor_steps_positive (x : Q) :
  (0.13 + 0.02 <= x)%Q -> 1 <= Qfloor (x / (0.13 + 0.02)).
Proof.
  intros Hx. destruct (floor_step_bounds x) as [_ Hhi]. cbv zeta in Hhi.
  set (f := Qfloor (x / (0.13 + 0.02))) in *. clearbody f.
  assert (H0 : (inject_Z 1 < inject_Z (f + 1))%Q).
  { rewrite inject_Z_succ. change (inject_Z 1) with 1%Q. lra. }
  rewrite <- Zlt_Qlt in H0. lia.
Qed.

Section DrawWindowsCount.

Variable P : Q * Q * Q -> Prop.
Variables (w h : Q).
Variables (vfront vleft vright : Q -> Q -> list Q).
Hypothesis w_range : (0.13 + 0.02 <= w)%Q.
Hypothesis h_range : (0.13 + 0.02 <= h)%Q.

Let hw := Qfloor (w / (0.13 + 0.02)).
Let vw := Qfloor (h / (0.13 + 0.02)).
Let tw := hw * vw.

Hypothesis verts_ok : forall i j,
  (0.01 <= i)%Q -> (i < w - 0.13)%Q -> (0.02 <= j)%Q -> (j < h - 0.13)%Q ->
  quad_ok P (vfront i j) /\ quad_ok P (vleft i j) /\ quad_ok P (vright i j).

Lemma window_faces_count (G : Z * gset Z * list event) :
  hoare (fun e => gl_part e = G)
        (window_faces 0.13 0.02 w h hw vfront vleft vright (wbufs_new tw))
        (fun b e' => gl_part e' = G /\
           wb_inv tw (3 * (hw * rows_written h)) b /\
           verts_inv P (3 * (hw * rows_written h)) b).
Proof.
  unfold window_faces.
  pose proof (floor_steps_positive w w_range) as Hhw. fold hw in Hhw.
  pose proof (floor_steps_positive h h_range) as Hvw. fold vw in Hvw.
  pose proof (rows_written_le h) as Hle. fold vw in Hle.
  pose proof (rows_written_nonneg h h_range) as Hnn.
  set (r := rows_written h) in *.
  intros e He.
  destruct (window_face_count P G w h tw norms_front norms_front_len w_range h_range
              vfront 0 (wbufs_new tw)) with (e := e)
    as (b1 & e1 & Hrun1 & He1 & Hwb1 & Hvi1); auto.
  { apply wb_inv_new. }
  { apply verts_inv_new. }
  { fold hw vw. unfold tw. nia. }
  { intros i j Hi1 Hi2 Hj1 Hj2. apply (verts_ok i j); assumption. }
  fold hw r in Hwb1, Hvi1.
  destruct (window_face_count P G w h tw norms_side norms_side_len w_range h_range
              vleft (0 + hw * r) b1 Hwb1 Hvi1) with (e := e1)
    as (b2 & e2 & Hrun2 & He2 & Hwb2 & Hvi2); auto.
  { fold hw vw. unfold tw. nia. }
  { intros i j Hi1 Hi2 Hj1 Hj2. apply (verts_ok i j); assumption. }
  fold hw r in Hwb2, Hvi2.
  destruct (window_face_count P G w h tw norms_side norms_side_len w_range h_range
              vright (0 + hw * r + hw * r) b2 Hwb2 Hvi2) with (e := e2)
    as (b3 & e3 & Hrun3 & He3 & Hwb3 & Hvi3); auto.
  { fold hw vw. unfold tw. nia. }
  { intros i j Hi1 Hi2 Hj1 Hj2. apply (verts_ok i j); assumption. }
  fold hw r in Hwb3, Hvi3.
  exists b3, e3. split.
  { unfold mbind, M_bind. fold hw in Hrun1, Hrun2, Hrun3. rewrite Hrun1, Hrun2. exact Hrun3. }
  split; [exact He3 |].
  replace (3 * (hw * r)) with (0 + hw * r + hw * r + hw * r) by ring. auto.
Qed.

(** The windows of one tier with their number: [3 * hw * rows_written h]
    windows are written into a mesh of [3 * hw * vw]. *)
Lemma draw_windows_count (prog : Z) (e : env) :
  exists g e',
    draw_windows prog 0.13 0.02 w h vfront vleft vright e = Ok (g, e') /\
    vertex_count g = 12 * (hw * vw) /\
    (forall v : nat, Z.of_nat v < 12 * (hw * rows_written h) ->
       exists p, geom_vertex g v = Some p /\ P p) /\
    (forall v : nat, 12 * (hw * rows_written h) <= Z.of_nat v -> geom_vertex g v = None).
Proof.
  unfold draw_windows. fold hw vw tw.
  destruct (kuhl_geometry_new_spec (gl_next e) (gl_live e) (trace e) prog (tw * 4 * 3) e
              eq_refl) as (g0 & e0 & Hrun0 & He0 & Hv0 & Hvc0 & _).
  destruct (window_faces_count _ e0 He0) as (b & e1 & Hrun1 & He1 & Hwb & Hvi).
  destruct (windows_upload_spec w h (fun _ => True) g0 _ b Hwb Hvc0) with (e := e1)
    as (g & e2 & Hrun2 & _ & Hg); [exact I |].
  exists g, e2. split.
  { unfold mbind, M_bind. rewrite Hrun0, Hrun1. exact Hrun2. }
  assert (Hpos : positions g =
    (fun k => cells (wVertexPositions b) !! k) <$> seqZ 0 (tw * 4 * 3 * 3))
    by (rewrite Hg; reflexivity).
  assert (Hvc : vertex_count g = tw * 4 * 3) by (rewrite Hg; reflexivity).
  split; [rewrite Hvc; unfold tw; ring |].
  pose proof (floor_steps_positive w w_range) as Hhw. fold hw in Hhw.
  pose proof (rows_written_le h) as Hle. fold vw in Hle.
  destruct Hvi as [Hin Hout]. split.
  - intros v Hv. destruct (Hin (Z.of_nat v)) as (p & Hp & HP); [lia |].
    exists p. split; [| exact HP].
    rewrite (geom_vertex_uploaded w h g _ _ v Hpos).
    rewrite bool_decide_eq_true_2; [exact Hp |]. unfold tw. nia.
  - intros v Hv. rewrite (geom_vertex_uploaded w h g _ _ v Hpos).
    case_bool_decide; [| reflexivity].
    unfold vertex_at. rewrite (Hout (3 * Z.of_nat v)) by lia. reflexivity.
Qed.

End DrawWindowsCount.

Lemma quads_have_twelve_floats (w : Q) (fud sh : Q) (i j : Q) :
  (quad_ok (fun _ => True) (verts_front 0.13 0.001 sh i j) /\
   quad_ok (fun _ => True) (verts_left 0.13 0.001 sh i j) /\
   quad_ok (fun _ => True) (verts_right 0.13 0.001 sh w i j)) /\
  (quad_ok (fun _ => True) (verts_front_top 0.13 0.001 sh fud i j) /\
   quad_ok (fun _ => True) (verts_left_top 0.13 0.001 sh fud i j) /\
   quad_ok (fun _ => True) (verts_right_top 0.13 0.001 sh fud w i j)).
Proof. repeat split; repeat constructor. Qed.

(** The window mesh [g] of a tier [w] wide and [h] high has
    [12 * hw * vw] vertices, of which the first [12 * hw * rows_written h]
    have been written and the others have not. *)
Definition window_mesh_written (w h : Q) (g : kuhl_geometry) : Prop :=
  let hw := Qfloor (w / (0.13 + 0.02)) in
  let vw := Qfloor (h / (0.13 + 0.02)) in
  vertex_count g = 12 * (hw * vw) /\
  forall v : nat, is_Some (geom_vertex g v) <-> Z.of_nat v < 12 * (hw * rows_written h).



(** ** Travel after a jump *)

(** The rows selected by [S] show the buildings of their lattice
    coordinates. *)
Definition rows_seeded (S : Z -> Prop) (W : World) : Prop :=
  forall i j, in_grid i j -> S j ->
    made_from_seed (cell W i j) (getSeed i (j - shiftBreak W)).

(** One update that moves [shiftBreak] by one row, or not at all, keeps the
    rows that were in place and adds the row it generates. *)
Lemma updated_rows_seeded (S : Z -> Prop) (W W' : World) :
  rows_seeded S W -> updated W W' ->
  (Qfloor (shift W) = shiftBreak W -> rows_seeded S W') /\
  (Qfloor (shift W) = shiftBreak W + 1 -> rows_seeded (fun j => j = 0 \/ S (j - 1)) W') /\
  (Qfloor (shift W) = shiftBreak W - 1 -> rows_seeded (fun j => j = 9 \/ S (j + 1)) W').
Proof.
  intros Hs Hup. destruct (updated_scalars W W' Hup) as (_ & Hb & _).
  unfold updated in Hup. cbv zeta in Hup. split; [| split]; intros Hd.
  - rewrite decide_False, decide_False in Hup by lia. subst W'. exact Hs.
  - rewrite decide_False, decide_True in Hup by lia.
    destruct Hup as (_ & _ & _ & Hmove & Hnew & _).
    intros i j Hg [-> | Hj].
    + rewrite Hb. replace (0 - Qfloor (shift W)) with (- Qfloor (shift W)) by lia.
      apply Hnew. unfold in_grid in Hg. lia.
    + destruct (decide (j = 0)) as [-> | Hne].
      * rewrite Hb. replace (0 - Qfloor (shift W)) with (- Qfloor (shift W)) by lia.
        apply Hnew. unfold in_grid in Hg. lia.
      * rewrite (Hmove i j Hg Hne).
        change (cell (with_shiftBreak W _) i (j - 1)) with (cell W i (j - 1)).
        rewrite Hb, Hd. replace (j - (shiftBreak W + 1)) with (j - 1 - shiftBreak W) by lia.
        apply Hs; [unfold in_grid in *; lia | exact Hj].
  - rewrite decide_True in Hup by lia.
    destruct Hup as (_ & _ & _ & Hmove & Hnew & _).
    intros i j Hg [-> | Hj].
    + rewrite Hb. apply Hnew. unfold in_grid in Hg. lia.
    + destruct (decide (j = 9)) as [-> | Hne].
      * rewrite Hb. apply Hnew. unfold in_grid in Hg. lia.
      * rewrite (Hmove i j Hg Hne).
        change (cell (with_shiftBreak W _) i (j + 1)) with (cell W i (j + 1)).
        rewrite Hb, Hd. replace (j - (shiftBreak W - 1)) with (j + 1 - shiftBreak W) by lia.
        apply Hs; [unfold in_grid in *; lia | exact Hj].
Qed.

Lemma Qfloor_plus_Z (x : Q) (n : Z) : Qfloor (x + inject_Z n) = Qfloor x + n.
Proof.
  pose proof (Qfloor_le x) as Hx1. pose proof (Qlt_floor x) as Hx2.
  pose proof (Qfloor_le (x + inject_Z n)) as Hy1.
  pose proof (Qlt_floor (x + inject_Z n)) as Hy2.
  rewrite inject_Z_plus in Hx2, Hy2. change (inject_Z 1) with 1%Q in Hx2, Hy2.
  assert (H1 : (inject_Z (Qfloor (x + inject_Z n)) < inject_Z (Qfloor x + n + 1))%Q).
  { rewrite !inject_Z_plus. change (inject_Z 1) with 1%Q. lra. }
  assert (H2 : (inject_Z (Qfloor x + n) < inject_Z (Qfloor (x + inject_Z n) + 1))%Q).
  { rewrite !inject_Z_plus. change (inject_Z 1) with 1%Q. lra. }
  rewrite <- Zlt_Qlt in H1, H2. lia.
Qed.

Lemma Qfloor_forward (x : Q) : 0 <= Qfloor (x + 0.1) - Qfloor x <= 1.
Proof.
  pose proof (Qfloor_step x (x + 0.1)%Q ltac:(lra) ltac:(lra)) as H.
  pose proof (Qfloor_resp_le x (x + 0.1)%Q ltac:(lra)). lia.
Qed.

Lemma Qfloor_backward (x : Q) : -1 <= Qfloor (x - 0.1) - Qfloor x <= 0.
Proof.
  pose proof (Qfloor_step x (x - 0.1)%Q ltac:(lra) ltac:(lra)) as H.
  pose proof (Qfloor_resp_le (x - 0.1)%Q x ltac:(lra)). lia.
Qed.

(** Turns of one [B] each: the rows below the distance travelled are in
    place. *)
Lemma forward_phase (num_viewports : Z) (n : nat) :
  1 <= num_viewports ->
  forall (W : World) (k : Z),
    rows_seeded (fun j => j < k) W ->
    0 <= Qfloor (shift W) - shiftBreak W <= 1 ->
    exists W',
      main_loop num_viewports (replicate n [KEY_B]) W = Ok W' /\
      rows_seeded (fun j => j < k + (shiftBreak W' - shiftBreak W)) W' /\
      0 <= Qfloor (shift W') - shiftBreak W' <= 1 /\
      shift W' = net_shift (replicate n [KEY_B]) (shift W).
Proof.
  intros Hnv. induction n as [| n IH]; intros W k Hs Hnear.
  - exists W. simpl. split; [reflexivity |]. split; [| auto].
    replace (k + (shiftBreak W - shiftBreak W)) with k by lia. exact Hs.
  - destruct (frame_spec num_viewports [KEY_B] W Hnv) as (W1 & Hup & Hrun).
    destruct (updated_scalars W W1 Hup) as (Hs1 & Hb1 & _).
    destruct (updated_rows_seeded _ W W1 Hs Hup) as (Hsame & Hnearstep & _).
    set (W2 := with_shift W1 (foldl key_shift (shift W) [KEY_B])) in *.
    assert (Hs2 : rows_seeded (fun j => j < k + (shiftBreak W2 - shiftBreak W)) W2).
    { change (shiftBreak W2) with (shiftBreak W1). rewrite Hb1.
      destruct (Z.eq_dec (Qfloor (shift W)) (shiftBreak W)) as [He | Hne].
      - rewrite He. replace (k + (shiftBreak W - shiftBreak W)) with k by lia.
        apply Hsame. exact He.
      - assert (Hd : Qfloor (shift W) = shiftBreak W + 1) by lia.
        specialize (Hnearstep Hd). intros i j Hg Hj. apply Hnearstep; [exact Hg |].
        rewrite Hd in Hj. unfold in_grid in Hg. lia. }
    destruct (IH W2 _ Hs2) as (W' & Hrun' & Hs' & Hnear' & Hshift').
    { simpl. rewrite Hb1. apply Qfloor_forward. }
    exists W'. simpl. rewrite Hrun. simpl. split; [exact Hrun' |]. split; [| auto].
    intros i j Hg Hj. apply Hs'; [exact Hg |].
    change (shiftBreak W2) with (shiftBreak W1). lia.
Qed.

(** Turns of one [SPACE] each: the rows above 9 minus the distance
    travelled are in place. *)
Lemma backward_phase (num_viewports : Z) (n : nat) :
  1 <= num_viewports ->
  forall (W : World) (k : Z),
    rows_seeded (fun j => 9 - k < j) W ->
    -1 <= Qfloor (shift W) - shiftBreak W <= 0 ->
    exists W',
      main_loop num_viewports (replicate n [KEY_SPACE]) W = Ok W' /\
      rows_seeded (fun j => 9 - (k + (shiftBreak W - shiftBreak W')) < j) W' /\
      -1 <= Qfloor (shift W') - shiftBreak W' <= 0 /\
      shift W' = net_shift (replicate n [KEY_SPACE]) (shift W).
Proof.
  intros Hnv. induction n as [| n IH]; intros W k Hs Hnear.
  - exists W. simpl. split; [reflexivity |]. split; [| auto].
    replace (k + (shiftBreak W - shiftBreak W)) with k by lia. exact Hs.
  - destruct (frame_spec num_viewports [KEY_SPACE] W Hnv) as (W1 & Hup & Hrun).
    destruct (updated_scalars W W1 Hup) as (Hs1 & Hb1 & _).
    destruct (updated_rows_seeded _ W W1 Hs Hup) as (Hsame & _ & Hfarstep).
    set (W2 := with_shift W1 (foldl key_shift (shift W) [KEY_SPACE])) in *.
    assert (Hs2 : rows_seeded (fun j => 9 - (k + (shiftBreak W - shiftBreak W2)) < j) W2).
    { change (shiftBreak W2) with (shiftBreak W1). rewrite Hb1.
      destruct (Z.eq_dec (Qfloor (shift W)) (shiftBreak W)) as [He | Hne].
      - rewrite He. replace (k + (shiftBreak W - shiftBreak W)) with k by lia.
        apply Hsame. exact He.
      - assert (Hd : Qfloor (shift W) = shiftBreak W - 1) by lia.
        specialize (Hfarstep Hd). intros i j Hg Hj. apply Hfarstep; [exact Hg |].
        rewrite Hd in Hj. unfold in_grid in Hg. lia. }
    destruct (IH W2 _ Hs2) as (W' & Hrun' & Hs' & Hnear' & Hshift').
    { simpl. rewrite Hb1. apply Qfloor_backward. }
    exists W'. simpl. rewrite Hrun. simpl. split; [exact Hrun' |]. split; [| auto].
    intros i j Hg Hj. apply Hs'; [exact Hg |].
    change (shiftBreak W2) with (shiftBreak W1). lia.
Qed.

Lemma main_loop_cons (num_viewports : Z) (keys : list key) (turns : list (list key))
    (W : World) :
  main_loop num_viewports (keys :: turns) W =
  res_bind (frame num_viewports keys W) (main_loop num_viewports turns).
Proof. reflexivity. Qed.

Lemma main_loop_last (num_viewports : Z) (turns : list (list key)) (W W1 W2 : World) :
  main_loop num_viewports turns W = Ok W1 ->
  frame num_viewports [] W1 = Ok W2 ->
  main_loop num_viewports (turns ++ [[]]) W = Ok W2.
Proof.
  intros H1 H2. rewrite main_loop_app, H1. unfold res_bind at 1.
  rewrite main_loop_cons, H2. reflexivity.
Qed.

Lemma main_loop_steady (num_viewports : Z) (turns : list (list key)) (k : key)
    (W0 Wa Wb W' : World) :
  main_loop num_viewports turns W0 = Ok Wa ->
  frame num_viewports [k] Wa = Ok Wb ->
  main_loop num_viewports (replicate 109 [k] ++ [[]]) Wb = Ok W' ->
  main_loop num_viewports (turns ++ replicate 110 [k] ++ [[]]) W0 = Ok W'.
Proof.
  intros Ha Hb H. rewrite main_loop_app, Ha. unfold res_bind at 1.
  replace (replicate 110 [k]) with ([k] :: replicate 109 [k]) by reflexivity.
  rewrite <- app_comm_cons, main_loop_cons, Hb. exact H.
Qed.

(** After the first of the steady turns [shiftBreak] is the floor of the
    position before the key, and eleven units later all rows are new. *)
Lemma forward_heals (num_viewports : Z) (Wa Wa1 : World) :
  1 <= num_viewports -> updated Wa Wa1 ->
  exists W1,
    main_loop num_viewports (replicate 109 [KEY_B] ++ [[]])
      (with_shift Wa1 (shift Wa + 0.1)%Q) = Ok W1 /\
    seeded W1.
Proof.
  intros Hnv Hup. destruct (updated_scalars Wa Wa1 Hup) as (Hsa & Hba & _).
  set (Wb := with_shift Wa1 (shift Wa + 0.1)%Q).
  assert (Hbb : shiftBreak Wb = Qfloor (shift Wa)) by exact Hba.
  assert (Hsb : shift Wb = (shift Wa + 0.1)%Q) by reflexivity.
  clearbody Wb.
  destruct (forward_phase num_viewports 109 Hnv Wb 0) as (Wc & Hrunc & Hsc & Hnc & Hshc).
  { intros i j Hg Hj. unfold in_grid in Hg. lia. }
  { rewrite Hbb, Hsb. apply Qfloor_forward. }
  destruct (frame_spec num_viewports [] Wc Hnv) as (Wd & Hupd & Hrund).
  destruct (updated_scalars Wc Wd Hupd) as (Hsd & Hbd & _).
  destruct (updated_rows_seeded _ Wc Wd Hsc Hupd) as (Hsame & Hnearstep & _).
  exists (with_shift Wd (foldl key_shift (shift Wc) [])).
  split; [apply (main_loop_last _ _ _ _ _ Hrunc Hrund) |].
  assert (Hfin : Qfloor (shift Wc) = shiftBreak Wb + 11).
  { rewrite Hshc, Hbb.
    rewrite (Qfloor_comp _ (shift Wa + inject_Z 11)%Q).
    - rewrite Qfloor_plus_Z. reflexivity.
    - rewrite net_shift_B, Hsb.
      change (inject_Z (Z.of_nat 109)) with 109%Q. change (inject_Z 11) with 11%Q. ring. }
  assert (Hseed : rows_seeded (fun _ => True) Wd).
  { intros i j Hg _.
    destruct (Z.eq_dec (Qfloor (shift Wc)) (shiftBreak Wc)) as [He | Hne].
    - apply (Hsame He i j Hg). unfold in_grid in Hg. lia.
    - apply (Hnearstep ltac:(lia) i j Hg). unfold in_grid in Hg. lia. }
  intros i j Hg. exact (Hseed i j Hg I).
Qed.

Lemma backward_heals (num_viewports : Z) (Wa Wa1 : World) :
  1 <= num_viewports -> updated Wa Wa1 ->
  exists W1,
    main_loop num_viewports (replicate 109 [KEY_SPACE] ++ [[]])
      (with_shift Wa1 (shift Wa - 0.1)%Q) = Ok W1 /\
    seeded W1.
Proof.
  intros Hnv Hup. destruct (updated_scalars Wa Wa1 Hup) as (Hsa & Hba & _).
  set (Wb := with_shift Wa1 (shift Wa - 0.1)%Q).
  assert (Hbb : shiftBreak Wb = Qfloor (shift Wa)) by exact Hba.
  assert (Hsb : shift Wb = (shift Wa - 0.1)%Q) by reflexivity.
  clearbody Wb.
  destruct (backward_phase num_viewports 109 Hnv Wb 0) as (Wc & Hrunc & Hsc & Hnc & Hshc).
  { intros i j Hg Hj. unfold in_grid in Hg. lia. }
  { rewrite Hbb, Hsb. apply Qfloor_backward. }
  destruct (frame_spec num_viewports [] Wc Hnv) as (Wd & Hupd & Hrund).
  destruct (updated_scalars Wc Wd Hupd) as (Hsd & Hbd & _).
  destruct (updated_rows_seeded _ Wc Wd Hsc Hupd) as (Hsame & _ & Hfarstep).
  exists (with_shift Wd (foldl key_shift (shift Wc) [])).
  split; [apply (main_loop_last _ _ _ _ _ Hrunc Hrund) |].
  assert (Hfin : Qfloor (shift Wc) = shiftBreak Wb - 11).
  { rewrite Hshc, Hbb.
    rewrite (Qfloor_comp _ (shift Wa + inject_Z (-11))%Q).
    - rewrite Qfloor_plus_Z. lia.
    - rewrite net_shift_SPACE, Hsb.
      change (inject_Z (Z.of_nat 109)) with 109%Q. change (inject_Z (-11)) with (-11)%Q.
      ring. }
  assert (Hseed : rows_seeded (fun _ => True) Wd).
  { intros i j Hg _.
    destruct (Z.eq_dec (Qfloor (shift Wc)) (shiftBreak Wc)) as [He | Hne].
    - apply (Hsame He i j Hg). unfold in_grid in Hg. lia.
    - apply (Hfarstep ltac:(lia) i j Hg). unfold in_grid in Hg. lia. }
  intros i j Hg. exact (Hseed i j Hg I).
Qed.



(** ** The random stream after a generation *)

(** Two calls with the same seed end with the same state of the stream. *)
Lemma init_geometryBuilding_stream
    (b1 w1 bt1 wt1 b2 w2 bt2 wt2 : kuhl_geometry) (prog1 prog2 seed : Z) (e1 e2 : env) :
  match init_geometryBuilding b1 w1 bt1 wt1 prog1 seed e1,
        init_geometryBuilding b2 w2 bt2 wt2 prog2 seed e2 with
  | Ok (_, e1'), Ok (_, e2') => rng e1' = rng e2'
  | Err f1, Err f2 => f1 = f2
  | _, _ => False
  end.
Proof.
  unfold init_geometryBuilding.
  set (body1 := fun _ : unit => randomRange 0.4 0.8 ≫= _).
  set (body2 := fun _ : unit => randomRange 0.4 0.8 ≫= _).
  assert (Hrel : rel same_cell (body1 tt) (body2 tt)).
  { unfold body1, body2.
    eapply rel_bind; [apply rel_randomRange |]. intros w ? <-.
    eapply rel_bind; [apply rel_randomRange |]. intros h ? <-.
    eapply rel_bind; [apply rel_shell_upload |]. intros gb1 gb2 Hb.
    eapply rel_bind; [apply rel_draw_windows |]. intros gw1 gw2 Hw.
    eapply rel_bind; [apply rel_randomRange |]. intros r ? <-.
    destruct (Qlt_le_dec 0.5 r).
    - eapply rel_bind; [apply rel_top_dimensions |]. intros [[tw th] fud] ? <-.
      eapply rel_bind; [apply rel_shell_upload |]. intros gt1 gt2 Ht.
      eapply rel_bind; [apply rel_draw_windows |]. intros gx1 gx2 Hx.
      apply rel_ret. simpl. auto.
    - apply rel_ret. simpl. repeat split; auto; discriminate. }
  clearbody body1 body2. rewrite !srand48_bind.
  match goal with |- match body1 tt ?x with _ => _ end =>
    match goal with |- context [body2 tt ?y] =>
      specialize (Hrel x y eq_refl) end end.
  destruct (body1 tt _) as [[r1 e1'] | f1], (body2 tt _) as [[r2 e2'] | f2].
  - exact (proj2 Hrel).
  - exact Hrel.
  - exact Hrel.
  - exact Hrel.
Qed.

(** X18.  The generator does not keep its random stream to itself: it
    reseeds the rand48 stream of the whole process.  After a call the state
    of the stream depends on the seed alone, not on the state before the
    call, so whatever is drawn next ([drand48], [randomRange]) is the same
    after every generation from that seed, and the stream that other code
    was drawing from is lost. *)
Theorem generation_resets_the_shared_stream (seed : Z)
    (b1 w1 bt1 wt1 b2 w2 bt2 wt2 : kuhl_geometry) (prog1 prog2 : Z) (e1 e2 : env)
    (start end_ : Q) :
  exists r1 e1' r2 e2' n1 e1'' n2 e2'',
    init_geometryBuilding b1 w1 bt1 wt1 prog1 seed e1 = Ok (r1, e1') /\
    init_geometryBuilding b2 w2 bt2 wt2 prog2 seed e2 = Ok (r2, e2') /\
    rng e1' = rng e2' /\
    randomRange start end_ e1' = Ok (n1, e1'') /\
    randomRange start end_ e2' = Ok (n2, e2'') /\
    n1 = n2.
Proof.
  destruct (init_geometryBuilding_spec b1 w1 bt1 wt1 prog1 seed
              (gl_next e1) (gl_live e1) (trace e1) e1 eq_refl) as (r1 & e1' & Hrun1 & _).
  destruct (init_geometryBuilding_spec b2 w2 bt2 wt2 prog2 seed
              (gl_next e2) (gl_live e2) (trace e2) e2 eq_refl) as (r2 & e2' & Hrun2 & _).
  pose proof (init_geometryBuilding_stream b1 w1 bt1 wt1 b2 w2 bt2 wt2 prog1 prog2 seed e1 e2)
    as Hrng.
  rewrite Hrun1, Hrun2 in Hrng.
  exists r1, e1', r2, e2'.
  pose proof (rel_randomRange start end_ e1' e2' Hrng) as Hrr.
  destruct (randomRange start end_ e1') as [[n1 e1''] | f1] eqn:H1;
    destruct (randomRange start end_ e2') as [[n2 e2''] | f2] eqn:H2;
    try contradiction.
  - exists n1, e1'', n2, e2''. destruct Hrr as [Hn _]. auto 10.
  - exfalso. unfold randomRange, mbind, M_bind, drand48 in H1. discriminate H1.
Qed.

(** ** The index buffer of a window mesh *)

(** What a loop over a real-valued counter keeps, if it returns. *)
Lemma for_float_fuel_keeps {S} (I : S -> Prop) (bound step : Q) (body : Q -> S -> M S) :
  (forall x s e s' e', I s -> body x s e = Ok (s', e') -> I s') ->
  forall (fuel : nat) (x : Q) (s : S) (e : env) (s' : S) (e' : env),
    I s -> for_float_fuel fuel bound step body x s e = Ok (s', e') -> I s'.
Proof.
  intros Hbody. induction fuel as [| fuel IH]; intros x s e s' e' HI; simpl.
  - destruct (Qlt_le_dec x bound); [discriminate |]. intros [= <- _]. exact HI.
  - destruct (Qlt_le_dec x bound); [| intros [= <- _]; exact HI].
    unfold mbind, M_bind. destruct (body x s e) as [[s1 e1] | f] eqn:Hrun; [| discriminate].
    apply IH. apply (Hbody x s e s1 e1 HI Hrun).
Qed.

(** A store that succeeds was in bounds. *)
Lemma store_list_ok {T} (vs : list T) : forall (a a' : carray T) (base : Z),
  store_list a base vs = Ok a' -> vs <> [] ->
  0 <= base /\ base + Z.of_nat (length vs) <= capacity a.
Proof.
  induction vs as [| v vs IH]; intros a a' base Hrun Hne; [contradiction |].
  simpl in Hrun. unfold store in Hrun. case_bool_decide as Hb; [| discriminate].
  simpl in Hrun. destruct vs as [| v' vs'].
  - simpl. lia.
  - destruct (IH _ _ _ Hrun ltac:(discriminate)) as [H0 H1]. simpl in H1.
    simpl length. lia.
Qed.

(** [q] windows have been written: the first [6 * q] indices are set and
    point at the first [4 * q] vertices, the others are not set. *)
Definition idx_ok (b : wbufs) : Prop :=
  exists q, 0 <= q /\ n2 b = 6 * q /\ n3 b = 4 * q /\
    (forall k, 0 <= k < 6 * q ->
       exists v, cells (wIndexData b) !! k = Some v /\ 0 <= v < 4 * q) /\
    (forall k, k < 0 \/ 6 * q <= k -> cells (wIndexData b) !! k = None).

Lemma idx_ok_new (tw : Z) : idx_ok (wbufs_new tw).
Proof.
  exists 0. simpl. repeat split; try lia.
Qed.

Lemma window_quad_idx (verts norms : list Q) (b : wbufs) (e : env) (b' : wbufs) (e' : env) :
  idx_ok b -> window_quad verts norms b e = Ok (b', e') -> idx_ok b'.
Proof.
  intros (q & Hq & Hn2 & Hn3 & Hin & Hout). unfold window_quad, mbind, M_bind, lift_res.
  destruct (store_list (wVertexPositions b) (n1 b) verts) as [vp | ?]; [| discriminate].
  destruct (store_list (wNormalData b) (n1 b) norms) as [nd | ?]; [| discriminate].
  destruct (randomRange 0 1 e) as [[lit e1] | ?]; [| discriminate].
  set (cv := if Qlt_le_dec 0.5 lit then (0.5%Q, 0.5%Q, 0%Q) else (0%Q, 0%Q, 0%Q)).
  clearbody cv. destruct cv as [[cv0 cv1] cv2].
  destruct (store_list (wColorData b) (n1 b) _) as [cd | ?]; [| discriminate].
  set (il := [n3 b + 0; n3 b + 1; n3 b + 2; n3 b + 1; n3 b + 2; n3 b + 3]).
  destruct (store_list (wIndexData b) (n2 b) il) as [ix | ?] eqn:Hix; [| discriminate].
  intros [= <- _].
  destruct (store_list_ok il _ _ _ Hix ltac:(discriminate)) as [H0 Hcap].
  destruct (store_list_spec il (wIndexData b) (n2 b) H0 Hcap)
    as (ix' & Hix' & _ & Hixout & Hixin).
  assert (ix' = ix) by congruence. subst ix'.
  exists (q + 1). simpl. split; [lia |]. split; [lia |]. split; [lia |]. split.
  - intros k Hk. destruct (Z_lt_le_dec k (6 * q)) as [Hold | Hnew].
    + destruct (Hin k ltac:(lia)) as (v & Hv & Hvr).
      exists v. split; [| lia]. rewrite Hixout by (simpl; lia). exact Hv.
    + set (c := Z.to_nat (k - 6 * q)).
      assert (Hc : (c < 6)%nat) by lia.
      replace k with (n2 b + Z.of_nat c) by lia.
      rewrite Hixin by (simpl; lia).
      destruct c as [| [| [| [| [| [| c]]]]]]; [| | | | | | lia];
        simpl; eexists; (split; [reflexivity | lia]).
  - intros k Hk. rewrite Hixout by (simpl; lia). apply Hout. lia.
Qed.

Lemma window_face_idx (ws wp w h : Q) (hw : Z) (verts : Q -> Q -> list Q) (norms : list Q)
    (b : wbufs) (e : env) (b' : wbufs) (e' : env) :
  idx_ok b -> window_face ws wp w h hw verts norms b e = Ok (b', e') -> idx_ok b'.
Proof.
  intros Hb. unfold window_face, for_float.
  apply (for_float_fuel_keeps idx_ok); [| exact Hb].
  intros x s e0 s' e0' Hs. apply (for_float_fuel_keeps idx_ok); [| exact Hs].
  intros y s1 e1 s1' e1' Hs1. apply window_quad_idx. exact Hs1.
Qed.

Lemma window_faces_idx (ws wp w h : Q) (hw : Z) (vfront vleft vright : Q -> Q -> list Q)
    (b : wbufs) (e : env) (b' : wbufs) (e' : env) :
  idx_ok b -> window_faces ws wp w h hw vfront vleft vright b e = Ok (b', e') -> idx_ok b'.
Proof.
  intros Hb. unfold window_faces, mbind, M_bind.
  destruct (window_face ws wp w h hw vfront norms_front b e) as [[b1 e1] | ?] eqn:H1;
    [| discriminate].
  destruct (window_face ws wp w h hw vleft norms_side b1 e1) as [[b2 e2] | ?] eqn:H2;
    [| discriminate].
  intros H3.
  apply (window_face_idx _ _ _ _ _ _ _ _ _ _ _ (window_face_idx _ _ _ _ _ _ _ _ _ _ _
           (window_face_idx _ _ _ _ _ _ _ _ _ _ _ Hb H1) H2) H3).
Qed.

(** The index buffer of the window mesh [g] of a tier [w] wide and [h]
    high: [18 * hw * vw] indices are uploaded; the first
    [18 * hw * rows_written h] are set and point at written vertices, the
    others were never set. *)
Definition window_indices_written (w h : Q) (g : kuhl_geometry) : Prop :=
  let hw := Qfloor (w / (0.13 + 0.02)) in
  let vw := Qfloor (h / (0.13 + 0.02)) in
  length (indices g) = Z.to_nat (18 * (hw * vw)) /\
  forall k : nat,
    (Z.of_nat k < 18 * (hw * rows_written h) ->
       exists v, indices g !! k = Some (Some v) /\
                 0 <= v < 12 * (hw * rows_written h) /\
                 is_Some (geom_vertex g (Z.to_nat v))) /\
    (18 * (hw * rows_written h) <= Z.of_nat k < 18 * (hw * vw) ->
       indices g !! k = Some None).

Lemma draw_windows_indices (w h : Q) (vfront vleft vright : Q -> Q -> list Q)
    (prog : Z) (e : env) :
  (0.13 + 0.02 <= w)%Q -> (0.13 + 0.02 <= h)%Q ->
  (forall i j : Q, quad_ok (fun _ => True) (vfront i j) /\
     quad_ok (fun _ => True) (vleft i j) /\ quad_ok (fun _ => True) (vright i j)) ->
  exists g e',
    draw_windows prog 0.13 0.02 w h vfront vleft vright e = Ok (g, e') /\
    window_indices_written w h g.
Proof.
  intros Hw Hh Hquads.
  destruct (draw_windows_count (fun _ => True) w h vfront vleft vright Hw Hh
              (fun i j _ _ _ _ => Hquads i j) prog e)
    as (g' & e'' & Hrun' & _ & Hvin & _).
  set (hw := Qfloor (w / (0.13 + 0.02))) in *.
  set (vw := Qfloor (h / (0.13 + 0.02))) in *.
  set (tw := hw * vw).
  destruct (kuhl_geometry_new_spec (gl_next e) (gl_live e) (trace e) prog (tw * 4 * 3) e
              eq_refl) as (g0 & e0 & Hrun0 & He0 & Hv0 & Hvc0 & _).
  destruct (window_faces_count (fun _ => True) w h vfront vleft vright Hw Hh
              (fun i j _ _ _ _ => Hquads i j) _ e0 He0)
    as (b & e1 & Hrun1 & He1 & Hwb & _).
  fold hw vw tw in Hrun1, Hwb.
  pose proof (window_faces_idx _ _ _ _ _ _ _ _ _ _ _ _ (idx_ok_new tw) Hrun1) as Hidx.
  destruct (windows_upload_spec w h (fun _ => True) g0 _ b Hwb Hvc0) with (e := e1)
    as (g & e2 & Hrun2 & _ & Hg); [exact I |].
  fold hw vw tw in Hrun2, Hg.
  assert (Hrun : draw_windows prog 0.13 0.02 w h vfront vleft vright e = Ok (g, e2)).
  { unfold draw_windows. fold hw vw tw. unfold mbind, M_bind.
    rewrite Hrun0, Hrun1. exact Hrun2. }
  assert (g' = g) by congruence. subst g'.
  exists g, e2. split; [exact Hrun |].
  pose proof (floor_steps_positive w Hw) as Hhw. fold hw in Hhw.
  pose proof (floor_steps_positive h Hh) as Hvw. fold vw in Hvw.
  pose proof (rows_written_le h) as Hle. fold vw in Hle.
  pose proof (rows_written_nonneg h Hh) as Hnn.
  destruct Hidx as (q & Hq & Hn2 & Hn3 & Hin & Hout).
  destruct Hwb as (_ & _ & Hn2' & _).
  assert (Hqq : q = 3 * (hw * rows_written h)) by lia. subst q.
  assert (Hind : indices g = (fun k => cells (wIndexData b) !! k) <$> seqZ 0 (18 * tw)).
  { rewrite Hg. simpl. rewrite quot_capacity. reflexivity. }
  unfold window_indices_written. fold hw vw. split.
  - rewrite Hind, length_fmap, length_seqZ. reflexivity.
  - intros k. rewrite Hind, read_prefix_lookup. split.
    + intros Hk. rewrite bool_decide_eq_true_2 by (unfold tw; nia).
      destruct (Hin (Z.of_nat k) ltac:(lia)) as (v & Hv & Hvr).
      exists v. rewrite Hv. split; [reflexivity |]. split; [lia |].
      destruct (Hvin (Z.to_nat v) ltac:(lia)) as (p & Hp & _). exists p. exact Hp.
    + intros Hk. rewrite bool_decide_eq_true_2 by (unfold tw; lia).
      rewrite Hout by lia. reflexivity.
Qed.


